(** * mygarage.bio: authorization and rate-limiting layer

    A shallow embedding of the SQL migrations (rate-limit store, row-level
    security policies, public views, storage path guards, reorder RPCs) and
    of the TypeScript rate limiter (src/lib/security/rate-limit.ts), with the
    properties the specification states about them.

    Conventions of the embedding:
    - a table is a finite map from its primary key to the remaining columns;
    - a nullable column or argument is an [option];
    - [timestamptz] values are integers counting microseconds since the Unix
      epoch (the resolution PostgreSQL stores);
    - a PostgreSQL [integer] is a [Z] in the signed 32-bit range, and an
      arithmetic result outside of that range raises, as PostgreSQL does;
    - a [uuid] is its 128-bit value, compared as PostgreSQL compares uuids;
    - a PL/pgSQL function that can [raise exception] returns a [result]. *)

From Stdlib Require Import ZArith NArith Lia Ascii String List.
From stdpp Require Import base tactics option list sorting gmap fin_maps strings.

Local Open Scope string_scope.
Local Open Scope Z_scope.

(** ** PostgreSQL helpers *)

Module Pg.

(** Outcome of a PL/pgSQL call: a value, or a raised exception. *)
Inductive result (A : Type) : Type :=
| Ok (a : A)
| Raise (message : string).
Arguments Ok {A} a.
Arguments Raise {A} message.

#[global] Instance result_ret : MRet result := fun A a => Ok a.
#[global] Instance result_bind : MBind result := fun A B k r =>
  match r with
  | Ok a => k a
  | Raise m => Raise m
  end.

Definition int4_min : Z := -2147483648.
Definition int4_max : Z := 2147483647.

(** [integer + integer]: "integer out of range" beyond 32 bits. *)
Definition int4_add (a b : Z) : result Z :=
  let s := a + b in
  if bool_decide (int4_min ≤ s ≤ int4_max) then Ok s
  else Raise "integer out of range".

(** Microseconds per second. *)
Definition usec : Z := 1000000.

(** [make_interval(secs => n)], in microseconds. *)
Definition make_interval_secs (n : Z) : Z := n * usec.

(** [ceil(extract(epoch from iv))] of an interval given in microseconds. *)
Definition ceil_epoch (iv : Z) : Z := - ((- iv) / usec).

(** [trim(text)]: strips spaces (and only spaces) at both ends. *)
Fixpoint ltrim (s : string) : string :=
  match s with
  | String " " s' => ltrim s'
  | _ => s
  end.

Fixpoint rtrim (s : string) : string :=
  match s with
  | EmptyString => EmptyString
  | String c s' =>
      match rtrim s' with
      | EmptyString => if bool_decide (c = " "%char) then "" else String c ""
      | t => String c t
      end
  end.

Definition trim (s : string) : string := rtrim (ltrim s).

End Pg.

Import Pg.

(** ** Rate-limit store: migrations 0006 and 0009 *)

Module RateLimitStore.

(** A row of [public.rate_limit_buckets], keyed by [bucket_key]. *)
Record bucket : Type := {
  window_started_at : Z;
  window_seconds : Z;
  request_count : Z;
  window_ends_at : Z;
  expires_at : Z;
  updated_at : Z
}.

(** The row [rate_limit_consume] returns. *)
Record consume_row : Type := {
  allowed : bool;
  remaining : Z;
  retry_after_seconds : Z;
  out_window_ends_at : Z
}.

Abbreviation table := (gmap string bucket).

(** [order by expires_at asc] *)
Definition expires_le (a b : string * bucket) : Prop :=
  expires_at a.2 ≤ expires_at b.2.

#[global] Instance expires_le_dec a b : Decision (expires_le a b) :=
  decide (expires_at a.2 ≤ expires_at b.2).

(** The CTE [expired] of [rate_limit_cleanup_expired]. *)
Definition expired_rows (now : Z) (v_limit : Z) (tbl : table)
  : list (string * bucket) :=
  take (Z.to_nat v_limit)
    (merge_sort expires_le
       (filter (fun kb => expires_at kb.2 < now) (map_to_list tbl))).

(** [public.rate_limit_cleanup_expired(p_max_rows)]: the table after the
    delete, and the number of deleted rows. *)
Definition rate_limit_cleanup_expired (now : Z) (p_max_rows : option Z)
    (tbl : table) : table * Z :=
  let v_limit := Z.max 1 (Z.min (default 500 p_max_rows) 5000) in
  let expired := expired_rows now v_limit tbl in
  (foldr (fun e t => delete e.1 t) tbl expired, Z.of_nat (length expired)).

(** The declarations of [rate_limit_consume] that do not touch the table. *)
Record frame : Type := {
  v_key : string;
  v_now : Z;
  v_window_seconds : Z;
  v_max_requests : Z;
  v_window_started_at : Z;
  v_window_ends_at : Z;
  v_expires_at : Z
}.

Definition declare (now : Z) (p_bucket_key : option string)
    (p_max_requests p_window_seconds : option Z) : result frame :=
  let key := trim (default "" p_bucket_key) in
  let ws := Z.max 1 (Z.min (default 1 p_window_seconds) 86400) in
  let mx := Z.max 1 (Z.min (default 1 p_max_requests) 100000) in
  if bool_decide (key = "") then
    Raise "rate_limit_consume requires a non-empty key"
  else
    (* to_timestamp(floor(extract(epoch from v_now) / ws) * ws) *)
    let started := (now / (usec * ws)) * ws * usec in
    let ends := started + make_interval_secs ws in
    Ok {| v_key := key; v_now := now;
          v_window_seconds := ws; v_max_requests := mx;
          v_window_started_at := started;
          v_window_ends_at := ends;
          v_expires_at := ends + make_interval_secs (Z.max ws 600) |}.

(** The statement [insert ... on conflict (bucket_key) do update ...
    returning rl.request_count, rl.window_ends_at]. *)
Definition upsert (f : frame) (tbl : table) : result (table * (Z * Z)) :=
  count ←
    match tbl !! v_key f with
    | None => Ok 1
    | Some rl =>
        if bool_decide (window_started_at rl = v_window_started_at f)
           && bool_decide (window_seconds rl = v_window_seconds f)
        then int4_add (request_count rl) 1
        else Ok 1
    end;
  let row := {| window_started_at := v_window_started_at f;
                window_seconds := v_window_seconds f;
                request_count := count;
                window_ends_at := v_window_ends_at f;
                expires_at := v_expires_at f;
                updated_at := v_now f |} in
  Ok (<[v_key f := row]> tbl, (request_count row, window_ends_at row)).

(** [if random() < 0.02 then perform rate_limit_cleanup_expired(200)];
    [rnd] is the outcome of the comparison. *)
Definition maybe_cleanup (rnd : bool) (now : Z) (tbl : table) : table :=
  if rnd then (rate_limit_cleanup_expired now (Some 200) tbl).1 else tbl.

(** The assignments to the output columns. *)
Definition output (f : frame) (v_request_count v_ends : Z) : consume_row :=
  let ok := v_request_count <=? v_max_requests f in
  {| allowed := ok;
     remaining := Z.max (v_max_requests f - v_request_count) 0;
     retry_after_seconds :=
       if ok then 0 else Z.max 1 (ceil_epoch (v_ends - v_now f));
     out_window_ends_at := v_ends |}.

(** [public.rate_limit_consume(p_bucket_key, p_max_requests,
    p_window_seconds)] at transaction time [now]. *)
Definition rate_limit_consume (rnd : bool) (now : Z)
    (p_bucket_key : option string)
    (p_max_requests p_window_seconds : option Z)
    (tbl : table) : result (table * consume_row) :=
  f ← declare now p_bucket_key p_max_requests p_window_seconds;
  '(tbl1, (v_request_count, v_ends)) ← upsert f tbl;
  let tbl2 := maybe_cleanup rnd now tbl1 in
  Ok (tbl2, output f v_request_count v_ends).

(** Specification-level helper for the statements below. *)

(** The count the upsert stores: one more than the stored count when the
    stored row is of the incoming window, one otherwise. *)
Definition next_count (f : frame) (tbl : table) : Z :=
  match tbl !! v_key f with
  | Some rl =>
      if bool_decide (window_started_at rl = v_window_started_at f
                      ∧ window_seconds rl = v_window_seconds f)
      then request_count rl + 1
      else 1
  | None => 1
  end.

End RateLimitStore.

(** ** Concurrent callers of [rate_limit_consume]

    Each call runs in its own transaction.  Its only accesses to the shared
    table are the upsert statement and, after it, the optional cleanup; each
    is a single SQL statement and is taken as one atomic step.  A concurrent
    execution is an interleaving of these steps. *)

Module ConcurrentConsume.
Import RateLimitStore.

(** The arguments of one call, its transaction time and its [random()]
    draw. *)
Record call : Type := {
  c_rnd : bool;
  c_now : Z;
  c_key : option string;
  c_max : option Z;
  c_ws : option Z
}.

(** Where a call stands. *)
Inductive session : Type :=
| Pending (c : call)
| Upserted (c : call) (f : frame) (v_request_count v_ends : Z)
| Finished (c : call) (v_request_count : Z) (row : consume_row)
| Failed (c : call) (message : string).

Definition session_call (s : session) : call :=
  match s with
  | Pending c | Upserted c _ _ _ | Finished c _ _ | Failed c _ => c
  end.

(** The value the call read into [v_request_count], once it has. *)
Definition observed (s : session) : option Z :=
  match s with
  | Upserted _ _ n _ | Finished _ n _ => Some n
  | Pending _ | Failed _ _ => None
  end.

Definition done (s : session) : bool :=
  match s with
  | Finished _ _ _ | Failed _ _ => true
  | Pending _ | Upserted _ _ _ _ => false
  end.

Definition finished (s : session) : bool :=
  match s with
  | Finished _ _ _ => true
  | _ => false
  end.

Definition all_done (ss : list session) : Prop := Forall (fun s => done s = true) ss.

Abbreviation config := (gmap string bucket * list session)%type.

Inductive step : config → config → Prop :=
| step_declare_raise i c message tbl ss :
    ss !! i = Some (Pending c) →
    declare (c_now c) (c_key c) (c_max c) (c_ws c) = Raise message →
    step (tbl, ss) (tbl, <[i := Failed c message]> ss)
| step_upsert i c f tbl tbl' n e ss :
    ss !! i = Some (Pending c) →
    declare (c_now c) (c_key c) (c_max c) (c_ws c) = Ok f →
    upsert f tbl = Ok (tbl', (n, e)) →
    step (tbl, ss) (tbl', <[i := Upserted c f n e]> ss)
| step_upsert_raise i c f message tbl ss :
    ss !! i = Some (Pending c) →
    declare (c_now c) (c_key c) (c_max c) (c_ws c) = Ok f →
    upsert f tbl = Raise message →
    step (tbl, ss) (tbl, <[i := Failed c message]> ss)
| step_finish i c f n e tbl ss :
    ss !! i = Some (Upserted c f n e) →
    step (tbl, ss)
         (maybe_cleanup (c_rnd c) (c_now c) tbl,
          <[i := Finished c n (output f n e)]> ss).

(** Steps a session still has to take. *)
Definition weight (s : session) : nat :=
  match s with
  | Pending _ => 2
  | Upserted _ _ _ _ => 1
  | Finished _ _ _ | Failed _ _ => 0
  end.

(** The count of the stored row when it is of the window [(started, ws)],
    zero when there is no such row. *)
Definition base_count (tbl : gmap string bucket) (k : string) (started ws : Z) : Z :=
  match tbl !! k with
  | Some rl =>
      if bool_decide (window_started_at rl = started ∧ window_seconds rl = ws)
      then request_count rl else 0
  | None => 0
  end.

(** The calls address the key [k] in the aligned window [(started, ws)]. *)
Definition same_window (k : string) (started ws : Z) (c : call) : Prop :=
  trim (default "" (c_key c)) = k ∧
  Z.max 1 (Z.min (default 1 (c_ws c)) 86400) = ws ∧
  c_now c / (usec * ws) * ws * usec = started.

(** What every configuration reached from [calls] pending on the table
    [tbl0] satisfies, the calls being in the window [(started, ws)] of the
    key [k]. *)
Record inv (k : string) (started ws : Z) (calls : list call)
    (tbl0 : gmap string bucket) (cfg : config) : Prop := {
  inv_calls : session_call <$> cfg.2 = calls;
  inv_no_failure : Forall (fun s => ∀ c m, s ≠ Failed c m) cfg.2;
  inv_observed :
    omap observed cfg.2 ≡ₚ
    (fun j => base_count tbl0 k started ws + Z.of_nat j)
      <$> seq 1 (length (omap observed cfg.2));
  inv_untouched : omap observed cfg.2 = [] → cfg.1 = tbl0;
  inv_row : omap observed cfg.2 ≠ [] →
    ∃ b, cfg.1 !! k = Some b ∧
         window_started_at b = started ∧ window_seconds b = ws ∧
         request_count b
         = base_count tbl0 k started ws
           + Z.of_nat (length (omap observed cfg.2)) ∧
         started + ws * usec ≤ expires_at b
}.
Arguments inv_calls {_ _ _ _ _} _ _.
Arguments inv_no_failure {_ _ _ _ _} _ _.
Arguments inv_observed {_ _ _ _ _} _ _.
Arguments inv_untouched {_ _ _ _ _} _ _.
Arguments inv_row {_ _ _ _ _} _ _.

End ConcurrentConsume.

(** ** Rate limiter: src/lib/security/rate-limit.ts

    JavaScript strings are modelled as sequences of code units below 256 and
    the numbers of a rule as integers.  The Supabase client, the process
    environment and the SHA-256 digest are the parameters of the section. *)

Module RateLimiter.

Definition code (c : ascii) : N := N_of_ascii c.

Definition between (lo hi c : ascii) : bool :=
  ((code lo <=? code c) && (code c <=? code hi))%N.

(** White space of [String.prototype.trim], below code 256. *)
Definition is_js_space (c : ascii) : bool :=
  between "009" "013" c || bool_decide (c = " "%char) || bool_decide (c = "160"%char).

Fixpoint trimStart (s : string) : string :=
  match s with
  | String c s' => if is_js_space c then trimStart s' else s
  | EmptyString => EmptyString
  end.

Fixpoint trimEnd (s : string) : string :=
  match s with
  | EmptyString => EmptyString
  | String c s' =>
      match trimEnd s' with
      | EmptyString => if is_js_space c then "" else String c ""
      | t => String c t
      end
  end.

Definition js_trim (s : string) : string := trimEnd (trimStart s).

Fixpoint string_map (f : ascii → ascii) (s : string) : string :=
  match s with
  | String c s' => String (f c) (string_map f s')
  | EmptyString => EmptyString
  end.

Definition lower_char (c : ascii) : ascii :=
  if between "A" "Z" c
     || (between "192" "222" c && negb (bool_decide (c = "215"%char)))
  then ascii_of_N (code c + 32)
  else c.

Definition toLowerCase (s : string) : string := string_map lower_char s.

(** [replace(/[^a-z0-9:._-]/g, "_")] *)
Definition is_key_char (c : ascii) : bool :=
  between "a" "z" c || between "0" "9" c
  || bool_decide (c = ":"%char) || bool_decide (c = "."%char)
  || bool_decide (c = "_"%char) || bool_decide (c = "-"%char).

Definition replace_unsafe (s : string) : string :=
  string_map (fun c => if is_key_char c then c else "_"%char) s.

(** [s.slice(0, n)] *)
Fixpoint slice0 (n : nat) (s : string) : string :=
  match n, s with
  | S n', String c s' => String c (slice0 n' s')
  | _, _ => EmptyString
  end.

Record RateLimitRule : Type := {
  maxRequests : Z;
  windowMs : Z
}.

Record DurableRateLimitTarget : Type := {
  scope : string;
  identifier : string;
  rule : RateLimitRule;
  hashIdentifier : option bool
}.

Record EnforceDurableRateLimitOptions : Type := {
  action : string;
  targets : list DurableRateLimitTarget
}.

(** A row object of the RPC reply before validation: a field that is
    absent, null or of the wrong type is [None]. *)
Record candidate : Type := {
  cand_allowed : option bool;
  cand_remaining : option Z;
  cand_retry_after_seconds : option Z;
  cand_window_ends_at : option string
}.

Record ConsumeResultRow : Type := {
  allowed : bool;
  remaining : Z;
  retry_after_seconds : Z;
  window_ends_at : string
}.

Record ConsumeResult : Type := {
  res_allowed : bool;
  retryAfterSeconds : Z
}.

(** The [{ data, error }] pair [client.rpc] resolves to. *)
Inductive rpc_response : Type :=
| RpcError (message : string)
| RpcData (data : list candidate).

(** What the module throws: a plain [Error], or its own subclass. *)
Inductive js_error : Type :=
| Error (message : string)
| RateLimitExceededError (retryAfterSeconds : Z).

(** The constructor of [RateLimitExceededError]. *)
Definition new_RateLimitExceededError (retryAfterSeconds : Z) : js_error :=
  RateLimitExceededError (Z.max 1 retryAfterSeconds).

Definition normalizeRule (r : RateLimitRule) : Z * Z :=
  let maxRequests := Z.max 1 (maxRequests r) in
  let windowMs := Z.max 1000 (windowMs r) in
  (maxRequests, Z.max 1 (windowMs / 1000)).

Definition normalizeKeyPart (value fallback : string) : string :=
  let normalized := replace_unsafe (toLowerCase (js_trim value)) in
  if (0 <? String.length normalized)%nat then slice0 160 normalized
  else fallback.

Definition asConsumeRow (data : list candidate) : option ConsumeResultRow :=
  match head data with
  | None => None
  | Some candidate =>
      match cand_allowed candidate with
      | None => None
      | Some a =>
          Some {| allowed := a;
                  remaining := default 0 (cand_remaining candidate);
                  retry_after_seconds :=
                    default 0 (cand_retry_after_seconds candidate);
                  window_ends_at :=
                    default "" (cand_window_ends_at candidate) |}
      end
  end.

(** First rejection of a list of settled promises, else all the values. *)
Fixpoint promise_all {A} (settled : list (js_error + A)) : js_error + list A :=
  match settled with
  | [] => inr []
  | inl e :: _ => inl e
  | inr a :: rest =>
      match promise_all rest with
      | inl e => inl e
      | inr l => inr (a :: l)
      end
  end.

Section limiter.
Context {World : Type}.
(** [client.rpc("rate_limit_consume", { p_bucket_key, p_max_requests,
    p_window_seconds })] *)
Variable rpc : string → Z → Z → World → World * rpc_response.
(** [process.env.NODE_ENV === "production"] *)
Variable production : bool.
(** [SUPABASE_URL] and [SUPABASE_SERVICE_ROLE_KEY] are set. *)
Variable service_env : bool.
(** [createHash("sha256").update(s).digest("hex")] *)
Variable sha256_hex : string → string.

Definition toHashedKeyPart (value : string) : string :=
  let normalized := toLowerCase (js_trim value) in
  if bool_decide (normalized = "") then "unknown"
  else slice0 48 (sha256_hex normalized).

(** [consumeBucket] after the [await]: what it makes of the reply. *)
Definition consumeReply (reply : rpc_response) : js_error + ConsumeResult :=
  match reply with
  | RpcError message =>
      let baseMessage := "Rate-limit backend unavailable." in
      if negb production then
        let detail :=
          if bool_decide (message = "") then "" else " " +:+ message in
        inl (Error (js_trim (baseMessage +:+ detail)))
      else inl (Error baseMessage)
  | RpcData data =>
      match asConsumeRow data with
      | None => inl (Error "Invalid rate-limit backend response.")
      | Some row =>
          inr {| res_allowed := allowed row;
                 retryAfterSeconds := Z.max 0 (retry_after_seconds row) |}
      end
  end.

Definition consumeBucket (bucketKey : string) (rule : RateLimitRule)
    (w : World) : World * (js_error + ConsumeResult) :=
  if negb service_env then
    (w, inl (Error "Missing SUPABASE_URL and/or SUPABASE_SERVICE_ROLE_KEY."))
  else
    let normalizedRule := normalizeRule rule in
    let '(w', reply) := rpc bucketKey normalizedRule.1 normalizedRule.2 w in
    (w', consumeReply reply).

(** The calls of [targets.map(...)], started in list order. *)
Fixpoint start_all {A} (calls : list (World → World * A)) (w : World)
  : World * list A :=
  match calls with
  | [] => (w, [])
  | call :: rest =>
      let '(w1, a) := call w in
      let '(w2, l) := start_all rest w1 in
      (w2, a :: l)
  end.

(** The object the first [map] of [enforceDurableRateLimit] makes of a
    target. *)
Definition normalizeTarget (target : DurableRateLimitTarget)
  : DurableRateLimitTarget :=
  {| scope := normalizeKeyPart (scope target) "scope";
     identifier :=
       if default false (hashIdentifier target)
       then toHashedKeyPart (identifier target)
       else normalizeKeyPart (identifier target) "unknown";
     rule := rule target;
     hashIdentifier := None |}.

Definition enforceDurableRateLimit (options : EnforceDurableRateLimitOptions)
    (w : World) : World * (js_error + unit) :=
  let action := normalizeKeyPart (action options) "action" in
  let targets :=
    filter (fun target => (0 < String.length (identifier target))%nat)
      (normalizeTarget <$> targets options) in
  if (length targets =? 0)%nat then (w, inr tt)
  else
    let '(w', settled) :=
      start_all
        ((fun target =>
            consumeBucket
              ("rl:" +:+ action +:+ ":" +:+ scope target +:+ ":"
               +:+ identifier target)
              (rule target))
           <$> targets) w in
    match promise_all settled with
    | inl e => (w', inl e)
    | inr results =>
        let blocked := filter (fun result => res_allowed result = false) results in
        if (length blocked =? 0)%nat then (w', inr tt)
        else
          let retryAfterSeconds :=
            fold_left
              (fun maxSeconds result =>
                 Z.max maxSeconds (retryAfterSeconds result))
              blocked 1 in
          (w', inl (new_RateLimitExceededError retryAfterSeconds))
    end.

(** Specification-level helpers: the arguments the limiter sends for one
    target, and the replies to a list of requests issued in order. *)
Definition target_request (act : string) (target : DurableRateLimitTarget)
  : string * Z * Z :=
  let id :=
    if default false (hashIdentifier target)
    then toHashedKeyPart (identifier target)
    else normalizeKeyPart (identifier target) "unknown" in
  ("rl:" +:+ normalizeKeyPart act "action" +:+ ":"
   +:+ normalizeKeyPart (scope target) "scope" +:+ ":" +:+ id,
   (normalizeRule (rule target)).1, (normalizeRule (rule target)).2).

Fixpoint issue (requests : list (string * Z * Z)) (w : World)
  : World * list rpc_response :=
  match requests with
  | [] => (w, [])
  | (key, mx, ws) :: rest =>
      let '(w1, reply) := rpc key mx ws w in
      let '(w2, replies) := issue rest w1 in
      (w2, reply :: replies)
  end.

End limiter.

(** The store behind the RPC: [rate_limit_consume] run on the bucket table
    at transaction time [now], its row returned as JSON ([ends_text] is the
    rendering of [window_ends_at]); an exception, or a number that does not
    fit an [integer] parameter, comes back as an error and leaves the table
    as it was. *)
Definition to_candidate (ends_text : string)
    (row : RateLimitStore.consume_row) : candidate :=
  {| cand_allowed := Some (RateLimitStore.allowed row);
     cand_remaining := Some (RateLimitStore.remaining row);
     cand_retry_after_seconds := Some (RateLimitStore.retry_after_seconds row);
     cand_window_ends_at := Some ends_text |}.

(** A number of the request bound to an [integer] parameter of the
    function: beyond 32 bits the call fails before the function runs.  The
    text of the platform's error is not in the repository; the limiter
    passes it on outside production only. *)
Definition int4_param (v : Z) : result Z :=
  if bool_decide (int4_min ≤ v ≤ int4_max) then Ok v
  else Raise "value out of range for type integer".

Definition sql_rpc (rnd : bool) (now : Z) (ends_text : string)
    (key : string) (mx ws : Z) (tbl : gmap string RateLimitStore.bucket)
  : gmap string RateLimitStore.bucket * rpc_response :=
  match
    p_max_requests ← int4_param mx;
    p_window_seconds ← int4_param ws;
    RateLimitStore.rate_limit_consume rnd now (Some key)
      (Some p_max_requests) (Some p_window_seconds) tbl
  with
  | Ok (tbl', row) => (tbl', RpcData [to_candidate ends_text row])
  | Raise message => (tbl, RpcError message)
  end.

(** [reply] carries the row [row] that some call of [rate_limit_consume]
    returned. *)
Definition reports (reply : rpc_response) (row : RateLimitStore.consume_row)
  : Prop :=
  (∃ ends_text, reply = RpcData [to_candidate ends_text row]) ∧
  ∃ rnd now key mx ws tbl tbl',
    RateLimitStore.rate_limit_consume rnd now key mx ws tbl = Ok (tbl', row).

(** The [ConsumeResult] that [consumeBucket] makes of a reported row. *)
Definition to_result (row : RateLimitStore.consume_row) : ConsumeResult :=
  {| res_allowed := RateLimitStore.allowed row;
     retryAfterSeconds := Z.max 0 (RateLimitStore.retry_after_seconds row) |}.

End RateLimiter.

(** ** Schema: migration 0001

    Columns that no policy, view or function below reads or writes (names,
    captions, notes and the like) are left out of the rows. *)

Module Schema.

Definition uuid : Type := N.

Module Profile.
Record row : Type := {
  username : option string;
  avatar_image_path : option string
}.
End Profile.

Module Vehicle.
Record row : Type := {
  profile_id : uuid;
  hero_image_path : option string;
  is_public : bool;
  sort_order : Z;
  created_at : Z;
  updated_at : Z
}.
End Vehicle.

Module Mod.
Record row : Type := {
  vehicle_id : uuid;
  sort_order : Z;
  created_at : Z;
  updated_at : Z
}.
End Mod.

Module Image.
Record row : Type := {
  profile_id : uuid;
  vehicle_id : option uuid;
  mod_id : option uuid;
  storage_bucket : string;
  storage_path : string
}.
End Image.

(** The four tables, each keyed by its [id]. *)
Record db : Type := {
  profiles : gmap uuid Profile.row;
  vehicles : gmap uuid Vehicle.row;
  mods : gmap uuid Mod.row;
  images : gmap uuid Image.row
}.

(** [constraint images_exactly_one_parent] *)
Definition images_exactly_one_parent (i : Image.row) : bool :=
  match Image.vehicle_id i, Image.mod_id i with
  | Some _, None | None, Some _ => true
  | _, _ => false
  end.

(** [constraint images_storage_path_not_blank]: [btrim(storage_path) <> ''] *)
Definition images_storage_path_not_blank (i : Image.row) : bool :=
  negb (bool_decide (trim (Image.storage_path i) = "")).

(** Who runs a statement: the database role and [auth.uid()]. *)
Inductive role : Type :=
| Anon
| Authenticated (uid : option uuid).

Definition auth_uid (r : role) : option uuid :=
  match r with
  | Anon => None
  | Authenticated uid => uid
  end.

Definition is_authenticated (r : role) : bool :=
  match r with
  | Anon => false
  | Authenticated _ => true
  end.

End Schema.

(** ** Row-level security: the policies of migration 0001

    A policy is a boolean function of the row.  Its sub-queries read the
    other tables as the caller sees them, that is, through the [select]
    policies of those tables; [visible_*] are the tables so filtered.  The
    policies [to authenticated] apply to the role [Authenticated] only, and
    a comparison with a NULL [auth.uid()] does not hold. *)

Module Policies.
Import Schema.

(** [auth.uid() = id] *)
Definition uid_is (r : role) (id : uuid) : bool :=
  bool_decide (auth_uid r = Some id).

Definition profiles_owner (r : role) (id : uuid) : bool := uid_is r id.

Definition profiles_public_select (p : Profile.row) : bool :=
  bool_decide (is_Some (Profile.username p)).

Definition visible_profiles (r : role) (d : db) : gmap uuid Profile.row :=
  filter (fun kv => (is_authenticated r && profiles_owner r kv.1)
                    || profiles_public_select kv.2 = true)
    (profiles d).

(** [exists (select 1 from profiles p where p.id = vehicles.profile_id and
    p.id = auth.uid())]: the [using] and [with check] expression of the four
    [vehicles_owner_*] policies. *)
Definition vehicles_owner (r : role) (d : db) (v : Vehicle.row) : bool :=
  match visible_profiles r d !! Vehicle.profile_id v with
  | Some _ => uid_is r (Vehicle.profile_id v)
  | None => false
  end.

Definition vehicles_public_select (r : role) (d : db) (v : Vehicle.row) : bool :=
  Vehicle.is_public v
  && match visible_profiles r d !! Vehicle.profile_id v with
     | Some p => bool_decide (is_Some (Profile.username p))
     | None => false
     end.

Definition visible_vehicles (r : role) (d : db) : gmap uuid Vehicle.row :=
  filter (fun kv => (is_authenticated r && vehicles_owner r d kv.2)
                    || vehicles_public_select r d kv.2 = true)
    (vehicles d).

(** [exists (select 1 from vehicles v join profiles p on p.id = v.profile_id
    where v.id = mods.vehicle_id and p.id = auth.uid())] *)
Definition mods_owner (r : role) (d : db) (m : Mod.row) : bool :=
  match visible_vehicles r d !! Mod.vehicle_id m with
  | Some v =>
      match visible_profiles r d !! Vehicle.profile_id v with
      | Some _ => uid_is r (Vehicle.profile_id v)
      | None => false
      end
  | None => false
  end.

Definition mods_public_select (r : role) (d : db) (m : Mod.row) : bool :=
  match visible_vehicles r d !! Mod.vehicle_id m with
  | Some v =>
      match visible_profiles r d !! Vehicle.profile_id v with
      | Some p => Vehicle.is_public v && bool_decide (is_Some (Profile.username p))
      | None => false
      end
  | None => false
  end.

Definition visible_mods (r : role) (d : db) : gmap uuid Mod.row :=
  filter (fun kv => (is_authenticated r && mods_owner r d kv.2)
                    || mods_public_select r d kv.2 = true)
    (mods d).

(** The expression shared by [images_owner_select], [images_owner_insert]
    ([with check]), [images_owner_update] ([using] and [with check]) and
    [images_owner_delete]. *)
Definition images_owner (r : role) (d : db) (i : Image.row) : bool :=
  uid_is r (Image.profile_id i)
  && (match Image.vehicle_id i with
      | Some vid =>
          match visible_vehicles r d !! vid with
          | Some v => uid_is r (Vehicle.profile_id v)
          | None => false
          end
      | None => false
      end
      ||
      match Image.mod_id i with
      | Some mid =>
          match visible_mods r d !! mid with
          | Some m =>
              match visible_vehicles r d !! Mod.vehicle_id m with
              | Some v => uid_is r (Vehicle.profile_id v)
              | None => false
              end
          | None => false
          end
      | None => false
      end).

Definition images_public_select (r : role) (d : db) (i : Image.row) : bool :=
  match Image.vehicle_id i with
  | Some vid =>
      match visible_vehicles r d !! vid with
      | Some v =>
          match visible_profiles r d !! Vehicle.profile_id v with
          | Some p =>
              Vehicle.is_public v && bool_decide (is_Some (Profile.username p))
          | None => false
          end
      | None => false
      end
  | None => false
  end
  ||
  match Image.mod_id i with
  | Some mid =>
      match visible_mods r d !! mid with
      | Some m =>
          match visible_vehicles r d !! Mod.vehicle_id m with
          | Some v =>
              match visible_profiles r d !! Vehicle.profile_id v with
              | Some p =>
                  Vehicle.is_public v
                  && bool_decide (is_Some (Profile.username p))
              | None => false
              end
          | None => false
          end
      | None => false
      end
  | None => false
  end.

Definition visible_images (r : role) (d : db) : gmap uuid Image.row :=
  filter (fun kv => (is_authenticated r && images_owner r d kv.2)
                    || images_public_select r d kv.2 = true)
    (images d).

End Policies.

(** ** Public views: migration 0003

    The views are [security_invoker]: they read the tables as the caller
    sees them.  A view is given as the rows of its table that it shows; the
    projection to the listed columns is left out. *)

Module PublicViews.
Import Schema Policies.

Definition public_profiles (r : role) (d : db) : gmap uuid Profile.row :=
  filter (fun kv => is_Some (Profile.username kv.2)) (visible_profiles r d).

Definition public_vehicles (r : role) (d : db) : gmap uuid Vehicle.row :=
  filter (fun kv =>
            Vehicle.is_public kv.2
            && match visible_profiles r d !! Vehicle.profile_id kv.2 with
               | Some p => bool_decide (is_Some (Profile.username p))
               | None => false
               end = true)
    (visible_vehicles r d).

Definition public_mods (r : role) (d : db) : gmap uuid Mod.row :=
  filter (fun kv =>
            match visible_vehicles r d !! Mod.vehicle_id kv.2 with
            | Some v =>
                match visible_profiles r d !! Vehicle.profile_id v with
                | Some p =>
                    Vehicle.is_public v
                    && bool_decide (is_Some (Profile.username p))
                | None => false
                end
            | None => false
            end = true)
    (visible_mods r d).

Definition public_images (r : role) (d : db) : gmap uuid Image.row :=
  filter (fun kv =>
            match Image.vehicle_id kv.2 with
            | Some vid =>
                match visible_vehicles r d !! vid with
                | Some v =>
                    match visible_profiles r d !! Vehicle.profile_id v with
                    | Some p =>
                        Vehicle.is_public v
                        && bool_decide (is_Some (Profile.username p))
                    | None => false
                    end
                | None => false
                end
            | None => false
            end
            ||
            match Image.mod_id kv.2 with
            | Some mid =>
                match visible_mods r d !! mid with
                | Some m =>
                    match visible_vehicles r d !! Mod.vehicle_id m with
                    | Some v =>
                        match visible_profiles r d !! Vehicle.profile_id v with
                        | Some p =>
                            Vehicle.is_public v
                            && bool_decide (is_Some (Profile.username p))
                        | None => false
                        end
                    | None => false
                    end
                | None => false
                end
            | None => false
            end = true)
    (visible_images r d).

(** [update vehicles set is_public = b where id = vid], seen from the
    tables. *)
Definition set_is_public (vid : uuid) (b : bool) (now : Z) (d : db) : db :=
  {| profiles := profiles d;
     vehicles :=
       alter (fun v =>
                {| Vehicle.profile_id := Vehicle.profile_id v;
                   Vehicle.hero_image_path := Vehicle.hero_image_path v;
                   Vehicle.is_public := b;
                   Vehicle.sort_order := Vehicle.sort_order v;
                   Vehicle.created_at := Vehicle.created_at v;
                   Vehicle.updated_at := now |})
         vid (vehicles d);
     mods := mods d;
     images := images d |}.

(** The public predicates of the specification, on the stored tables. *)
Definition published (d : db) (pid : uuid) : Prop :=
  ∃ p, profiles d !! pid = Some p ∧ is_Some (Profile.username p).

Definition vehicle_public (d : db) (v : Vehicle.row) : Prop :=
  Vehicle.is_public v = true ∧ published d (Vehicle.profile_id v).

Definition mod_public (d : db) (m : Mod.row) : Prop :=
  ∃ v, vehicles d !! Mod.vehicle_id m = Some v ∧ vehicle_public d v.

Definition image_public (d : db) (i : Image.row) : Prop :=
  (∃ vid v, Image.vehicle_id i = Some vid ∧
            vehicles d !! vid = Some v ∧ vehicle_public d v) ∨
  (∃ mid m, Image.mod_id i = Some mid ∧
            mods d !! mid = Some m ∧ mod_public d m).

End PublicViews.

(** ** Writes through the data layer

    What one [insert], [update] or [delete] statement of a caller does to
    the tables: the primary key, the foreign keys with their cascades, the
    check constraints and the row-level policies of the caller's role decide
    whether rows are written.  An [update] names the row by its [id] and
    gives the new contents of its other columns (after the [set_updated_at]
    trigger); the primary key itself is not rewritten.  [None] is a
    statement that fails or writes no row. *)

Module DataLayer.
Import Schema Policies.

Inductive write : Type :=
| InsertProfile (id : uuid) (p : Profile.row)
| UpdateProfile (id : uuid) (p : Profile.row)
| DeleteProfile (id : uuid)
| InsertVehicle (id : uuid) (v : Vehicle.row)
| UpdateVehicle (id : uuid) (v : Vehicle.row)
| DeleteVehicle (id : uuid)
| InsertMod (id : uuid) (m : Mod.row)
| UpdateMod (id : uuid) (m : Mod.row)
| DeleteMod (id : uuid)
| InsertImage (id : uuid) (i : Image.row)
| UpdateImage (id : uuid) (i : Image.row)
| DeleteImage (id : uuid).

Definition has {A} (t : gmap uuid A) (id : uuid) : bool :=
  bool_decide (is_Some (t !! id)).

(** Foreign keys of a row. *)
Definition vehicle_fk (d : db) (v : Vehicle.row) : bool :=
  has (profiles d) (Vehicle.profile_id v).

Definition mod_fk (d : db) (m : Mod.row) : bool :=
  has (vehicles d) (Mod.vehicle_id m).

Definition image_fk (d : db) (i : Image.row) : bool :=
  has (profiles d) (Image.profile_id i)
  && from_option (has (vehicles d)) true (Image.vehicle_id i)
  && from_option (has (mods d)) true (Image.mod_id i).

Definition image_checks (i : Image.row) : bool :=
  images_exactly_one_parent i && images_storage_path_not_blank i.

(** [on delete cascade] from a set of vehicles: their mods, and the images
    linked to them or to their mods. *)
Definition cascade_vehicles (gone : uuid → Vehicle.row → bool) (d : db) : db :=
  let vehicle_gone vid :=
    match vehicles d !! vid with
    | Some v => gone vid v
    | None => false
    end in
  let mod_gone mid :=
    match mods d !! mid with
    | Some m => vehicle_gone (Mod.vehicle_id m)
    | None => false
    end in
  {| profiles := profiles d;
     vehicles := filter (fun kv => gone kv.1 kv.2 = false) (vehicles d);
     mods := filter (fun kv => vehicle_gone (Mod.vehicle_id kv.2) = false) (mods d);
     images :=
       filter (fun kv =>
                 from_option vehicle_gone false (Image.vehicle_id kv.2)
                 || from_option mod_gone false (Image.mod_id kv.2) = false)
         (images d) |}.

Definition set_profiles (t : gmap uuid Profile.row) (d : db) : db :=
  {| profiles := t; vehicles := vehicles d; mods := mods d; images := images d |}.
Definition set_vehicles (t : gmap uuid Vehicle.row) (d : db) : db :=
  {| profiles := profiles d; vehicles := t; mods := mods d; images := images d |}.
Definition set_mods (t : gmap uuid Mod.row) (d : db) : db :=
  {| profiles := profiles d; vehicles := vehicles d; mods := t; images := images d |}.
Definition set_images (t : gmap uuid Image.row) (d : db) : db :=
  {| profiles := profiles d; vehicles := vehicles d; mods := mods d; images := t |}.

Definition guard (b : bool) (d : db) : option db :=
  if b then Some d else None.

Definition apply_write (r : role) (w : write) (d : db) : option db :=
  if negb (is_authenticated r) then None
  else
    match w with
    | InsertProfile id p =>
        guard (negb (has (profiles d) id) && profiles_owner r id)
          (set_profiles (<[id := p]> (profiles d)) d)
    | UpdateProfile id p =>
        guard (has (profiles d) id && profiles_owner r id)
          (set_profiles (<[id := p]> (profiles d)) d)
    | DeleteProfile id =>
        guard (has (profiles d) id && profiles_owner r id)
          (let d1 := cascade_vehicles
                       (fun _ v => bool_decide (Vehicle.profile_id v = id)) d in
           set_images
             (filter (fun kv => Image.profile_id kv.2 ≠ id) (images d1))
             (set_profiles (delete id (profiles d1)) d1))
    | InsertVehicle id v =>
        guard (negb (has (vehicles d) id) && vehicle_fk d v
               && vehicles_owner r d v)
          (set_vehicles (<[id := v]> (vehicles d)) d)
    | UpdateVehicle id v =>
        match vehicles d !! id with
        | Some old =>
            guard (vehicles_owner r d old && vehicle_fk d v
                   && vehicles_owner r d v)
              (set_vehicles (<[id := v]> (vehicles d)) d)
        | None => None
        end
    | DeleteVehicle id =>
        match vehicles d !! id with
        | Some old =>
            guard (vehicles_owner r d old)
              (cascade_vehicles (fun vid _ => bool_decide (vid = id)) d)
        | None => None
        end
    | InsertMod id m =>
        guard (negb (has (mods d) id) && mod_fk d m && mods_owner r d m)
          (set_mods (<[id := m]> (mods d)) d)
    | UpdateMod id m =>
        match mods d !! id with
        | Some old =>
            guard (mods_owner r d old && mod_fk d m && mods_owner r d m)
              (set_mods (<[id := m]> (mods d)) d)
        | None => None
        end
    | DeleteMod id =>
        match mods d !! id with
        | Some old =>
            guard (mods_owner r d old)
              (set_images
                 (filter (fun kv => Image.mod_id kv.2 ≠ Some id) (images d))
                 (set_mods (delete id (mods d)) d))
        | None => None
        end
    | InsertImage id i =>
        guard (negb (has (images d) id) && image_fk d i && image_checks i
               && images_owner r d i)
          (set_images (<[id := i]> (images d)) d)
    | UpdateImage id i =>
        match images d !! id with
        | Some old =>
            guard (images_owner r d old && image_fk d i && image_checks i
                   && images_owner r d i)
              (set_images (<[id := i]> (images d)) d)
        | None => None
        end
    | DeleteImage id =>
        match images d !! id with
        | Some old =>
            guard (images_owner r d old)
              (set_images (delete id (images d)) d)
        | None => None
        end
    end.

Definition empty_db : db :=
  {| profiles := ∅; vehicles := ∅; mods := ∅; images := ∅ |}.

(** The states the tables can be in after any number of such statements,
    by any callers. *)
Inductive reachable : db → Prop :=
| reachable_empty : reachable empty_db
| reachable_write d r w d' :
    reachable d → apply_write r w d = Some d' → reachable d'.

(** The profile at the root of a vehicle's and of a mod's ownership. *)
Definition vehicle_root (d : db) (vid : uuid) : option uuid :=
  Vehicle.profile_id <$> vehicles d !! vid.

Definition mod_root (d : db) (mid : uuid) : option uuid :=
  m ← mods d !! mid; vehicle_root d (Mod.vehicle_id m).

(** The image has one parent, and the root owner of that parent is the
    image's [profile_id]. *)
Definition image_rooted (d : db) (i : Image.row) : Prop :=
  match Image.vehicle_id i, Image.mod_id i with
  | Some vid, None => vehicle_root d vid = Some (Image.profile_id i)
  | None, Some mid => mod_root d mid = Some (Image.profile_id i)
  | _, _ => False
  end.

(** The tables meet the ownership invariant. *)
Definition rooted (d : db) : Prop :=
  ∀ iid i, images d !! iid = Some i → image_rooted d i.

End DataLayer.

(** ** Storage path guard: migration 0008 *)

Module Storage.
Import Schema Policies.

(** [string_to_array(s, '/')] of a non-empty string. *)
Fixpoint split_slash (s : string) : list string :=
  match s with
  | EmptyString => [""]
  | String c s' =>
      if bool_decide (c = "/"%char) then "" :: split_slash s'
      else
        match split_slash s' with
        | seg :: rest => String c seg :: rest
        | [] => [String c ""]
        end
  end.

Definition string_to_array (s : string) : list string :=
  if bool_decide (s = "") then [] else split_slash s.

(** Modelled from the spec: [storage.foldername] and [storage.filename]
    are functions of the storage schema of the platform and are not in the
    repository.  A path [avatars/{identity}/file] has the folder parts
    [avatars] and [{identity}] and the file name [file]: the path is split
    at ['/'], the folder is all parts but the last, and the file name is the
    last part. *)
Definition foldername (name : string) : list string :=
  removelast (string_to_array name).

Definition filename (name : string) : option string :=
  last (string_to_array name).

(** [object_name ~ '//'] *)
Fixpoint has_double_slash (s : string) : bool :=
  match s with
  | EmptyString => false
  | String a s' =>
      match s' with
      | EmptyString => false
      | String b _ =>
          (bool_decide (a = "/"%char) && bool_decide (b = "/"%char))
          || has_double_slash s'
      end
  end.

(** [object_name ~ '(^|/)\.\.(/|$)']: two dots between a slash or the start
    and a slash or the end, that is, a part of the path that is [..]. *)
Definition has_dotdot_part (s : string) : bool :=
  bool_decide (".." ∈ split_slash s).

Definition hex_digit (n : N) : ascii :=
  nth (N.to_nat n)
    ["0"; "1"; "2"; "3"; "4"; "5"; "6"; "7"; "8"; "9";
     "a"; "b"; "c"; "d"; "e"; "f"]%char "0"%char.

(** The [digits] lowest hexadecimal digits of [n], most significant first. *)
Fixpoint hex_fixed (digits : nat) (n : N) : string :=
  match digits with
  | O => ""
  | S k => hex_fixed k (n / 16) +:+ String (hex_digit (n mod 16)) ""
  end.

(** [id::text] of a uuid: 8-4-4-4-12 lower-case hexadecimal digits. *)
Definition uuid_text (u : uuid) : string :=
  let h := hex_fixed 32 u in
  substring 0 8 h +:+ "-" +:+ substring 8 4 h +:+ "-" +:+ substring 12 4 h
  +:+ "-" +:+ substring 16 4 h +:+ "-" +:+ substring 20 12 h.

(** [public.mygarage_object_owner_can_write(object_name, requester)], run
    by a caller of role [r]. *)
Definition mygarage_object_owner_can_write (r : role) (d : db)
    (object_name : option string) (requester : option uuid) : bool :=
  match requester, object_name with
  | Some requester, Some object_name =>
      let parts := foldername object_name in
      let filename :=
        match filename object_name with
        | Some "" => None
        | f => f
        end in
      negb (has_dotdot_part object_name)
      && negb (has_double_slash object_name)
      && match parts with
         | [p1; p2] =>
             bool_decide (is_Some filename)
             && ((bool_decide (p1 = "avatars")
                  && bool_decide (p2 = uuid_text requester))
                 || (bool_decide (p1 = "vehicles")
                     && existsb
                          (fun kv =>
                             bool_decide (uuid_text kv.1 = p2)
                             && bool_decide (Vehicle.profile_id kv.2 = requester))
                          (map_to_list (visible_vehicles r d)))
                 || (bool_decide (p1 = "mods")
                     && existsb
                          (fun kv =>
                             bool_decide (uuid_text kv.1 = p2)
                             && match visible_vehicles r d !! Mod.vehicle_id kv.2 with
                                | Some v =>
                                    bool_decide (Vehicle.profile_id v = requester)
                                | None => false
                                end)
                          (map_to_list (visible_mods r d))))
         | _ => false
         end
  | _, _ => false
  end.

End Storage.

(** ** Reorder RPCs: migration 0007

    Both functions are [security invoker] and [execute] is granted to the
    role [authenticated] only: their statements run under the policies of
    [Authenticated uid], where [uid] is [auth.uid()].  A [select ... for
    update] and an [update] reach the rows that pass the [select] policies
    and the [using] expression of the [update] policy.  The [with check]
    expression of the [update] policies reads the owner columns only, which
    the swap leaves as they are, so it holds of every row the swap writes.
    The advisory lock orders concurrent calls and changes no table. *)

Module Reorder.
Import Schema Policies.

Inductive outcome : Type :=
| moved
| boundary
| not_found.

(** [(sort_order, created_at, id)] *)
Definition sort_key : Type := Z * Z * uuid.

(** [a.sort_order < b.sort_order or (a.sort_order = b.sort_order and
    (a.created_at < b.created_at or (a.created_at = b.created_at and
    a.id < b.id)))] *)
Definition key_lt (a b : sort_key) : bool :=
  (a.1.1 <? b.1.1)
  || ((a.1.1 =? b.1.1)
      && ((a.1.2 <? b.1.2) || ((a.1.2 =? b.1.2) && (a.2 <? b.2)%N))).

(** The columns the swap reads and writes, of [vehicles] and of [mods]. *)
Class Sortable (A : Type) : Type := {
  sort_order_of : A → Z;
  created_at_of : A → Z;
  (** [set sort_order = s], then the [set_updated_at] trigger *)
  with_sort_order : Z → Z → A → A;
  sort_order_written s now a : sort_order_of (with_sort_order s now a) = s;
  created_at_kept s now a :
    created_at_of (with_sort_order s now a) = created_at_of a
}.

#[global] Instance vehicle_sortable : Sortable Vehicle.row := {|
  sort_order_of := Vehicle.sort_order;
  created_at_of := Vehicle.created_at;
  with_sort_order s now v :=
    {| Vehicle.profile_id := Vehicle.profile_id v;
       Vehicle.hero_image_path := Vehicle.hero_image_path v;
       Vehicle.is_public := Vehicle.is_public v;
       Vehicle.sort_order := s;
       Vehicle.created_at := Vehicle.created_at v;
       Vehicle.updated_at := now |};
  sort_order_written _ _ _ := eq_refl;
  created_at_kept _ _ _ := eq_refl
|}.

#[global] Instance mod_sortable : Sortable Mod.row := {|
  sort_order_of := Mod.sort_order;
  created_at_of := Mod.created_at;
  with_sort_order s now m :=
    {| Mod.vehicle_id := Mod.vehicle_id m;
       Mod.sort_order := s;
       Mod.created_at := Mod.created_at m;
       Mod.updated_at := now |};
  sort_order_written _ _ _ := eq_refl;
  created_at_kept _ _ _ := eq_refl
|}.

Section swap.
Context {A : Type} `{Sortable A}.

Definition key_of (kv : uuid * A) : sort_key :=
  (sort_order_of kv.2, created_at_of kv.2, kv.1).

(** [order by ... limit 1]: the row no other row comes before. *)
Definition first_by (before : sort_key → sort_key → bool)
    (rows : list (uuid * A)) : option (uuid * A) :=
  foldr (fun row best =>
           match best with
           | None => Some row
           | Some b =>
               if before (key_of row) (key_of b) then Some row else Some b
           end)
    None rows.

(** The neighbor [select] over the rows [scope] of the caller's siblings:
    for 'up' the rows before the current one, last first; otherwise the
    rows after it, first first. *)
Definition select_neighbor (up : bool) (scope : gmap uuid A)
    (current : uuid * A) : option (uuid * A) :=
  if up then
    first_by (fun a b => key_lt b a)
      (filter (fun kv => key_lt (key_of kv) (key_of current) = true)
         (map_to_list scope))
  else
    first_by key_lt
      (filter (fun kv => key_lt (key_of current) (key_of kv) = true)
         (map_to_list scope)).

(** The [update ... set sort_order = case ... end where id in (current.id,
    neighbor.id) and ...], the rows of [scope] being those the rest of the
    [where] clause and the policies let through. *)
Definition swap_sort_order (scope : gmap uuid A) (current neighbor : uuid * A)
    (now : Z) (tbl : gmap uuid A) : gmap uuid A :=
  map_imap
    (fun id row =>
       if (bool_decide (id = current.1) || bool_decide (id = neighbor.1))
          && bool_decide (is_Some (scope !! id))
       then
         Some (with_sort_order
                 (if bool_decide (id = current.1) then sort_order_of neighbor.2
                  else if bool_decide (id = neighbor.1)
                       then sort_order_of current.2
                       else sort_order_of row)
                 now row)
       else Some row)
    tbl.

(** Specification-level helper: [b] lies beyond [a] in the direction of
    travel, before it for 'up' and after it for 'down'. *)
Definition beyond (up : bool) (a b : sort_key) : bool :=
  if up then key_lt b a else key_lt a b.

(** The neighbor is the sibling beyond the current row that all other such
    siblings lie beyond. *)
Definition nearest (up : bool) (scope : gmap uuid A)
    (current neighbor : uuid * A) : Prop :=
  scope !! neighbor.1 = Some neighbor.2 ∧
  beyond up (key_of current) (key_of neighbor) = true ∧
  ∀ id a, scope !! id = Some a →
          beyond up (key_of current) (key_of (id, a)) = true →
          id = neighbor.1 ∨ beyond up (key_of neighbor) (key_of (id, a)) = true.

End swap.

(** Rows of [vehicles] and [mods] that a statement of the caller can lock
    or update. *)
Definition lockable_vehicles (r : role) (d : db) : gmap uuid Vehicle.row :=
  filter (fun kv => vehicles_owner r d kv.2 = true) (visible_vehicles r d).

Definition lockable_mods (r : role) (d : db) : gmap uuid Mod.row :=
  filter (fun kv => mods_owner r d kv.2 = true) (visible_mods r d).

(** [p_direction not in ('up', 'down')]; of a NULL it is not true. *)
Definition invalid_direction (p_direction : option string) : bool :=
  match p_direction with
  | Some dir => negb (bool_decide (dir = "up") || bool_decide (dir = "down"))
  | None => false
  end.

(** [p_direction = 'up'] *)
Definition is_up (p_direction : option string) : bool :=
  bool_decide (p_direction = Some "up").

Definition reorder_vehicle_swap (uid : option uuid) (now : Z)
    (p_vehicle_id : option uuid) (p_direction : option string) (d : db)
  : result (db * outcome) :=
  let r := Authenticated uid in
  if invalid_direction p_direction then Raise "invalid direction"
  else
    match uid with
    | None => Ok (d, not_found)
    | Some v_user_id =>
        let own :=
          filter (fun kv => Vehicle.profile_id kv.2 = v_user_id)
            (lockable_vehicles r d) in
        match p_vehicle_id ≫= fun id => (fun v => (id, v)) <$> own !! id with
        | None => Ok (d, not_found)
        | Some v_current =>
            match select_neighbor (is_up p_direction) own v_current with
            | None => Ok (d, boundary)
            | Some v_neighbor =>
                Ok ({| profiles := profiles d;
                       vehicles :=
                         swap_sort_order own v_current v_neighbor now
                           (vehicles d);
                       mods := mods d;
                       images := images d |},
                    moved)
            end
        end
    end.

Definition reorder_mod_swap (uid : option uuid) (now : Z)
    (p_vehicle_id p_mod_id : option uuid) (p_direction : option string)
    (d : db) : result (db * outcome) :=
  let r := Authenticated uid in
  if invalid_direction p_direction then Raise "invalid direction"
  else
    match uid with
    | None => Ok (d, not_found)
    | Some v_user_id =>
        let of_vehicle :=
          filter (fun kv => Some (Mod.vehicle_id kv.2) = p_vehicle_id)
            (lockable_mods r d) in
        let current :=
          id ← p_mod_id;
          m ← of_vehicle !! id;
          v ← visible_vehicles r d !! Mod.vehicle_id m;
          if bool_decide (Vehicle.profile_id v = v_user_id)
          then Some (id, m) else None in
        match current with
        | None => Ok (d, not_found)
        | Some v_current =>
            match select_neighbor (is_up p_direction) of_vehicle v_current with
            | None => Ok (d, boundary)
            | Some v_neighbor =>
                Ok ({| profiles := profiles d;
                       vehicles := vehicles d;
                       mods :=
                         swap_sort_order of_vehicle v_current v_neighbor now
                           (mods d);
                       images := images d |},
                    moved)
            end
        end
    end.

End Reorder.

(** ** Sample data for the examples *)

Module Sample.
Import Schema.

Definition profile (name : option string) : Profile.row :=
  {| Profile.username := name; Profile.avatar_image_path := None |}.

Definition vehicle (owner : uuid) (public : bool) (sort created : Z)
  : Vehicle.row :=
  {| Vehicle.profile_id := owner; Vehicle.hero_image_path := None;
     Vehicle.is_public := public; Vehicle.sort_order := sort;
     Vehicle.created_at := created; Vehicle.updated_at := created |}.

Definition mod_ (parent : uuid) (sort created : Z) : Mod.row :=
  {| Mod.vehicle_id := parent; Mod.sort_order := sort;
     Mod.created_at := created; Mod.updated_at := created |}.

Definition image (owner : uuid) (v m : option uuid) (path : string)
  : Image.row :=
  {| Image.profile_id := owner; Image.vehicle_id := v; Image.mod_id := m;
     Image.storage_bucket := "mygarage"; Image.storage_path := path |}.

(** Profile 1 with three vehicles in the order 10, 11, 12 and two mods on
    vehicle 10; profile 2 with one vehicle. *)
Definition garage : db :=
  {| profiles := {[ 1%N := profile (Some "alice"); 2%N := profile (Some "bob") ]};
     vehicles := {[ 10%N := vehicle 1%N true 0 2; 11%N := vehicle 1%N true 1 3;
                    12%N := vehicle 1%N false 2 1; 20%N := vehicle 2%N true 0 0 ]};
     mods := {[ 30%N := mod_ 10%N 0 5; 31%N := mod_ 10%N 1 6 ]};
     images := {[ 40%N := image 1%N None (Some 30%N) "mods/30/a.jpg";
                  41%N := image 1%N (Some 10%N) None "vehicles/10/b.jpg" ]} |}.

(** Vehicles 10 and 11 share the [sort_order] 0 (the column default);
    vehicle 12, created first, has 1.  The order is 10, 11, 12. *)
Definition tied_garage : db :=
  {| profiles := {[ 1%N := profile (Some "alice") ]};
     vehicles := {[ 10%N := vehicle 1%N true 0 2; 11%N := vehicle 1%N true 0 3;
                    12%N := vehicle 1%N true 1 1 ]};
     mods := ∅;
     images := ∅ |}.

End Sample.

(** ** Check constraints of the bucket table: migration 0006 *)

Module BucketChecks.
Import RateLimitStore.

(** [constraint rate_limit_buckets_window_seconds_positive] *)
Definition rate_limit_buckets_window_seconds_positive (b : bucket) : bool :=
  0 <? window_seconds b.

(** [constraint rate_limit_buckets_request_count_positive] *)
Definition rate_limit_buckets_request_count_positive (b : bucket) : bool :=
  0 <? request_count b.

(** [constraint rate_limit_buckets_window_range] *)
Definition rate_limit_buckets_window_range (b : bucket) : bool :=
  window_started_at b <? window_ends_at b.

(** [constraint rate_limit_buckets_expires_after_window] *)
Definition rate_limit_buckets_expires_after_window (b : bucket) : bool :=
  window_ends_at b <=? expires_at b.

Definition bucket_checks (b : bucket) : bool :=
  rate_limit_buckets_window_seconds_positive b
  && rate_limit_buckets_request_count_positive b
  && rate_limit_buckets_window_range b
  && rate_limit_buckets_expires_after_window b.

(** Every stored row passes the four checks. *)
Definition table_checks (tbl : gmap string bucket) : Prop :=
  map_Forall (fun _ b => bucket_checks b = true) tbl.

(** Calls of [rate_limit_consume] made one after the other, each in a
    transaction of its own: the table after the last one and the rows
    returned, or the first exception. *)
Fixpoint consume_sequence (calls : list ConcurrentConsume.call)
    (tbl : gmap string bucket) : result (gmap string bucket * list consume_row) :=
  match calls with
  | [] => Ok (tbl, [])
  | c :: rest =>
      '(tbl1, row) ←
        rate_limit_consume (ConcurrentConsume.c_rnd c) (ConcurrentConsume.c_now c)
          (ConcurrentConsume.c_key c) (ConcurrentConsume.c_max c)
          (ConcurrentConsume.c_ws c) tbl;
      '(tbl2, rows) ← consume_sequence rest tbl1;
      Ok (tbl2, row :: rows)
  end.

End BucketChecks.

(** ** Callers of the limiter: the rest of src/lib/security/rate-limit.ts *)

Module ServerAction.
Import RateLimiter.

(** Every character of [s] passes [p]. *)
Fixpoint string_forall (p : ascii → bool) (s : string) : bool :=
  match s with
  | EmptyString => true
  | String c s' => p c && string_forall p s'
  end.

(** [s.split(",")[0]] *)
Fixpoint before_comma (s : string) : string :=
  match s with
  | EmptyString => EmptyString
  | String c s' =>
      if bool_decide (c = ","%char) then EmptyString
      else String c (before_comma s')
  end.

(** A string is truthy when it is not empty. *)
Definition truthy (s : string) : bool := negb (bool_decide (s = "")).

(** [getRequestIpAddress()]; [headerStore name] is [headers().get(name)],
    [None] when the request has no such header. *)
Definition getRequestIpAddress (headerStore : string → option string) : string :=
  let forwardedFor := headerStore "x-forwarded-for" in
  let first :=
    match forwardedFor with
    | Some value =>
        if truthy value then
          let ip := js_trim (before_comma value) in
          if truthy ip then Some ip else None
        else None
    | None => None
    end in
  match first with
  | Some ip => ip
  | None =>
      let fallback :=
        match headerStore "x-real-ip" with
        | Some value => Some value
        | None =>
            match headerStore "cf-connecting-ip" with
            | Some value => Some value
            | None => headerStore "x-vercel-forwarded-for"
            end
        end in
      match fallback with
      | Some value => if truthy (js_trim value) then js_trim value else "unknown"
      | None => "unknown"
      end
  end.

Record EnforceServerActionRateLimitOptions : Type := {
  action : string;
  userId : string;
  userLimit : RateLimitRule;
  ipLimit : RateLimitRule;
  ipAddress : option string
}.

Section limiter.
Context {World : Type}.
Variable rpc : string → Z → Z → World → World * rpc_response.
Variables (production service_env : bool) (sha256_hex : string → string).
Variable headerStore : string → option string.

Definition enforceServerActionRateLimit
    (options : EnforceServerActionRateLimitOptions) (w : World)
  : World * (js_error + unit) :=
  let ipAddress :=
    match ipAddress options with
    | Some value =>
        if truthy (js_trim value) then js_trim value
        else getRequestIpAddress headerStore
    | None => getRequestIpAddress headerStore
    end in
  enforceDurableRateLimit rpc production service_env sha256_hex
    {| RateLimiter.action := action options;
       targets :=
         [ {| scope := "user"; identifier := userId options;
              rule := userLimit options; hashIdentifier := None |};
           {| scope := "ip"; identifier := ipAddress;
              rule := ipLimit options; hashIdentifier := None |} ] |} w.

End limiter.


(** A digit of a lower-case hexadecimal digest. *)
Definition is_hex_digit (c : ascii) : bool :=
  between "0" "9" c || between "a" "f" c.

(** A reply that carries a row with [allowed = true]. *)
Definition allows (reply : rpc_response) : Prop :=
  ∃ c rest, reply = RpcData (c :: rest) ∧ cand_allowed c = Some true.

(** The plain errors a call of [consumeBucket] can reject with: no client
    for want of environment, an unusable reply, a failed RPC (in production
    without the backend's detail). *)
Definition backend_error (production : bool) (e : js_error) : Prop :=
  ∃ m, e = Error m ∧
    (m = "Missing SUPABASE_URL and/or SUPABASE_SERVICE_ROLE_KEY." ∨
     m = "Invalid rate-limit backend response." ∨
     (String.prefix "Rate-limit backend unavailable." m = true ∧
      (production = true → m = "Rate-limit backend unavailable."))).

End ServerAction.

(** ** Storage objects: migrations 0005 and 0008, and the paths the
    dashboard actions upload to *)

Module StoragePolicies.
Import Schema Policies PublicViews Storage.

(** [public.mygarage_object_owner_can_write(object_name, requester)] as
    migration 0005 first defined it. *)
Definition mygarage_object_owner_can_write_0005 (r : role) (d : db)
    (object_name : option string) (requester : option uuid) : bool :=
  match requester, object_name with
  | Some requester, Some object_name =>
      match foldername object_name with
      | [p1; p2] =>
          (bool_decide (p1 = "avatars")
           && bool_decide (p2 = uuid_text requester))
          || (bool_decide (p1 = "vehicles")
              && existsb
                   (fun kv =>
                      bool_decide (uuid_text kv.1 = p2)
                      && bool_decide (Vehicle.profile_id kv.2 = requester))
                   (map_to_list (visible_vehicles r d)))
          || (bool_decide (p1 = "mods")
              && existsb
                   (fun kv =>
                      bool_decide (uuid_text kv.1 = p2)
                      && match visible_vehicles r d !! Mod.vehicle_id kv.2 with
                         | Some v =>
                             bool_decide (Vehicle.profile_id v = requester)
                         | None => false
                         end)
                   (map_to_list (visible_mods r d)))
      | _ => false
      end
  | _, _ => false
  end.

(** The three [exists] of [mygarage_object_is_public_readable]: the object
    is the avatar of a row of [public_profiles], the hero image of a row of
    [public_vehicles], or the file of a row of [public_images] in the
    bucket. *)
Definition referenced_by_public_views (r : role) (d : db)
    (object_name : string) : bool :=
  existsb
    (fun kv => bool_decide (Profile.avatar_image_path kv.2 = Some object_name))
    (map_to_list (public_profiles r d))
  || existsb
       (fun kv => bool_decide (Vehicle.hero_image_path kv.2 = Some object_name))
       (map_to_list (public_vehicles r d))
  || existsb
       (fun kv =>
          bool_decide (Image.storage_bucket kv.2 = "mygarage")
          && bool_decide (Image.storage_path kv.2 = object_name))
       (map_to_list (public_images r d)).

(** [public.mygarage_object_is_public_readable(object_name)] of migration
    0005. *)
Definition mygarage_object_is_public_readable_0005 (r : role) (d : db)
    (object_name : option string) : bool :=
  match object_name with
  | Some object_name => referenced_by_public_views r d object_name
  | None => false
  end.

(** [public.mygarage_object_is_public_readable(object_name)] of migration
    0008. *)
Definition mygarage_object_is_public_readable (r : role) (d : db)
    (object_name : option string) : bool :=
  match object_name with
  | Some object_name =>
      negb (has_dotdot_part object_name)
      && negb (has_double_slash object_name)
      && referenced_by_public_views r d object_name
  | None => false
  end.

(** Policy [mygarage_public_read] on [storage.objects], [to anon,
    authenticated]. *)
Definition mygarage_public_read (r : role) (d : db) (bucket_id : string)
    (name : option string) : bool :=
  bool_decide (bucket_id = "mygarage")
  && mygarage_object_is_public_readable r d name.

(** The expression of the policies [mygarage_owner_read],
    [mygarage_owner_insert], [mygarage_owner_update] and
    [mygarage_owner_delete], all [to authenticated]. *)
Definition mygarage_owner (r : role) (d : db) (bucket_id : string)
    (name : option string) : bool :=
  is_authenticated r
  && bool_decide (bucket_id = "mygarage")
  && mygarage_object_owner_can_write r d name (auth_uid r).

(** A text without ['/']. *)
Definition no_slash (s : string) : bool :=
  ServerAction.string_forall (fun c => negb (bool_decide (c = "/"%char))) s.

(** [0-9a-f-], the characters of a uuid in text form. *)
Definition is_uuid_char (c : ascii) : bool :=
  ServerAction.is_hex_digit c || bool_decide (c = "-"%char).

(** [fileName.lastIndexOf(".")] and the [slice] after it: the text after
    the last dot, if there is a dot. *)
Fixpoint after_last_dot (s : string) : option string :=
  match s with
  | EmptyString => None
  | String c s' =>
      match after_last_dot s' with
      | Some t => Some t
      | None => if bool_decide (c = "."%char) then Some s' else None
      end
  end.

Fixpoint string_filter (p : ascii → bool) (s : string) : string :=
  match s with
  | EmptyString => EmptyString
  | String c s' =>
      if p c then String c (string_filter p s') else string_filter p s'
  end.

(** [a-z0-9] *)
Definition is_alnum (c : ascii) : bool :=
  RateLimiter.between "a" "z" c || RateLimiter.between "0" "9" c.

(** [getFileExtension(fileName)] of the dashboard actions. *)
Definition getFileExtension (fileName : string) : string :=
  match after_last_dot fileName with
  | None => "bin"
  | Some rest =>
      let ext := string_filter is_alnum (RateLimiter.toLowerCase rest) in
      if (0 <? String.length ext)%nat then ext else "bin"
  end.

(** The object path [uploadFile] writes: [prefix/randomUUID().extension]. *)
Definition upload_path (prefix : string) (file_id : uuid) (fileName : string)
  : string :=
  prefix +:+ "/" +:+ uuid_text file_id +:+ "." +:+ getFileExtension fileName.

End StoragePolicies.

(** ** Usernames: src/lib/limits.ts, the checks of [profiles] and
    migration 0011

    A [text] of the database is modelled as its UTF-8 bytes: the bytes of a
    character outside ASCII are all outside [a-z0-9_@-], so a run of such
    characters is a run of such bytes.  [lower] of the database depends on
    its locale and is a parameter. *)

Module Usernames.
Import Schema Storage.

(** [a-z0-9_] *)
Definition is_username_char (c : ascii) : bool :=
  RateLimiter.between "a" "z" c || RateLimiter.between "0" "9" c
  || bool_decide (c = "_"%char).

(** [normalizeUsername(username)]: [username.trim().toLowerCase()] *)
Definition normalizeUsername (username : string) : string :=
  RateLimiter.toLowerCase (RateLimiter.js_trim username).

(** [isValidUsername(username)]: [/^[a-z0-9_]{3,30}$/.test(username)] *)
Definition isValidUsername (username : string) : bool :=
  ServerAction.string_forall is_username_char username
  && (3 <=? String.length username)%nat
  && (String.length username <=? 30)%nat.

(** [split_part(s, '@', 1)] *)
Fixpoint before_at (s : string) : string :=
  match s with
  | EmptyString => EmptyString
  | String c s' =>
      if bool_decide (c = "@"%char) then EmptyString
      else String c (before_at s')
  end.

(** [regexp_replace(s, '[^a-z0-9_]+', '_', 'g')]: every longest run of
    other characters becomes one underscore; [in_run] says that the
    character before was one of them. *)
Fixpoint replace_runs (in_run : bool) (s : string) : string :=
  match s with
  | EmptyString => EmptyString
  | String c s' =>
      if is_username_char c then String c (replace_runs false s')
      else if in_run then replace_runs true s'
           else String "_" (replace_runs true s')
  end.

(** [regexp_replace(s, '_+', '_', 'g')] *)
Fixpoint squeeze_underscores (in_run : bool) (s : string) : string :=
  match s with
  | EmptyString => EmptyString
  | String c s' =>
      if bool_decide (c = "_"%char)
      then if in_run then squeeze_underscores true s'
           else String c (squeeze_underscores true s')
      else String c (squeeze_underscores false s')
  end.

Fixpoint ltrim_char (ch : ascii) (s : string) : string :=
  match s with
  | String c s' => if bool_decide (c = ch) then ltrim_char ch s' else s
  | EmptyString => EmptyString
  end.

Fixpoint rtrim_char (ch : ascii) (s : string) : string :=
  match s with
  | EmptyString => EmptyString
  | String c s' =>
      match rtrim_char ch s' with
      | EmptyString => if bool_decide (c = ch) then "" else String c ""
      | t => String c t
      end
  end.

(** [btrim(s, ch)] for one character [ch]; [btrim(s)] is [btrim(s, ' ')]. *)
Definition btrim (ch : ascii) (s : string) : string :=
  rtrim_char ch (ltrim_char ch s).

(** [left(s, n)], [n] not negative *)
Definition left (s : string) (n : nat) : string := substring 0 n s.

Fixpoint string_drop (n : nat) (s : string) : string :=
  match n, s with
  | S n', String _ s' => string_drop n' s'
  | _, _ => s
  end.

(** [right(s, n)], [n] not negative *)
Definition right (s : string) (n : nat) : string :=
  string_drop (String.length s - n) s.

Fixpoint string_repeat (ch : ascii) (n : nat) : string :=
  match n with
  | O => EmptyString
  | S n' => String ch (string_repeat ch n')
  end.

(** [lpad(s, n, ch)] for one character [ch] *)
Definition lpad (s : string) (n : nat) (ch : ascii) : string :=
  if (String.length s <? n)%nat
  then string_repeat ch (n - String.length s) +:+ s
  else left s n.

(** [replace(s, '-', '')] *)
Definition remove_dashes (s : string) : string :=
  StoragePolicies.string_filter (fun c => negb (bool_decide (c = "-"%char))) s.

Inductive insert_error : Type :=
| check_violation
| unique_violation.

Section lower.
Variable lower : string → string.

(** [public.derive_username_from_email(p_email, p_user_id, p_with_suffix)] *)
Definition derive_username_from_email (p_email : option string)
    (p_user_id : option uuid) (p_with_suffix : option bool) : string :=
  let v_local_part := before_at (lower (default "" p_email)) in
  let v_base := replace_runs false v_local_part in
  let v_base := squeeze_underscores false v_base in
  let v_base := btrim "_" v_base in
  let v_base := if (String.length v_base <? 3)%nat then "user" else v_base in
  if default false p_with_suffix then
    let v_suffix :=
      right (remove_dashes (default "" (uuid_text <$> p_user_id))) 8 in
    let v_suffix :=
      if (String.length v_suffix <? 8)%nat then lpad v_suffix 8 "0"
      else v_suffix in
    left v_base 21 +:+ "_" +:+ v_suffix
  else left v_base 30.

(** [constraint profiles_username_not_blank check (username is null or
    btrim(username) <> '')] *)
Definition profiles_username_not_blank (p : Profile.row) : bool :=
  match Profile.username p with
  | None => true
  | Some username => negb (bool_decide (btrim " " username = ""))
  end.

(** [constraint profiles_username_lowercase check (username is null or
    username = lower(username))] *)
Definition profiles_username_lowercase (p : Profile.row) : bool :=
  match Profile.username p with
  | None => true
  | Some username => bool_decide (username = lower username)
  end.

(** The unique index [profiles_username_unique_ci_idx] on
    [lower(username)] [where username is not null]: a row of the table
    holds the name already. *)
Definition username_taken (d : db) (username : string) : bool :=
  existsb
    (fun kv =>
       match Profile.username kv.2 with
       | Some other => bool_decide (lower other = lower username)
       | None => false
       end)
    (map_to_list (profiles d)).

(** [insert into public.profiles (id, username, display_name) values
    (...) on conflict (id) do nothing], run by the definer of the
    trigger function. *)
Definition insert_profile_do_nothing (id : uuid) (username : option string)
    (d : db) : insert_error + db :=
  let p := {| Profile.username := username;
              Profile.avatar_image_path := None |} in
  if negb (profiles_username_not_blank p && profiles_username_lowercase p)
  then inl check_violation
  else if bool_decide (is_Some (profiles d !! id)) then inr d
  else if from_option (username_taken d) false username
       then inl unique_violation
       else inr (DataLayer.set_profiles (<[id := p]> (profiles d)) d).

(** [public.handle_new_user()] of migration 0011, the trigger [after
    insert on auth.users], for the new row [(new_id, new_email)].  An
    error other than [unique_violation] leaves the function. *)
Definition handle_new_user (new_email : option string) (new_id : uuid)
    (d : db) : insert_error + db :=
  let v_username :=
    derive_username_from_email new_email (Some new_id) (Some false) in
  let v_fallback_username :=
    derive_username_from_email new_email (Some new_id) (Some true) in
  match insert_profile_do_nothing new_id (Some v_username) d with
  | inl unique_violation =>
      match insert_profile_do_nothing new_id (Some v_fallback_username) d with
      | inl unique_violation => insert_profile_do_nothing new_id None d
      | done => done
      end
  | done => done
  end.

End lower.

End Usernames.

(* ================================================================== *)
(** * Properties *)
(* ================================================================== *)

(** ** Facts about the rate-limit store *)

Module RateLimitStoreFacts.
Import RateLimitStore.

Lemma usec_pos : 0 < usec.
Proof. reflexivity. Qed.

Lemma ceil_epoch_spec iv :
  (ceil_epoch iv - 1) * usec < iv ≤ ceil_epoch iv * usec.
Proof.
  unfold ceil_epoch. pose proof usec_pos as Hu.
  pose proof (Z.mul_div_le (- iv) usec Hu).
  pose proof (Z.mul_succ_div_gt (- iv) usec Hu).
  lia.
Qed.

Lemma window_aligned now ws :
  0 < ws →
  let started := now / (usec * ws) * ws * usec in
  started ≤ now < started + ws * usec.
Proof.
  intros Hws. cbv zeta. pose proof usec_pos as Hu.
  assert (0 < usec * ws) as Hp by lia.
  pose proof (Z.mul_div_le now _ Hp).
  pose proof (Z.mul_succ_div_gt now _ Hp).
  lia.
Qed.

Lemma foldr_delete_lookup (l : list (string * bucket)) (tbl : table) k :
  foldr (fun e t => delete e.1 t) tbl l !! k =
  if bool_decide (k ∈ l.*1) then None else tbl !! k.
Proof.
  induction l as [|[k' b'] l IH].
  - rewrite bool_decide_eq_false_2; [done | apply not_elem_of_nil].
  - rewrite fmap_cons. cbn [foldr fst].
    destruct (decide (k' = k)) as [->|Hne].
    + rewrite lookup_delete_eq, bool_decide_eq_true_2; [done | left].
    + rewrite lookup_delete_ne, IH by done.
      rewrite (bool_decide_ext (k ∈ k' :: l.*1) (k ∈ l.*1)); [done|].
      rewrite elem_of_cons. split; [intros [->|?]; done | by right].
Qed.

Lemma expired_rows_elem now lim (tbl : table) k b :
  (k, b) ∈ expired_rows now lim tbl →
  tbl !! k = Some b ∧ expires_at b < now.
Proof.
  unfold expired_rows. intros Hin.
  apply elem_of_take in Hin as (i & Hin & _).
  apply list_elem_of_lookup_2 in Hin.
  rewrite merge_sort_Permutation in Hin.
  apply list_elem_of_filter in Hin as [Hexp Hin].
  apply elem_of_map_to_list in Hin. done.
Qed.

(** The cleanup only ever removes rows that have expired. *)
Lemma cleanup_lookup now lim (tbl : table) k :
  (rate_limit_cleanup_expired now lim tbl).1 !! k = tbl !! k ∨
  ((rate_limit_cleanup_expired now lim tbl).1 !! k = None ∧
   ∃ b, tbl !! k = Some b ∧ expires_at b < now).
Proof.
  unfold rate_limit_cleanup_expired. simpl.
  rewrite foldr_delete_lookup. case_bool_decide as Hin; [|by left].
  right. split; [done|].
  apply list_elem_of_fmap in Hin as [[k' b] [-> Hin]].
  apply expired_rows_elem in Hin. eauto.
Qed.

Lemma maybe_cleanup_live rnd now (tbl : table) k b :
  tbl !! k = Some b → now ≤ expires_at b →
  maybe_cleanup rnd now tbl !! k = Some b.
Proof.
  intros Hk Hlive. unfold maybe_cleanup. destruct rnd; [|done].
  destruct (cleanup_lookup now (Some 200) tbl k) as [->|[_ (b' & Hb' & Hexp)]];
    [done|].
  rewrite Hk in Hb'. injection Hb' as <-. lia.
Qed.

Lemma declare_ok now key mx ws :
  trim (default "" key) ≠ "" →
  ∃ f, declare now key mx ws = Ok f ∧
    v_key f = trim (default "" key) ∧
    v_now f = now ∧
    v_window_seconds f = Z.max 1 (Z.min (default 1 ws) 86400) ∧
    v_max_requests f = Z.max 1 (Z.min (default 1 mx) 100000) ∧
    v_window_started_at f =
      now / (usec * v_window_seconds f) * v_window_seconds f * usec ∧
    v_window_ends_at f = v_window_started_at f + v_window_seconds f * usec ∧
    v_expires_at f = v_window_ends_at f + Z.max (v_window_seconds f) 600 * usec.
Proof.
  intros Hk. unfold declare.
  rewrite bool_decide_eq_false_2 by done.
  eexists. split; [reflexivity|]. simpl. unfold make_interval_secs. done.
Qed.

Lemma upsert_ok f (tbl : table) :
  (∀ rl, tbl !! v_key f = Some rl →
         window_started_at rl = v_window_started_at f →
         window_seconds rl = v_window_seconds f →
         int4_min ≤ request_count rl + 1 ≤ int4_max) →
  upsert f tbl =
    Ok (<[v_key f := {| window_started_at := v_window_started_at f;
                        window_seconds := v_window_seconds f;
                        request_count := next_count f tbl;
                        window_ends_at := v_window_ends_at f;
                        expires_at := v_expires_at f;
                        updated_at := v_now f |}]> tbl,
        (next_count f tbl, v_window_ends_at f)).
Proof.
  intros Hrange. unfold upsert, next_count.
  destruct (tbl !! v_key f) as [rl|] eqn:Hrl; [|done].
  destruct (decide (window_started_at rl = v_window_started_at f)) as [Hs|Hs];
    destruct (decide (window_seconds rl = v_window_seconds f)) as [Hw|Hw].
  - rewrite !bool_decide_eq_true_2 by done. simpl.
    unfold int4_add. rewrite bool_decide_eq_true_2 by eauto. done.
  - rewrite (bool_decide_eq_false_2 (window_seconds rl = _)) by done.
    rewrite (bool_decide_eq_false_2 (_ ∧ _)) by tauto.
    by rewrite andb_false_r.
  - rewrite (bool_decide_eq_false_2 (window_started_at rl = _)) by done.
    rewrite (bool_decide_eq_false_2 (_ ∧ _)) by tauto. done.
  - rewrite (bool_decide_eq_false_2 (window_started_at rl = _)) by done.
    rewrite (bool_decide_eq_false_2 (_ ∧ _)) by tauto. done.
Qed.

Lemma clamp_bounds lo hi x : lo ≤ hi → lo ≤ Z.max lo (Z.min x hi) ≤ hi.
Proof. lia. Qed.





End RateLimitStoreFacts.

(** ** Concurrent consumes lose no update *)

Module ConcurrentConsumeFacts.
Import RateLimitStore RateLimitStoreFacts ConcurrentConsume.

Lemma omap_insert_fresh {A B} (f : A → option B) (l : list A) i x y b :
  l !! i = Some x → f x = None → f y = Some b →
  omap f (<[i := y]> l) ≡ₚ b :: omap f l.
Proof.
  revert i. induction l as [|a l IH]; intros [|i] Hi Hx Hy; simplify_eq/=.
  - by rewrite Hx, Hy.
  - destruct (f a); simpl; rewrite (IH i) by done; [apply perm_swap|done].
Qed.

Lemma omap_insert_same {A B} (f : A → option B) (l : list A) i x y :
  l !! i = Some x → f y = f x →
  omap f (<[i := y]> l) = omap f l.
Proof.
  revert i. induction l as [|a l IH]; intros [|i] Hi Hxy; simplify_eq/=.
  - by rewrite Hxy.
  - by rewrite (IH i).
Qed.

Lemma omap_length_all {A B} (f : A → option B) (l : list A) :
  Forall (fun a => is_Some (f a)) l → length (omap f l) = length l.
Proof.
  induction 1 as [|a l [b Hb] _ IH]; simpl; [done|].
  rewrite Hb. simpl. f_equal. exact IH.
Qed.

Lemma omap_length_le {A B} (f : A → option B) (l : list A) :
  (length (omap f l) ≤ length l)%nat.
Proof.
  induction l as [|a l IH]; [done|].
  change (omap f (a :: l))
    with (match f a with Some y => y :: omap f l | None => omap f l end).
  destruct (f a); simpl; lia.
Qed.

Lemma omap_length_lt {A B} (f : A → option B) (l : list A) i x :
  l !! i = Some x → f x = None → (length (omap f l) < length l)%nat.
Proof.
  revert i. induction l as [|a l IH]; intros [|i] Hi Hx; simplify_eq/=.
  - rewrite Hx. pose proof (omap_length_le f l). lia.
  - specialize (IH i Hi Hx). destruct (f a); simpl; lia.
Qed.

Lemma weight_insert (ss : list session) i s s' :
  ss !! i = Some s →
  (sum_list (weight <$> <[i := s']> ss) + weight s
   = sum_list (weight <$> ss) + weight s')%nat.
Proof.
  revert i. induction ss as [|a ss IH]; intros [|i] Hi; simplify_eq/=.
  - lia.
  - specialize (IH i Hi). lia.
Qed.

Lemma session_call_insert (ss : list session) i s s' :
  ss !! i = Some s → session_call s' = session_call s →
  session_call <$> <[i := s']> ss = session_call <$> ss.
Proof.
  intros Hi Heq. rewrite list_fmap_insert, Heq.
  apply list_insert_id. by rewrite list_lookup_fmap, Hi.
Qed.

(** A call running alone takes the steps of [rate_limit_consume]. *)
Lemma solo_run c (tbl tbl' : table) row :
  rate_limit_consume (c_rnd c) (c_now c) (c_key c) (c_max c) (c_ws c) tbl
    = Ok (tbl', row) →
  ∃ n, rtc step (tbl, [Pending c]) (tbl', [Finished c n row]).
Proof.
  unfold rate_limit_consume. intros Hrun.
  destruct (declare (c_now c) (c_key c) (c_max c) (c_ws c)) as [f|] eqn:Hd;
    [|done].
  simpl in Hrun.
  destruct (upsert f tbl) as [[tbl1 [n e]]|] eqn:Hu; [|done].
  simpl in Hrun. injection Hrun as <- <-.
  exists n. eapply rtc_l.
  - by apply (step_upsert 0 c f tbl tbl1 n e [Pending c]).
  - apply rtc_once. apply (step_finish 0 c f n e tbl1 [Upserted c f n e]).
    done.
Qed.

(** A call that has not returned can always take its next step. *)
Lemma progress (cfg : config) :
  ¬ all_done cfg.2 →
  ∃ cfg', step cfg cfg' ∧
    (sum_list (weight <$> cfg'.2) < sum_list (weight <$> cfg.2))%nat.
Proof.
  destruct cfg as [tbl ss]. simpl. intros Hnot.
  apply not_Forall_Exists in Hnot; [|apply _].
  apply Exists_exists in Hnot as (s & Hin & Hs).
  apply list_elem_of_lookup in Hin as [i Hi].
  destruct s as [c|c f n e|c n r|c m]; simpl in Hs; try done.
  - destruct (declare (c_now c) (c_key c) (c_max c) (c_ws c)) as [f|m] eqn:Hd.
    + destruct (upsert f tbl) as [[tbl' [n e]]|m] eqn:Hu.
      * eexists. split; [by eapply step_upsert|]. simpl.
        pose proof (weight_insert ss i _ (Upserted c f n e) Hi). simpl in *. lia.
      * eexists. split; [by eapply step_upsert_raise|]. simpl.
        pose proof (weight_insert ss i _ (Failed c m) Hi). simpl in *. lia.
    + eexists. split; [by eapply step_declare_raise|]. simpl.
      pose proof (weight_insert ss i _ (Failed c m) Hi). simpl in *. lia.
  - eexists. split; [by eapply step_finish|]. simpl.
    pose proof (weight_insert ss i _ (Finished c n (output f n e)) Hi).
    simpl in *. lia.
Qed.

(** Every configuration can be run until all calls have returned. *)
Lemma run_to_completion (cfg : config) :
  ∃ cfg', rtc step cfg cfg' ∧ all_done cfg'.2.
Proof.
  remember (sum_list (weight <$> cfg.2)) as n eqn:Hn.
  revert cfg Hn. induction (lt_wf n) as [n _ IH]. intros cfg ->.
  destruct (decide (all_done cfg.2)) as [Hdone|Hnot].
  - exists cfg. split; [apply rtc_refl|done].
  - destruct (progress cfg Hnot) as (cfg1 & Hstep & Hlt).
    destruct (IH _ Hlt cfg1 eq_refl) as (cfg' & Hrun & Hdone).
    exists cfg'. split; [by eapply rtc_l|done].
Qed.

Section same_key.
Variables (k : string) (started ws : Z) (calls : list call) (tbl0 : table).
Hypothesis k_nonempty : k ≠ "".
Hypothesis calls_same_window : Forall (same_window k started ws) calls.

Let base : Z := base_count tbl0 k started ws.
Hypothesis base_nonneg : 0 ≤ base.
Hypothesis no_overflow : base + Z.of_nat (length calls) ≤ int4_max.

Local Abbreviation inv := (ConcurrentConsume.inv k started ws calls tbl0).

Lemma inv_init : inv (tbl0, Pending <$> calls).
Proof.
  assert (omap observed (Pending <$> calls) = []) as Hobs.
  { induction calls as [|c l IH]; [done|]. simpl. apply IH.
    - by eapply Forall_inv_tail.
    - simpl in no_overflow. lia. }
  split; simpl.
  - rewrite <-list_fmap_compose. apply list_fmap_id.
  - apply Forall_fmap, Forall_true. intros c c' m. discriminate.
  - by rewrite Hobs.
  - done.
  - by rewrite Hobs.
Qed.

Lemma session_same_window cfg i s :
  inv cfg → cfg.2 !! i = Some s → same_window k started ws (session_call s).
Proof.
  intros Hinv Hi.
  eapply Forall_lookup_1; [exact calls_same_window|].
  rewrite <-(inv_calls _ Hinv), list_lookup_fmap, Hi. done.
Qed.

Lemma declare_same_window c :
  same_window k started ws c →
  ∃ f, declare (c_now c) (c_key c) (c_max c) (c_ws c) = Ok f ∧
       v_key f = k ∧ v_now f = c_now c ∧
       v_window_started_at f = started ∧ v_window_seconds f = ws ∧
       v_window_ends_at f = started + ws * usec ∧
       v_expires_at f = started + ws * usec + Z.max ws 600 * usec.
Proof.
  intros (Hk & Hws & Hst).
  destruct (declare_ok (c_now c) (c_key c) (c_max c) (c_ws c))
    as (f & Hf & Hfk & Hfn & Hfw & _ & Hfs & Hfe & Hfx).
  { by rewrite Hk. }
  exists f. rewrite Hws in Hfw. rewrite Hfw, Hst in Hfs.
  rewrite Hfs, Hfw in Hfe. rewrite Hfe, Hfw in Hfx.
  by rewrite Hfk, Hk.
Qed.

Lemma observed_bound cfg i c :
  inv cfg → cfg.2 !! i = Some (Pending c) →
  (length (omap observed cfg.2) < length calls)%nat.
Proof.
  intros Hinv Hi. rewrite <-(inv_calls _ Hinv), length_fmap.
  by eapply omap_length_lt.
Qed.

Lemma seq_snoc_perm (n : nat) :
  (fun j => base + Z.of_nat j) <$> seq 1 (S n) ≡ₚ
  (base + Z.of_nat (S n)) :: ((fun j => base + Z.of_nat j) <$> seq 1 n).
Proof.
  rewrite seq_S, fmap_app. simpl.
  symmetry. apply Permutation_cons_append.
Qed.

(** The upsert of a call in the window, on a reachable table. *)
Lemma upsert_reachable cfg f :
  inv cfg →
  v_key f = k → v_window_started_at f = started → v_window_seconds f = ws →
  next_count f cfg.1 = base + Z.of_nat (S (length (omap observed cfg.2))).
Proof.
  intros Hinv Hfk Hfs Hfw. unfold next_count. rewrite Hfk, Hfs, Hfw.
  destruct (omap observed cfg.2) as [|n obs] eqn:Hobs.
  - rewrite (inv_untouched _ Hinv Hobs). unfold base, base_count. simpl.
    destruct (tbl0 !! k) as [rl|]; [|lia].
    case_bool_decide; lia.
  - destruct (inv_row _ Hinv) as (b & Hb & Hbs & Hbw & Hbc & _).
    { by rewrite Hobs. }
    rewrite Hb, bool_decide_eq_true_2 by done.
    rewrite Hbc, Hobs. lia.
Qed.

Lemma inv_step cfg cfg' : inv cfg → step cfg cfg' → inv cfg'.
Proof.
  intros Hinv Hstep.
  destruct Hstep as [i c m tbl ss Hi Hd|i c f tbl tbl' n e ss Hi Hd Hu
                    |i c f m tbl ss Hi Hd Hu|i c f n e tbl ss Hi].
  - (* the declarations raise: excluded, the key is not blank *)
    destruct (declare_same_window c) as (f & Hf & _).
    { apply (session_same_window _ i _ Hinv Hi). }
    congruence.
  - (* the upsert *)
    destruct (declare_same_window c) as (f' & Hf & Hfk & Hfn & Hfs & Hfw & Hfe & Hfx).
    { apply (session_same_window _ i _ Hinv Hi). }
    assert (f' = f) as -> by congruence.
    pose proof (upsert_reachable _ f Hinv Hfk Hfs Hfw) as Hnext. simpl in Hnext.
    pose proof (observed_bound _ i c Hinv Hi) as Hbound. simpl in Hbound.
    rewrite upsert_ok in Hu; last first.
    { intros rl Hrl Hs Hw. unfold next_count in Hnext.
      rewrite Hrl, bool_decide_eq_true_2 in Hnext by done.
      unfold int4_min, int4_max in *. lia. }
    injection Hu as <- <- <-.
    assert (omap observed (<[i:=Upserted c f (next_count f tbl) (v_window_ends_at f)]> ss)
            ≡ₚ next_count f tbl :: omap observed ss) as Hperm.
    { by eapply omap_insert_fresh. }
    split; cbn [fst snd].
    + rewrite <-(inv_calls _ Hinv). by eapply session_call_insert.
    + apply Forall_insert; [apply (inv_no_failure _ Hinv)|done].
    + rewrite Hperm at 1. rewrite (Permutation_length Hperm). cbn [length].
      fold base. rewrite seq_snoc_perm, Hnext. constructor. apply (inv_observed _ Hinv).
    + intros Hnil. rewrite Hnil in Hperm.
      by apply Permutation_nil_cons in Hperm.
    + intros _. eexists. split; [rewrite Hfk; apply lookup_insert_eq|]. simpl.
      rewrite (Permutation_length Hperm). cbn [length].
      repeat split; [done|done|done|]. rewrite Hfx. pose proof usec_pos. nia.
  - (* the upsert raises: excluded, the count stays in range *)
    destruct (declare_same_window c) as (f' & Hf & Hfk & Hfn & Hfs & Hfw & Hfe & Hfx).
    { apply (session_same_window _ i _ Hinv Hi). }
    assert (f' = f) as -> by congruence.
    pose proof (upsert_reachable _ f Hinv Hfk Hfs Hfw) as Hnext. simpl in Hnext.
    pose proof (observed_bound _ i c Hinv Hi) as Hbound. simpl in Hbound.
    rewrite upsert_ok in Hu; [done|].
    intros rl Hrl Hs Hw. unfold next_count in Hnext.
    rewrite Hrl, bool_decide_eq_true_2 in Hnext by done.
    unfold int4_min, int4_max in *. lia.
  - (* the cleanup and the return *)
    assert (omap observed (<[i:=Finished c n (output f n e)]> ss)
            = omap observed ss) as Hobs.
    { by eapply omap_insert_same. }
    assert (omap observed ss ≠ []) as Hne.
    { intros Hnil.
      assert (n ∈ omap observed ss) as Hin
        by (apply list_elem_of_omap; exists (Upserted c f n e);
            split; [by eapply list_elem_of_lookup_2|done]).
      rewrite Hnil in Hin. by apply not_elem_of_nil in Hin. }
    destruct (session_same_window _ i _ Hinv Hi) as (_ & Hws & Hst).
    simpl in Hws, Hst.
    split; simpl; rewrite ?Hobs.
    + rewrite <-(inv_calls _ Hinv). by eapply session_call_insert.
    + apply Forall_insert; [apply (inv_no_failure _ Hinv)|done].
    + apply (inv_observed _ Hinv).
    + done.
    + intros _. destruct (inv_row _ Hinv Hne) as (b & Hb & Hrest).
      exists b. split; [|done].
      apply maybe_cleanup_live; [done|].
      destruct Hrest as (_ & _ & _ & Hexp).
      assert (0 < ws) as Hpos by lia.
      pose proof (window_aligned (c_now c) ws Hpos) as Hal.
      cbv zeta in Hal. rewrite Hst in Hal. lia.
Qed.

Lemma inv_steps cfg cfg' : inv cfg → rtc step cfg cfg' → inv cfg'.
Proof. induction 2; eauto using inv_step. Qed.

Lemma inv_all_done cfg :
  inv cfg → all_done cfg.2 →
  Forall (fun s => finished s = true) cfg.2 ∧
  length (omap observed cfg.2) = length calls.
Proof.
  intros Hinv Hdone.
  assert (Forall (fun s => finished s = true) cfg.2) as Hfin.
  { pose proof (inv_no_failure _ Hinv) as Hnf.
    apply Forall_forall. intros s Hs.
    rewrite Forall_forall in Hnf. unfold all_done in Hdone.
    rewrite Forall_forall in Hdone.
    specialize (Hnf s Hs). specialize (Hdone s Hs).
    destruct s; simpl in *; try done. by destruct (Hnf c message). }
  split; [done|].
  rewrite <-(inv_calls _ Hinv), length_fmap. apply omap_length_all.
  eapply Forall_impl; [exact Hfin|]. intros [] ?; simpl in *; by eauto.
Qed.

End same_key.

(** C3.  [N] concurrent calls on one key whose transaction times fall in
    one aligned window: every interleaving of their upserts and cleanups
    that lets all calls return ends with the stored count raised by exactly
    [N] (to [N] when the key had no row of that window), no call fails, and
    the counts the calls read are, in some order, [base + 1, ..., base + N];
    and such a complete interleaving exists. *)
Theorem concurrent_consume_no_lost_update
    (k : string) (started ws : Z) (calls : list call) (tbl0 : table) :
  let base := base_count tbl0 k started ws in
  k ≠ "" →
  calls ≠ [] →
  Forall (same_window k started ws) calls →
  0 ≤ base →
  base + Z.of_nat (length calls) ≤ int4_max →
  (∃ tbl ss, rtc step (tbl0, Pending <$> calls) (tbl, ss) ∧ all_done ss) ∧
  ∀ tbl ss,
    rtc step (tbl0, Pending <$> calls) (tbl, ss) → all_done ss →
    request_count <$> tbl !! k = Some (base + Z.of_nat (length calls)) ∧
    Forall (fun s => finished s = true) ss ∧
    omap observed ss ≡ₚ
      (fun j => base + Z.of_nat j) <$> seq 1 (length calls).
Proof.
  intros base Hk Hne Hcalls Hbase Hmax. split.
  - destruct (run_to_completion (tbl0, Pending <$> calls))
      as ([tbl ss] & Hrun & Hdone).
    by exists tbl, ss.
  - intros tbl ss Hrun Hdone.
    pose proof (inv_steps k started ws calls tbl0 Hk Hcalls Hbase Hmax
                  _ _ (inv_init _ _ _ _ _ Hcalls Hmax) Hrun) as Hinv.
    destruct (inv_all_done _ _ _ _ _ _ Hinv Hdone) as [Hfin Hlen].
    simpl in *. split; [|split; [done|]].
    + destruct (inv_row _ Hinv) as (b & Hb & _ & _ & Hc & _).
      { simpl. intros Hnil. rewrite Hnil in Hlen.
        destruct calls; [done|discriminate]. }
      simpl in Hb, Hc. rewrite Hb. simpl. by rewrite Hc, Hlen.
    + rewrite <-Hlen. apply (inv_observed _ Hinv).
Qed.

(** Three calls in the window starting at 1699999980, one of them with a
    padded key, on an empty table. *)
Lemma concurrent_consume_no_lost_update_witness :
  let calls :=
    [ {| c_rnd := true; c_now := 1700000000123456; c_key := Some "k";
         c_max := Some 3; c_ws := Some 60 |};
      {| c_rnd := false; c_now := 1700000001000000; c_key := Some " k ";
         c_max := Some 3; c_ws := Some 60 |};
      {| c_rnd := true; c_now := 1700000039999999; c_key := Some "k";
         c_max := Some 2; c_ws := Some 60 |} ] in
  (∃ tbl ss, rtc step (∅, Pending <$> calls) (tbl, ss) ∧ all_done ss) ∧
  ∀ tbl ss,
    rtc step (∅, Pending <$> calls) (tbl, ss) → all_done ss →
    request_count <$> tbl !! "k" = Some 3 ∧
    Forall (fun s => finished s = true) ss ∧
    omap observed ss ≡ₚ [1; 2; 3].
Proof.
  intros calls.
  assert ("k" ≠ "") as Hk by discriminate.
  assert (calls ≠ []) as Hne by discriminate.
  assert (Forall (same_window "k" 1699999980000000 60) calls) as Hw
    by (repeat constructor).
  assert (0 ≤ base_count ∅ "k" 1699999980000000 60) as Hbase
    by (vm_compute; discriminate).
  assert (base_count ∅ "k" 1699999980000000 60 + Z.of_nat (length calls)
          ≤ int4_max) as Hmax by (vm_compute; discriminate).
  exact (concurrent_consume_no_lost_update "k" 1699999980000000 60 calls ∅
           Hk Hne Hw Hbase Hmax).
Defined.

End ConcurrentConsumeFacts.

(** ** The rate limiter *)

Module RateLimiterFacts.
Import RateLimiter.

Lemma slice0_nonempty n s : s ≠ "" → slice0 (S n) s ≠ "".
Proof. by destruct s. Qed.

Lemma length_pos_nonempty s : (0 < String.length s)%nat ↔ s ≠ "".
Proof. destruct s; simpl; split; (done || lia). Qed.

Lemma normalizeKeyPart_nonempty value fallback :
  fallback ≠ "" → normalizeKeyPart value fallback ≠ "".
Proof.
  intros Hf. unfold normalizeKeyPart.
  destruct (Nat.ltb_spec 0 (String.length (replace_unsafe (toLowerCase (js_trim value)))))
    as [Hlen|Hlen]; [|done].
  apply slice0_nonempty. by apply length_pos_nonempty.
Qed.

Lemma length_slice0 n s : String.length (slice0 n s) = min n (String.length s).
Proof.
  revert s. induction n as [|n IH]; intros [|c s]; simpl; try done.
  by rewrite IH.
Qed.

(** The reported rows that the limiter turns into results. *)
Lemma consumeReply_reports production reply row :
  reports reply row →
  consumeReply production reply =
    inr {| res_allowed := RateLimitStore.allowed row;
           retryAfterSeconds :=
             Z.max 0 (RateLimitStore.retry_after_seconds row) |}.
Proof. intros [[ends ->] _]. reflexivity. Qed.

(** A row of [rate_limit_consume] that denies asks to wait a second or
    more. *)
Lemma blocked_row_retry rnd now key mx ws (tbl tbl' : gmap string _) row :
  RateLimitStore.rate_limit_consume rnd now key mx ws tbl = Ok (tbl', row) →
  RateLimitStore.allowed row = false →
  1 ≤ RateLimitStore.retry_after_seconds row.
Proof.
  unfold RateLimitStore.rate_limit_consume. intros Hrun.
  destruct (RateLimitStore.declare now key mx ws) as [f|]; [|done].
  simpl in Hrun.
  destruct (RateLimitStore.upsert f tbl) as [[tbl1 [n e]]|]; [|done].
  simpl in Hrun. injection Hrun as <- <-.
  unfold RateLimitStore.output. simpl. intros ->. lia.
Qed.

Lemma fold_max_ge (l : list ConsumeResult) (a : Z) :
  a ≤ fold_left (fun m r => Z.max m (retryAfterSeconds r)) l a.
Proof.
  revert a. induction l as [|r l IH]; intros a; simpl; [lia|].
  specialize (IH (Z.max a (retryAfterSeconds r))). lia.
Qed.

Lemma fold_max_upper (l : list ConsumeResult) (a : Z) r :
  r ∈ l → retryAfterSeconds r ≤ fold_left (fun m r => Z.max m (retryAfterSeconds r)) l a.
Proof.
  revert a. induction l as [|r' l IH]; intros a Hin; simpl.
  - by apply not_elem_of_nil in Hin.
  - apply elem_of_cons in Hin as [->|Hin]; [|by apply IH].
    pose proof (fold_max_ge l (Z.max a (retryAfterSeconds r'))). lia.
Qed.

Lemma fold_max_attained (l : list ConsumeResult) (a : Z) :
  fold_left (fun m r => Z.max m (retryAfterSeconds r)) l a = a ∨
  ∃ r, r ∈ l ∧
       fold_left (fun m r => Z.max m (retryAfterSeconds r)) l a
       = retryAfterSeconds r.
Proof.
  revert a. induction l as [|r' l IH]; intros a; simpl; [by left|].
  destruct (IH (Z.max a (retryAfterSeconds r'))) as [Heq|(r & Hin & Heq)].
  - rewrite Heq. destruct (Z.max_spec a (retryAfterSeconds r')) as [[_ ->]|[_ ->]].
    + right. exists r'. split; [left|done].
    + by left.
  - right. exists r. split; [by right|done].
Qed.

Lemma prefix_app s t : String.prefix s (s +:+ t) = true.
Proof.
  induction s as [|c s IH]; simpl; [by destruct t|].
  destruct (ascii_dec c c); [exact IH|done].
Qed.

Lemma trimEnd_cons_nonspace c s :
  is_js_space c = false → trimEnd (String c s) = String c (trimEnd s).
Proof. intros Hc. simpl. rewrite Hc. by destruct (trimEnd s). Qed.

Lemma trimEnd_app_keep s t :
  trimEnd t ≠ "" → trimEnd (s +:+ t) = s +:+ trimEnd t.
Proof.
  intros Ht. induction s as [|c s IH]; [done|].
  change (String c s +:+ t) with (String c (s +:+ t)).
  change (String c s +:+ trimEnd t) with (String c (s +:+ trimEnd t)).
  cbn [trimEnd]. rewrite IH.
  destruct (s +:+ trimEnd t) eqn:Heq; [|done].
  destruct s; [by destruct (Ht Heq)|discriminate Heq].
Qed.

(** Whatever the detail, the message thrown for a failed RPC starts with
    the fixed text. *)
Lemma consumeReply_unavailable production message :
  ∃ m, consumeReply production (RpcError message) = inl (Error m) ∧
       String.prefix "Rate-limit backend unavailable." m = true.
Proof.
  unfold consumeReply. destruct production; simpl.
  - eexists. split; [done|]. reflexivity.
  - eexists. split; [done|].
    set (detail := if bool_decide (message = "") then "" else " " +:+ message).
    change ("Rate-limit backend unavailable." +:+ detail)
      with ("Rate-limit backend unavailable" +:+ String "." detail).
    assert (js_trim ("Rate-limit backend unavailable" +:+ String "." detail)
            = "Rate-limit backend unavailable" +:+ String "." (trimEnd detail))
      as ->.
    { unfold js_trim.
      change (trimStart ("Rate-limit backend unavailable" +:+ String "." detail))
        with ("Rate-limit backend unavailable" +:+ String "." detail).
      rewrite trimEnd_app_keep.
      - by rewrite trimEnd_cons_nonspace.
      - by rewrite trimEnd_cons_nonspace. }
    change ("Rate-limit backend unavailable" +:+ String "." (trimEnd detail))
      with ("Rate-limit backend unavailable." +:+ trimEnd detail).
    apply prefix_app.
Qed.

Lemma filter_blocked_rows (rows : list RateLimitStore.consume_row) :
  filter (fun result => res_allowed result = false) (to_result <$> rows)
  = to_result <$> filter (fun row => RateLimitStore.allowed row = false) rows.
Proof.
  induction rows as [|row rows IH]; [done|].
  rewrite fmap_cons, !filter_cons. simpl.
  destruct (decide (RateLimitStore.allowed row = false)); by rewrite IH.
Qed.

Lemma promise_all_reports production replies
    (rows : list RateLimitStore.consume_row) :
  Forall2 reports replies rows →
  promise_all (consumeReply production <$> replies) = inr (to_result <$> rows).
Proof.
  induction 1 as [|reply row replies rows Hrep _ IH]; [done|].
  rewrite !fmap_cons. rewrite (consumeReply_reports _ _ _ Hrep).
  cbn [promise_all]. by rewrite IH.
Qed.

Lemma promise_all_unavailable production replies :
  Forall (fun reply => (∃ m, reply = RpcError m) ∨ ∃ row, reports reply row)
    replies →
  (∃ m, RpcError m ∈ replies) →
  ∃ m, promise_all (consumeReply production <$> replies) = inl (Error m) ∧
       String.prefix "Rate-limit backend unavailable." m = true.
Proof.
  induction 1 as [|reply replies Hreply _ IH]; intros [m Hin].
  - by apply not_elem_of_nil in Hin.
  - rewrite fmap_cons. destruct Hreply as [[m' ->]|[row Hrep]].
    + destruct (consumeReply_unavailable production m') as (m'' & -> & Hpre).
      by exists m''.
    + rewrite (consumeReply_reports _ _ _ Hrep). cbn [promise_all].
      apply elem_of_cons in Hin as [Heq|Hin].
      { subst reply. by destruct Hrep as [[? ?] _]. }
      destruct IH as (m'' & -> & Hpre); [by exists m|]. by exists m''.
Qed.

Section limiter.
Context {World : Type}.
Variable rpc : string → Z → Z → World → World * rpc_response.
Variables (production service_env : bool) (sha256_hex : string → string).
Hypothesis env_set : service_env = true.
Hypothesis sha256_length : ∀ s, String.length (sha256_hex s) = 64%nat.

Lemma toHashedKeyPart_nonempty value : toHashedKeyPart sha256_hex value ≠ "".
Proof.
  unfold toHashedKeyPart. case_bool_decide; [done|].
  apply length_pos_nonempty. rewrite length_slice0, sha256_length. lia.
Qed.

Lemma identifier_nonempty (target : DurableRateLimitTarget) :
  (if default false (hashIdentifier target)
   then toHashedKeyPart sha256_hex (identifier target)
   else normalizeKeyPart (identifier target) "unknown") ≠ "".
Proof.
  destruct (default false (hashIdentifier target)).
  - apply toHashedKeyPart_nonempty.
  - by apply normalizeKeyPart_nonempty.
Qed.

Local Abbreviation normalized := (normalizeTarget sha256_hex).

(** No target is dropped by the filter on empty identifiers. *)
Lemma filter_keeps_all (ts : list DurableRateLimitTarget) :
  filter (fun target => (0 < String.length (identifier target))%nat)
    (normalized <$> ts)
  = normalized <$> ts.
Proof.
  induction ts as [|t ts IH]; [done|].
  rewrite fmap_cons, filter_cons_True; [by rewrite IH|].
  apply length_pos_nonempty, identifier_nonempty.
Qed.

Lemma consumeBucket_issue key r (w : World) :
  consumeBucket rpc production service_env key r w
  = ((rpc key (normalizeRule r).1 (normalizeRule r).2 w).1,
     consumeReply production
       (rpc key (normalizeRule r).1 (normalizeRule r).2 w).2).
Proof.
  unfold consumeBucket. rewrite env_set. simpl.
  by destruct (rpc _ _ _ w).
Qed.

(** Starting the calls sends one request per target, in order, and each
    call settles to what [consumeReply] makes of its reply. *)
Lemma start_all_issue act (ts : list DurableRateLimitTarget) (w : World) :
  start_all
    ((fun target =>
        consumeBucket rpc production service_env
          ("rl:" +:+ normalizeKeyPart act "action" +:+ ":"
           +:+ scope target +:+ ":" +:+ identifier target)
          (rule target))
       <$> (normalized <$> ts)) w
  = ((issue rpc (target_request sha256_hex act <$> ts) w).1,
     consumeReply production <$>
       (issue rpc (target_request sha256_hex act <$> ts) w).2).
Proof.
  revert w. induction ts as [|t ts IH]; intros w; [done|].
  rewrite !fmap_cons. cbn [start_all issue target_request].
  rewrite consumeBucket_issue. cbn [scope identifier rule normalizeTarget].
  destruct (rpc _ _ _ w) as [w1 reply]. cbn [fst snd].
  rewrite IH.
  by destruct (issue rpc (target_request sha256_hex act <$> ts) w1).
Qed.

Lemma enforce_unfold options (w : World) :
  let requests := target_request sha256_hex (action options) <$> targets options in
  enforceDurableRateLimit rpc production service_env sha256_hex options w
  = ((issue rpc requests w).1,
     match promise_all (consumeReply production <$> (issue rpc requests w).2) with
     | inl e => inl e
     | inr results =>
         let blocked :=
           filter (fun result => res_allowed result = false) results in
         if (length blocked =? 0)%nat then inr tt
         else inl (new_RateLimitExceededError
                     (fold_left
                        (fun maxSeconds result =>
                           Z.max maxSeconds (retryAfterSeconds result))
                        blocked 1))
     end).
Proof.
  intros requests. unfold enforceDurableRateLimit.
  rewrite filter_keeps_all, start_all_issue. fold requests.
  rewrite length_fmap.
  destruct (targets options) as [|t ts] eqn:Hts; [done|].
  cbn [length Nat.eqb].
  destruct (promise_all _) as [e|results]; [done|].
  cbv zeta. by destruct (length _ =? 0)%nat.
Qed.

End limiter.

Lemma reports_retry reply row :
  reports reply row →
  RateLimitStore.allowed row = false →
  1 ≤ RateLimitStore.retry_after_seconds row.
Proof.
  intros [_ (rnd & now & key & mx & ws & tbl & tbl' & Hrun)].
  by eapply blocked_row_retry.
Qed.

(** The value the error carries is the greatest wait among the blocked
    rows, when each of them asks for a second or more. *)
Lemma carried_is_maximum (blocked : list RateLimitStore.consume_row) :
  blocked ≠ [] →
  Forall (fun row => 1 ≤ RateLimitStore.retry_after_seconds row) blocked →
  let r :=
    Z.max 1
      (fold_left (fun m result => Z.max m (retryAfterSeconds result))
         (to_result <$> blocked) 1) in
  r ∈ RateLimitStore.retry_after_seconds <$> blocked ∧
  ∀ row, row ∈ blocked → RateLimitStore.retry_after_seconds row ≤ r.
Proof.
  intros Hne Hpos r.
  assert (∀ row, row ∈ blocked →
            retryAfterSeconds (to_result row)
            = RateLimitStore.retry_after_seconds row) as Hconv.
  { intros row Hin. rewrite Forall_forall in Hpos. specialize (Hpos row Hin).
    unfold to_result. simpl. lia. }
  assert (∀ row, row ∈ blocked → RateLimitStore.retry_after_seconds row ≤ r)
    as Hupper.
  { intros row Hin. rewrite <-(Hconv row Hin).
    pose proof (fold_max_upper (to_result <$> blocked) 1 (to_result row)
                  (list_elem_of_fmap_2 _ _ _ Hin)). unfold r. lia. }
  split; [|done].
  pose proof (fold_max_ge (to_result <$> blocked) 1) as Hge.
  destruct (fold_max_attained (to_result <$> blocked) 1)
    as [Heq|(res & Hin & Heq)].
  - destruct blocked as [|row rest]; [done|].
    assert (row ∈ row :: rest) as Hin by left.
    specialize (Hupper row Hin). rewrite Forall_forall in Hpos.
    specialize (Hpos row Hin). unfold r in *. rewrite Heq in *.
    apply list_elem_of_fmap. exists row. split; [lia|done].
  - apply list_elem_of_fmap in Hin as (row & -> & Hin).
    apply list_elem_of_fmap. exists row. split; [|done].
    unfold r. rewrite Heq, (Hconv row Hin). rewrite Forall_forall in Hpos.
    specialize (Hpos row Hin). lia.
Qed.

(** C4.  With the service environment set, [enforceDurableRateLimit] sends
    one [rate_limit_consume] request per target.  When every reply reports
    a row, it throws [RateLimitExceededError] exactly when some row is not
    allowed, and the error carries the greatest [retry_after_seconds] of the
    blocked rows.  When some call cannot reach the store, it throws a plain
    [Error] whose message starts with "Rate-limit backend unavailable.",
    which is not a [RateLimitExceededError]. *)
Theorem enforceDurableRateLimit_spec {World : Type}
    (rpc : string → Z → Z → World → World * rpc_response)
    (production service_env : bool) (sha256_hex : string → string)
    (options : EnforceDurableRateLimitOptions) (w : World) :
  service_env = true →
  (∀ s, String.length (sha256_hex s) = 64%nat) →
  let requests :=
    target_request sha256_hex (action options) <$> targets options in
  let replies := (issue rpc requests w).2 in
  let result :=
    enforceDurableRateLimit rpc production service_env sha256_hex options w in
  length requests = length (targets options) ∧
  result.1 = (issue rpc requests w).1 ∧
  (∀ rows : list RateLimitStore.consume_row,
     Forall2 reports replies rows →
     let blocked :=
       filter (fun row => RateLimitStore.allowed row = false) rows in
     ((∃ r, result.2 = inl (RateLimitExceededError r)) ↔ blocked ≠ []) ∧
     (blocked = [] → result.2 = inr tt) ∧
     (∀ r, result.2 = inl (RateLimitExceededError r) →
           r ∈ RateLimitStore.retry_after_seconds <$> blocked ∧
           ∀ row, row ∈ blocked →
                  RateLimitStore.retry_after_seconds row ≤ r)) ∧
  (Forall (fun reply => (∃ m, reply = RpcError m) ∨ ∃ row, reports reply row)
     replies →
   (∃ m, RpcError m ∈ replies) →
   ∃ m, result.2 = inl (Error m) ∧
        String.prefix "Rate-limit backend unavailable." m = true).
Proof.
  intros Henv Hsha requests replies result.
  assert (result =
    ((issue rpc requests w).1,
     match promise_all (consumeReply production <$> replies) with
     | inl e => inl e
     | inr results =>
         let blocked :=
           filter (fun result => res_allowed result = false) results in
         if (length blocked =? 0)%nat then inr tt
         else inl (new_RateLimitExceededError
                     (fold_left
                        (fun maxSeconds result =>
                           Z.max maxSeconds (retryAfterSeconds result))
                        blocked 1))
     end)) as Hresult
    by (apply enforce_unfold; done).
  split; [apply length_fmap|]. split; [by rewrite Hresult|].
  rewrite Hresult. cbn [snd]. split.
  - intros rows Hrows.
    set (blocked := filter (fun row => RateLimitStore.allowed row = false) rows).
    rewrite (promise_all_reports _ _ _ Hrows). cbv zeta.
    rewrite filter_blocked_rows. fold blocked. rewrite length_fmap.
    assert (Forall (fun row => 1 ≤ RateLimitStore.retry_after_seconds row)
              blocked) as Hpos.
    { apply Forall_forall. intros row Hin.
      apply list_elem_of_filter in Hin as [Hblocked Hin].
      apply list_elem_of_lookup in Hin as [i Hi].
      destruct (Forall2_lookup_r _ _ _ _ _ Hrows Hi) as (reply & _ & Hrep).
      by eapply reports_retry. }
    pose proof (carried_is_maximum blocked) as Hmax.
    clearbody blocked.
    destruct blocked as [|row rest]; cbn [length Nat.eqb].
    + split; [|split]; [|done|done].
      split; [intros [r Hr]; done|done].
    + split; [|split].
      * split; [done|]. intros _. by eexists.
      * done.
      * intros r [= <-]. by apply Hmax.
  - intros Hreplies Hsome.
    destruct (promise_all_unavailable production replies Hreplies Hsome)
      as (m & -> & Hpre).
    by exists m.
Qed.

(** A user who has used up a quota of one request per minute, checked
    together with the caller's address: the store denies the first target
    for 40 seconds and allows the second, and the limiter throws with 40. *)
Lemma enforceDurableRateLimit_spec_witness :
  let rpc := sql_rpc false 1700000000123456 "2023-11-14T22:14:00+00:00" in
  let sha := fun _ : string =>
    "9f86d081884c7d659a2feaa0c55ad015a3bf4f1b2b0b822cd15d6c15b0f00a08" in
  let options :=
    {| action := "Create Vehicle";
       targets :=
         [ {| scope := "user"; identifier := "U1";
              rule := {| maxRequests := 1; windowMs := 60000 |};
              hashIdentifier := None |};
           {| scope := "ip"; identifier := "10.0.0.1";
              rule := {| maxRequests := 5; windowMs := 60000 |};
              hashIdentifier := Some true |} ] |} in
  let tbl : gmap string RateLimitStore.bucket :=
    {[ "rl:create_vehicle:user:u1" :=
         {| RateLimitStore.window_started_at := 1699999980000000;
            RateLimitStore.window_seconds := 60;
            RateLimitStore.request_count := 1;
            RateLimitStore.window_ends_at := 1700000040000000;
            RateLimitStore.expires_at := 1700000640000000;
            RateLimitStore.updated_at := 1699999990000000 |} ]} in
  (enforceDurableRateLimit rpc true true sha options tbl).2
  = inl (RateLimitExceededError 40).
Proof.
  intros rpc sha options tbl.
  destruct (enforceDurableRateLimit_spec rpc true true sha options tbl
              eq_refl (fun _ => eq_refl)) as (_ & _ & Hreported & _).
  specialize (Hreported
    [ {| RateLimitStore.allowed := false; RateLimitStore.remaining := 0;
         RateLimitStore.retry_after_seconds := 40;
         RateLimitStore.out_window_ends_at := 1700000040000000 |};
      {| RateLimitStore.allowed := true; RateLimitStore.remaining := 4;
         RateLimitStore.retry_after_seconds := 0;
         RateLimitStore.out_window_ends_at := 1700000040000000 |} ]).
  destruct Hreported as (Hiff & _ & Hmax).
  - constructor; [|constructor; [|constructor]].
    + split; [by eexists|].
      exists false, 1700000000123456, (Some "rl:create_vehicle:user:u1"),
        (Some 1), (Some 60), tbl. by eexists.
    + split; [by eexists|].
      exists false, 1700000000123456, (Some "ip"), (Some 5), (Some 60), ∅.
      by eexists.
  - destruct (proj2 Hiff) as [r Hr]; [discriminate|].
    destruct (Hmax r Hr) as [Hin _].
    apply list_elem_of_singleton in Hin. by rewrite Hr, Hin.
Defined.

(** C10.  With no target at all, [enforceDurableRateLimit] returns normally
    and leaves the backend as it was, whatever the backend would have
    answered and even without the service environment: no request is sent.
    On the SQL store in particular, no bucket row is created or changed. *)
Theorem enforceDurableRateLimit_no_targets :
  (∀ (World : Type) (rpc : string → Z → Z → World → World * rpc_response)
     production service_env sha256_hex act (w : World),
     enforceDurableRateLimit rpc production service_env sha256_hex
       {| action := act; targets := [] |} w = (w, inr tt)) ∧
  (∀ rnd now ends_text production service_env sha256_hex act
     (tbl : gmap string RateLimitStore.bucket),
     enforceDurableRateLimit (sql_rpc rnd now ends_text)
       production service_env sha256_hex
       {| action := act; targets := [] |} tbl = (tbl, inr tt)).
Proof. split; reflexivity. Qed.

End RateLimiterFacts.

(** ** Public visibility *)

Module PublicViewsFacts.
Import Schema Policies PublicViews.

Lemma anon_profiles d id p :
  visible_profiles Anon d !! id = Some p ↔
  profiles d !! id = Some p ∧ is_Some (Profile.username p).
Proof.
  unfold visible_profiles. rewrite map_lookup_filter_Some. simpl.
  unfold profiles_public_select. rewrite bool_decide_eq_true. done.
Qed.

Lemma anon_profile_published d pid :
  match visible_profiles Anon d !! pid with
  | Some p => bool_decide (is_Some (Profile.username p))
  | None => false
  end = true ↔ published d pid.
Proof.
  unfold published. split.
  - destruct (visible_profiles Anon d !! pid) as [p|] eqn:Hp; [|done].
    apply anon_profiles in Hp as [Hp Hu]. eauto.
  - intros (p & Hp & Hu).
    rewrite (proj2 (anon_profiles d pid p)) by done.
    by apply bool_decide_eq_true.
Qed.

Lemma anon_vehicle_policy d v :
  vehicles_public_select Anon d v = true ↔ vehicle_public d v.
Proof.
  unfold vehicles_public_select, vehicle_public.
  rewrite andb_true_iff, anon_profile_published. done.
Qed.

Lemma anon_vehicles d id v :
  visible_vehicles Anon d !! id = Some v ↔
  vehicles d !! id = Some v ∧ vehicle_public d v.
Proof.
  unfold visible_vehicles. rewrite map_lookup_filter_Some. simpl.
  by rewrite anon_vehicle_policy.
Qed.

Lemma anon_vehicle_join d vid :
  match visible_vehicles Anon d !! vid with
  | Some v =>
      match visible_profiles Anon d !! Vehicle.profile_id v with
      | Some p => Vehicle.is_public v && bool_decide (is_Some (Profile.username p))
      | None => false
      end
  | None => false
  end = true ↔
  ∃ v, vehicles d !! vid = Some v ∧ vehicle_public d v.
Proof.
  split.
  - destruct (visible_vehicles Anon d !! vid) as [v|] eqn:Hv; [|done].
    apply anon_vehicles in Hv. eauto.
  - intros (v & Hv & Hpub).
    rewrite (proj2 (anon_vehicles d vid v)) by done.
    destruct Hpub as [Hpublic Hpublished].
    apply anon_profile_published in Hpublished.
    destruct (visible_profiles Anon d !! Vehicle.profile_id v); [|done].
    by rewrite Hpublic.
Qed.

Lemma anon_mod_policy d m :
  mods_public_select Anon d m = true ↔ mod_public d m.
Proof. apply anon_vehicle_join. Qed.

Lemma anon_mods d id m :
  visible_mods Anon d !! id = Some m ↔
  mods d !! id = Some m ∧ mod_public d m.
Proof.
  unfold visible_mods. rewrite map_lookup_filter_Some. simpl.
  by rewrite anon_mod_policy.
Qed.

Lemma anon_mod_join d mid :
  match visible_mods Anon d !! mid with
  | Some m =>
      match visible_vehicles Anon d !! Mod.vehicle_id m with
      | Some v =>
          match visible_profiles Anon d !! Vehicle.profile_id v with
          | Some p =>
              Vehicle.is_public v && bool_decide (is_Some (Profile.username p))
          | None => false
          end
      | None => false
      end
  | None => false
  end = true ↔
  ∃ m, mods d !! mid = Some m ∧ mod_public d m.
Proof.
  split.
  - destruct (visible_mods Anon d !! mid) as [m|] eqn:Hm; [|done].
    apply anon_mods in Hm. eauto.
  - intros (m & Hm & Hpub).
    rewrite (proj2 (anon_mods d mid m)) by done.
    by apply anon_vehicle_join.
Qed.

Lemma anon_image_policy d i :
  images_public_select Anon d i = true ↔ image_public d i.
Proof.
  unfold images_public_select, image_public. rewrite orb_true_iff.
  apply Morphisms_Prop.or_iff_morphism.
  - destruct (Image.vehicle_id i) as [vid|].
    + rewrite anon_vehicle_join. split.
      * intros (v & ? & ?). by exists vid, v.
      * intros (? & v & [= <-] & ? & ?). by exists v.
    + split; [done|]. by intros (? & ? & ? & _).
  - destruct (Image.mod_id i) as [mid|].
    + rewrite anon_mod_join. split.
      * intros (m & ? & ?). by exists mid, m.
      * intros (? & m & [= <-] & ? & ?). by exists m.
    + split; [done|]. by intros (? & ? & ? & _).
Qed.

Lemma anon_images d id i :
  visible_images Anon d !! id = Some i ↔
  images d !! id = Some i ∧ image_public d i.
Proof.
  unfold visible_images. rewrite map_lookup_filter_Some. simpl.
  by rewrite anon_image_policy.
Qed.

Lemma view_vehicles d id v :
  public_vehicles Anon d !! id = Some v ↔
  vehicles d !! id = Some v ∧ vehicle_public d v.
Proof.
  unfold public_vehicles. rewrite map_lookup_filter_Some, anon_vehicles.
  simpl. rewrite andb_true_iff, anon_profile_published.
  unfold vehicle_public. tauto.
Qed.

Lemma view_mods d id m :
  public_mods Anon d !! id = Some m ↔
  mods d !! id = Some m ∧ mod_public d m.
Proof.
  unfold public_mods. rewrite map_lookup_filter_Some, anon_mods.
  simpl. rewrite anon_vehicle_join. unfold mod_public. tauto.
Qed.

Lemma view_images d id i :
  public_images Anon d !! id = Some i ↔
  images d !! id = Some i ∧ image_public d i.
Proof.
  unfold public_images. rewrite map_lookup_filter_Some, anon_images.
  simpl. pose proof (anon_image_policy d i) as Hpol.
  unfold images_public_select in Hpol. rewrite Hpol. tauto.
Qed.

Lemma hidden_vehicle vid now d v :
  vehicles (set_is_public vid false now d) !! vid = Some v →
  Vehicle.is_public v = false.
Proof.
  unfold set_is_public. simpl. rewrite lookup_alter_eq.
  destruct (vehicles d !! vid); simpl; [|done]. by intros [= <-].
Qed.

Lemma hidden_mod vid now d m :
  Mod.vehicle_id m = vid → ¬ mod_public (set_is_public vid false now d) m.
Proof.
  intros Hvid (v & Hv & Hpublic & _). rewrite Hvid in Hv.
  apply hidden_vehicle in Hv. congruence.
Qed.

(** C6.  For an anonymous reader, in every state of the tables: a vehicle
    is shown by [public_vehicles] exactly when it is public and its profile
    has a username; a mod is shown by [public_mods] exactly when its
    vehicle is; an image is shown by [public_images] exactly when the
    vehicle or the mod it links is; the table policies let through the same
    rows.  After [is_public] of a vehicle is set to false, the views show
    neither that vehicle, nor any of its mods, nor any image linked to it
    or to one of its mods. *)
Theorem public_visibility (d : db) :
  (∀ id v, public_vehicles Anon d !! id = Some v ↔
           vehicles d !! id = Some v ∧ vehicle_public d v) ∧
  (∀ id m, public_mods Anon d !! id = Some m ↔
           mods d !! id = Some m ∧ mod_public d m) ∧
  (∀ id i, public_images Anon d !! id = Some i ↔
           images d !! id = Some i ∧ image_public d i) ∧
  (visible_vehicles Anon d = public_vehicles Anon d ∧
   visible_mods Anon d = public_mods Anon d ∧
   visible_images Anon d = public_images Anon d) ∧
  (∀ vid now,
     let d' := set_is_public vid false now d in
     public_vehicles Anon d' !! vid = None ∧
     (∀ mid m, mods d' !! mid = Some m → Mod.vehicle_id m = vid →
               public_mods Anon d' !! mid = None) ∧
     (∀ iid i, images d' !! iid = Some i →
               images_exactly_one_parent i = true →
               (Image.vehicle_id i = Some vid ∨
                ∃ mid m, Image.mod_id i = Some mid ∧
                         mods d' !! mid = Some m ∧ Mod.vehicle_id m = vid) →
               public_images Anon d' !! iid = None)).
Proof.
  split; [apply view_vehicles|]. split; [apply view_mods|].
  split; [apply view_images|]. split.
  - split; [|split]; apply map_eq; intros id; apply option_eq; intros x.
    + by rewrite view_vehicles, anon_vehicles.
    + by rewrite view_mods, anon_mods.
    + by rewrite view_images, anon_images.
  - intros vid now d'. split; [|split].
    + apply eq_None_not_Some. intros [v Hv].
      apply view_vehicles in Hv as [Hv [Hpublic _]].
      apply hidden_vehicle in Hv. congruence.
    + intros mid m Hm Hvid. apply eq_None_not_Some. intros [m' Hm'].
      apply view_mods in Hm' as [Hm' Hpub].
      assert (m' = m) as -> by congruence.
      by apply (hidden_mod vid now d m).
    + intros iid i Hi Hone Hlink. apply eq_None_not_Some. intros [i' Hi'].
      apply view_images in Hi' as [Hi' Hpub].
      assert (i' = i) as -> by congruence.
      unfold images_exactly_one_parent in Hone.
      destruct Hpub as [(vid' & v & Hvid' & Hv & Hpublic & _)
                       |(mid' & m' & Hmid' & Hm' & Hpub)].
      * rewrite Hvid' in Hone. destruct Hlink as [Hl|(mid & m & Hl & _)].
        -- assert (vid' = vid) as -> by congruence.
           apply hidden_vehicle in Hv. congruence.
        -- rewrite Hl in Hone. done.
      * rewrite Hmid' in Hone. destruct Hlink as [Hl|(mid & m & Hl & Hm & Hvid)].
        -- rewrite Hl in Hone. done.
        -- assert (mid' = mid) as -> by congruence.
           assert (m' = m) as -> by congruence.
           by apply (hidden_mod vid now d m).
Qed.

(** In [garage], hiding vehicle 10 hides it, its mods 30 and 31 and the
    images 40 (of mod 30) and 41 (of the vehicle) from the anonymous
    reader, who could read them before. *)
Lemma public_visibility_witness :
  let d' := set_is_public 10%N false 9 Sample.garage in
  is_Some (public_vehicles Anon Sample.garage !! 10%N) ∧
  is_Some (public_mods Anon Sample.garage !! 30%N) ∧
  is_Some (public_images Anon Sample.garage !! 40%N) ∧
  public_vehicles Anon d' !! 10%N = None ∧
  public_mods Anon d' !! 30%N = None ∧
  public_images Anon d' !! 40%N = None ∧
  public_images Anon d' !! 41%N = None.
Proof.
  intros d'.
  destruct (public_visibility Sample.garage) as (_ & _ & _ & _ & Hhide).
  destruct (Hhide 10%N 9) as (Hv & Hm & Hi). fold d' in Hv, Hm, Hi.
  split; [by eexists|]. split; [by eexists|]. split; [by eexists|].
  split; [exact Hv|]. split; [|split].
  - apply (Hm 30%N (Sample.mod_ 10%N 0 5)); reflexivity.
  - apply (Hi 40%N (Sample.image 1%N None (Some 30%N) "mods/30/a.jpg"));
      [reflexivity|reflexivity|].
    right. exists 30%N, (Sample.mod_ 10%N 0 5). by repeat split.
  - apply (Hi 41%N (Sample.image 1%N (Some 10%N) None "vehicles/10/b.jpg"));
      [reflexivity|reflexivity|by left].
Defined.

End PublicViewsFacts.

(** ** Ownership of images *)

Module DataLayerFacts.
Import Schema Policies DataLayer.

Lemma uid_is_true r id : uid_is r id = true ↔ auth_uid r = Some id.
Proof. unfold uid_is. apply bool_decide_eq_true. Qed.

Lemma visible_vehicles_stored r d vid v :
  visible_vehicles r d !! vid = Some v → vehicles d !! vid = Some v.
Proof. unfold visible_vehicles. by intros [? _]%map_lookup_filter_Some. Qed.

Lemma visible_mods_stored r d mid m :
  visible_mods r d !! mid = Some m → mods d !! mid = Some m.
Proof. unfold visible_mods. by intros [? _]%map_lookup_filter_Some. Qed.

Lemma vehicles_owner_uid r d v :
  vehicles_owner r d v = true → auth_uid r = Some (Vehicle.profile_id v).
Proof.
  unfold vehicles_owner.
  destruct (visible_profiles r d !! Vehicle.profile_id v); [|done].
  apply uid_is_true.
Qed.

Lemma mods_owner_root r d m :
  mods_owner r d m = true →
  ∃ u, auth_uid r = Some u ∧ vehicle_root d (Mod.vehicle_id m) = Some u.
Proof.
  unfold mods_owner, vehicle_root.
  destruct (visible_vehicles r d !! Mod.vehicle_id m) as [v|] eqn:Hv; [|done].
  destruct (visible_profiles r d !! Vehicle.profile_id v); [|done].
  intros Hu%uid_is_true. apply visible_vehicles_stored in Hv.
  exists (Vehicle.profile_id v). by rewrite Hv.
Qed.

(** What the owner predicate of [images] requires of the row. *)
Lemma images_owner_sound r d i :
  images_owner r d i = true →
  ∃ u, auth_uid r = Some u ∧ Image.profile_id i = u ∧
       ((∃ vid, Image.vehicle_id i = Some vid ∧ vehicle_root d vid = Some u) ∨
        (∃ mid, Image.mod_id i = Some mid ∧ mod_root d mid = Some u)).
Proof.
  unfold images_owner. intros [Hp Hparent]%andb_true_iff.
  apply uid_is_true in Hp. exists (Image.profile_id i).
  split; [done|]. split; [done|].
  apply orb_true_iff in Hparent as [Hv|Hm]; [left|right].
  - destruct (Image.vehicle_id i) as [vid|]; [|done]. exists vid.
    destruct (visible_vehicles r d !! vid) as [v|] eqn:Hvis; [|done].
    apply uid_is_true in Hv. apply visible_vehicles_stored in Hvis.
    unfold vehicle_root. rewrite Hvis. simpl. split; [done|congruence].
  - destruct (Image.mod_id i) as [mid|]; [|done]. exists mid.
    destruct (visible_mods r d !! mid) as [m|] eqn:Hmod; [|done].
    destruct (visible_vehicles r d !! Mod.vehicle_id m) as [v|] eqn:Hvis;
      [|done].
    apply uid_is_true in Hm. apply visible_mods_stored in Hmod.
    apply visible_vehicles_stored in Hvis.
    unfold mod_root, vehicle_root. rewrite Hmod. simpl. rewrite Hvis. simpl.
    split; [done|congruence].
Qed.

Lemma images_owner_rooted r d i :
  image_checks i = true → images_owner r d i = true → image_rooted d i.
Proof.
  intros [Hone _]%andb_true_iff Hown.
  destruct (images_owner_sound r d i Hown)
    as (u & _ & Hp & [(vid & Hvid & Hroot)|(mid & Hmid & Hroot)]);
    unfold image_rooted, images_exactly_one_parent in *.
  - rewrite Hvid in *. destruct (Image.mod_id i); [done|]. congruence.
  - rewrite Hmid in *. destruct (Image.vehicle_id i); [done|]. congruence.
Qed.

Lemma image_rooted_same_roots d d' i :
  (∀ vid u, vehicle_root d vid = Some u → vehicle_root d' vid = Some u) →
  (∀ mid u, mod_root d mid = Some u → mod_root d' mid = Some u) →
  image_rooted d i → image_rooted d' i.
Proof.
  intros Hv Hm. unfold image_rooted.
  destruct (Image.vehicle_id i), (Image.mod_id i); auto.
Qed.

Lemma mod_root_Some d mid u :
  mod_root d mid = Some u ↔
  ∃ m, mods d !! mid = Some m ∧ vehicle_root d (Mod.vehicle_id m) = Some u.
Proof.
  unfold mod_root. destruct (mods d !! mid) as [m|]; simpl.
  - split; [by exists m|]. by intros (? & [= <-] & ?).
  - split; [done|]. by intros (? & ? & _).
Qed.

Lemma guard_Some b d d' : guard b d = Some d' → b = true ∧ d' = d.
Proof. unfold guard. destruct b; [|done]. by intros [= <-]. Qed.

Lemma has_false {A} (t : gmap uuid A) id : has t id = false ↔ t !! id = None.
Proof.
  unfold has. rewrite bool_decide_eq_false, <-eq_None_not_Some. done.
Qed.

Lemma mod_root_vehicles d d' :
  mods d' = mods d →
  (∀ vid u, vehicle_root d vid = Some u → vehicle_root d' vid = Some u) →
  ∀ mid u, mod_root d mid = Some u → mod_root d' mid = Some u.
Proof.
  intros Hmods Hv mid u (m & Hm & Hroot)%mod_root_Some.
  apply mod_root_Some. exists m. rewrite Hmods. auto.
Qed.

Lemma rooted_images_subset d d' :
  vehicles d' = vehicles d → mods d' = mods d →
  (∀ iid i, images d' !! iid = Some i →
            images d !! iid = Some i ∨ image_rooted d i) →
  rooted d → rooted d'.
Proof.
  intros Hv Hm Hsub Hd iid i Hi.
  assert (image_rooted d i) as Hr
    by (destruct (Hsub iid i Hi) as [?|?]; [by eapply Hd|done]).
  revert Hr. apply image_rooted_same_roots.
  - intros vid u. unfold vehicle_root. by rewrite Hv.
  - apply mod_root_vehicles; [done|]. intros vid u.
    unfold vehicle_root. by rewrite Hv.
Qed.

(** The rows a cascade from vehicles leaves in place keep their roots. *)
Lemma cascade_vehicles_rooted gone d :
  rooted d → rooted (cascade_vehicles gone d).
Proof.
  intros Hd iid i Hi. unfold cascade_vehicles in Hi. simpl in Hi.
  apply map_lookup_filter_Some in Hi as [Hi Hkeep]. simpl in Hkeep.
  apply orb_false_iff in Hkeep as [Hkv Hkm].
  specialize (Hd iid i Hi). unfold image_rooted in *.
  destruct (Image.vehicle_id i) as [vid|], (Image.mod_id i) as [mid|];
    try done; simpl in *.
  - unfold vehicle_root in *. simpl.
    destruct (vehicles d !! vid) as [v|] eqn:Hv; [|done].
    rewrite (proj2 (map_lookup_filter_Some _ _ vid v)); [done|].
    split; [done|]. done.
  - apply mod_root_Some in Hd as (m & Hm & Hroot).
    rewrite Hm in Hkm. apply mod_root_Some. exists m. simpl.
    unfold vehicle_root in *. simpl.
    destruct (vehicles d !! Mod.vehicle_id m) as [v|] eqn:Hv; [|done].
    split.
    + apply map_lookup_filter_Some. split; [done|]. simpl. by rewrite Hv.
    + rewrite (proj2 (map_lookup_filter_Some _ _ (Mod.vehicle_id m) v)); done.
Qed.

Lemma apply_write_rooted r w d d' :
  rooted d → apply_write r w d = Some d' → rooted d'.
Proof.
  intros Hd. unfold apply_write.
  destruct (is_authenticated r); [|done]. simpl.
  destruct w as [id p|id p|id|id v|id v|id|id m|id m|id|id i|id i|id].
  - (* insert into profiles *)
    intros [_ ->]%guard_Some. by apply (rooted_images_subset d); auto.
  - (* update profiles *)
    intros [_ ->]%guard_Some. by apply (rooted_images_subset d); auto.
  - (* delete from profiles *)
    intros [_ ->]%guard_Some.
    pose proof (cascade_vehicles_rooted
                  (fun _ v => bool_decide (Vehicle.profile_id v = id)) d Hd)
      as Hc.
    revert Hc. apply rooted_images_subset; [done|done|].
    intros iid i Hi. simpl in Hi.
    apply map_lookup_filter_Some in Hi as [Hi _]. by left.
  - (* insert into vehicles *)
    intros [Hg ->]%guard_Some.
    apply andb_true_iff in Hg as [[Hfresh%negb_true_iff%has_false _]%andb_true_iff _].
    intros iid i Hi. simpl in Hi. specialize (Hd iid i Hi).
    assert (∀ vid u, vehicle_root d vid = Some u →
              vehicle_root (set_vehicles (<[id:=v]> (vehicles d)) d) vid = Some u)
      as Hroots.
    { intros vid u. unfold vehicle_root. simpl. intros Hvid.
      rewrite lookup_insert_ne; [done|]. intros <-. by rewrite Hfresh in Hvid. }
    revert Hd. apply image_rooted_same_roots; [done|].
    by apply mod_root_vehicles.
  - (* update vehicles *)
    destruct (vehicles d !! id) as [old|] eqn:Hold; [|done].
    intros [Hg ->]%guard_Some.
    apply andb_true_iff in Hg as [[Hu%vehicles_owner_uid _]%andb_true_iff
                                    Hc%vehicles_owner_uid].
    intros iid i Hi. simpl in Hi. specialize (Hd iid i Hi).
    assert (∀ vid u, vehicle_root d vid = Some u →
              vehicle_root (set_vehicles (<[id:=v]> (vehicles d)) d) vid = Some u)
      as Hroots.
    { intros vid u. unfold vehicle_root. simpl. intros Hvid.
      destruct (decide (id = vid)) as [<-|Hne].
      - rewrite lookup_insert_eq. rewrite Hold in Hvid. simpl in *. congruence.
      - by rewrite lookup_insert_ne. }
    revert Hd. apply image_rooted_same_roots; [done|].
    by apply mod_root_vehicles.
  - (* delete from vehicles *)
    destruct (vehicles d !! id) as [old|]; [|done].
    intros [_ ->]%guard_Some. by apply cascade_vehicles_rooted.
  - (* insert into mods *)
    intros [Hg ->]%guard_Some.
    apply andb_true_iff in Hg as [[Hfresh%negb_true_iff%has_false _]%andb_true_iff _].
    intros iid i Hi. simpl in Hi. specialize (Hd iid i Hi).
    revert Hd. apply image_rooted_same_roots; [done|].
    intros mid u (m' & Hm' & Hroot)%mod_root_Some.
    apply mod_root_Some. exists m'. simpl. split; [|done].
    rewrite lookup_insert_ne; [done|]. intros <-. by rewrite Hfresh in Hm'.
  - (* update mods *)
    destruct (mods d !! id) as [old|] eqn:Hold; [|done].
    intros [Hg ->]%guard_Some.
    apply andb_true_iff in Hg as [[Hu%mods_owner_root _]%andb_true_iff
                                    Hc%mods_owner_root].
    destruct Hu as (u1 & Hu1 & Hr1). destruct Hc as (u2 & Hu2 & Hr2).
    assert (u2 = u1) as -> by congruence.
    intros iid i Hi. simpl in Hi. specialize (Hd iid i Hi).
    revert Hd. apply image_rooted_same_roots; [done|].
    intros mid u (m' & Hm' & Hroot)%mod_root_Some.
    apply mod_root_Some. simpl.
    destruct (decide (id = mid)) as [<-|Hne].
    + exists m. rewrite lookup_insert_eq. split; [done|].
      assert (m' = old) as -> by congruence.
      unfold vehicle_root in *. simpl. congruence.
    + exists m'. by rewrite lookup_insert_ne.
  - (* delete from mods *)
    destruct (mods d !! id) as [old|]; [|done].
    intros [_ ->]%guard_Some.
    intros iid i Hi. simpl in Hi.
    apply map_lookup_filter_Some in Hi as [Hi Hkeep]. simpl in Hkeep.
    specialize (Hd iid i Hi). unfold image_rooted in *.
    destruct (Image.vehicle_id i) as [vid|], (Image.mod_id i) as [mid|];
      try done.
    apply mod_root_Some in Hd as (m' & Hm' & Hroot).
    apply mod_root_Some. exists m'. simpl. split; [|done].
    rewrite lookup_delete_ne; [done|]. congruence.
  - (* insert into images *)
    intros [Hg ->]%guard_Some.
    apply andb_true_iff in Hg as [[_ Hchk]%andb_true_iff Hown].
    revert Hd. apply rooted_images_subset; [done|done|].
    intros iid i' Hi'. simpl in Hi'.
    destruct (decide (id = iid)) as [<-|Hne].
    + rewrite lookup_insert_eq in Hi'. injection Hi' as <-.
      right. by eapply images_owner_rooted.
    + rewrite lookup_insert_ne in Hi' by done. by left.
  - (* update images *)
    destruct (images d !! id) as [old|]; [|done].
    intros [Hg ->]%guard_Some.
    apply andb_true_iff in Hg as [[_ Hchk]%andb_true_iff Hown].
    revert Hd. apply rooted_images_subset; [done|done|].
    intros iid i' Hi'. simpl in Hi'.
    destruct (decide (id = iid)) as [<-|Hne].
    + rewrite lookup_insert_eq in Hi'. injection Hi' as <-.
      right. by eapply images_owner_rooted.
    + rewrite lookup_insert_ne in Hi' by done. by left.
  - (* delete from images *)
    destruct (images d !! id) as [old|]; [|done].
    intros [_ ->]%guard_Some.
    revert Hd. apply rooted_images_subset; [done|done|].
    intros iid i' Hi'. simpl in Hi'.
    apply lookup_delete_Some in Hi' as [_ Hi']. by left.
Qed.

Lemma reachable_rooted d : reachable d → rooted d.
Proof.
  induction 1 as [|d r w d' _ IH Hw].
  - intros iid i Hi. simpl in Hi. by rewrite lookup_empty in Hi.
  - by eapply apply_write_rooted.
Qed.

(** C1.  An insert or update of an image by a caller is accepted only if
    the image's [profile_id] is the caller's identity and the one parent it
    references, its vehicle or the vehicle of its mod, belongs to that same
    identity.  In particular an insert carrying the caller's [profile_id]
    and the mod of a vehicle of another profile is rejected.  Hence in every
    state reached by statements of such callers, each image's [profile_id]
    is the root owner of its parent. *)
Theorem images_owner_write :
  (∀ r d id i d',
     apply_write r (InsertImage id i) d = Some d' ∨
     apply_write r (UpdateImage id i) d = Some d' →
     auth_uid r = Some (Image.profile_id i) ∧ image_rooted d i) ∧
  (∀ r d id i mid m v,
     auth_uid r = Some (Image.profile_id i) →
     Image.mod_id i = Some mid →
     mods d !! mid = Some m →
     vehicles d !! Mod.vehicle_id m = Some v →
     Vehicle.profile_id v ≠ Image.profile_id i →
     apply_write r (InsertImage id i) d = None ∧
     apply_write r (UpdateImage id i) d = None) ∧
  (∀ d, reachable d →
        ∀ iid i, images d !! iid = Some i → image_rooted d i).
Proof.
  assert (∀ r d id i d',
     apply_write r (InsertImage id i) d = Some d' ∨
     apply_write r (UpdateImage id i) d = Some d' →
     auth_uid r = Some (Image.profile_id i) ∧ image_rooted d i) as Haccept.
  { intros r d id i d' Hw.
    assert (image_checks i = true ∧ images_owner r d i = true) as [Hchk Hown].
    { unfold apply_write in Hw.
      destruct (is_authenticated r); [|by destruct Hw]. simpl in Hw.
      destruct Hw as [Hw|Hw].
      - apply guard_Some in Hw as [Hg _].
        by apply andb_true_iff in Hg as [[_ ?]%andb_true_iff ?].
      - destruct (images d !! id); [|done].
        apply guard_Some in Hw as [Hg _].
        by apply andb_true_iff in Hg as [[_ ?]%andb_true_iff ?]. }
    split; [|by eapply images_owner_rooted].
    destruct (images_owner_sound r d i Hown) as (u & Hu & Hp & _). congruence. }
  split; [exact Haccept|]. split; [|apply reachable_rooted].
  intros r d id i mid m v Hu Hmid Hm Hv Hne.
  assert (∀ w, (w = InsertImage id i ∨ w = UpdateImage id i) →
               apply_write r w d = None) as Hrej.
  { intros w Hw. destruct (apply_write r w d) as [d'|] eqn:Happ; [|done].
    destruct (Haccept r d id i d') as [_ Hroot].
    { destruct Hw as [->| ->]; [by left|by right]. }
    unfold image_rooted in Hroot. rewrite Hmid in Hroot.
    destruct (Image.vehicle_id i); [done|].
    apply mod_root_Some in Hroot as (m' & Hm' & Hroot).
    assert (m' = m) as -> by congruence.
    unfold vehicle_root in Hroot. rewrite Hv in Hroot. simpl in Hroot.
    congruence. }
  split; apply Hrej; [by left|by right].
Qed.

(** Profile 1 tags an image with its own id and links it to mod 20, a mod
    of vehicle 10, which belongs to the published profile 2: rejected. *)
Lemma images_owner_write_witness :
  let d :=
    {| profiles :=
         {[ 1%N := {| Profile.username := Some "alice";
                      Profile.avatar_image_path := None |};
            2%N := {| Profile.username := Some "bob";
                      Profile.avatar_image_path := None |} ]};
       vehicles :=
         {[ 10%N := {| Vehicle.profile_id := 2%N;
                       Vehicle.hero_image_path := None;
                       Vehicle.is_public := true;
                       Vehicle.sort_order := 0;
                       Vehicle.created_at := 0;
                       Vehicle.updated_at := 0 |} ]};
       mods :=
         {[ 20%N := {| Mod.vehicle_id := 10%N; Mod.sort_order := 0;
                       Mod.created_at := 0; Mod.updated_at := 0 |} ]};
       images := ∅ |} in
  let i :=
    {| Image.profile_id := 1%N;
       Image.vehicle_id := None;
       Image.mod_id := Some 20%N;
       Image.storage_bucket := "mygarage";
       Image.storage_path := "mods/x/a.jpg" |} in
  apply_write (Authenticated (Some 1%N)) (InsertImage 30%N i) d = None ∧
  apply_write (Authenticated (Some 1%N)) (UpdateImage 30%N i) d = None.
Proof.
  intros d i.
  destruct images_owner_write as (_ & Hreject & _).
  apply (Hreject (Authenticated (Some 1%N)) d 30%N i 20%N
           {| Mod.vehicle_id := 10%N; Mod.sort_order := 0;
              Mod.created_at := 0; Mod.updated_at := 0 |}
           {| Vehicle.profile_id := 2%N;
              Vehicle.hero_image_path := None;
              Vehicle.is_public := true;
              Vehicle.sort_order := 0;
              Vehicle.created_at := 0;
              Vehicle.updated_at := 0 |}).
  - reflexivity.
  - reflexivity.
  - reflexivity.
  - reflexivity.
  - simpl. discriminate.
Defined.

(** The policy is not vacuous: a profile signs up, adds a vehicle and a mod
    and attaches an image to the mod, and each statement is accepted. *)
Example owner_writes_accepted :
  let r := Authenticated (Some 1%N) in
  let p := {| Profile.username := None; Profile.avatar_image_path := None |} in
  let v := {| Vehicle.profile_id := 1%N; Vehicle.hero_image_path := None;
              Vehicle.is_public := true; Vehicle.sort_order := 0;
              Vehicle.created_at := 0; Vehicle.updated_at := 0 |} in
  let m := {| Mod.vehicle_id := 10%N; Mod.sort_order := 0;
              Mod.created_at := 0; Mod.updated_at := 0 |} in
  let i := {| Image.profile_id := 1%N; Image.vehicle_id := None;
              Image.mod_id := Some 20%N; Image.storage_bucket := "mygarage";
              Image.storage_path := "mods/x/a.jpg" |} in
  ∃ d, (d1 ← apply_write r (InsertProfile 1%N p) empty_db;
        d2 ← apply_write r (InsertVehicle 10%N v) d1;
        d3 ← apply_write r (InsertMod 20%N m) d2;
        apply_write r (InsertImage 30%N i) d3) = Some d ∧
       images d !! 30%N = Some i.
Proof. eexists. split; reflexivity. Qed.

End DataLayerFacts.

(** ** The storage path guard *)

Module StorageFacts.
Import Schema Policies Storage.

Lemma split_slash_cons s : ∃ seg rest, split_slash s = seg :: rest.
Proof.
  destruct s as [|c s]; simpl; [by eexists _, _|].
  case_bool_decide; [by eexists _, _|].
  destruct (split_slash s); by eexists _, _.
Qed.

(** Joining the parts with slashes gives the path back. *)
Lemma concat_split_slash s : String.concat "/" (split_slash s) = s.
Proof.
  induction s as [|c s IH]; [done|]. cbn [split_slash].
  destruct (split_slash_cons s) as (seg & rest & Hs). rewrite Hs in *.
  case_bool_decide as Hc.
  - subst c.
    change (String.concat "/" ("" :: seg :: rest))
      with ("" +:+ "/" +:+ String.concat "/" (seg :: rest)).
    by rewrite IH.
  - destruct rest as [|r rest].
    + change (String c seg = String c s). f_equal. exact IH.
    + change (String c (seg +:+ "/" +:+ String.concat "/" (r :: rest))
              = String c s).
      f_equal. exact IH.
Qed.

Lemma split_slash_app a b :
  split_slash (a +:+ String "/" b) = (split_slash a ++ split_slash b)%list.
Proof.
  induction a as [|c a IH]; [done|].
  change (String c a +:+ String "/" b) with (String c (a +:+ String "/" b)).
  simpl. rewrite IH. case_bool_decide; [done|].
  destruct (split_slash_cons a) as (seg & rest & ->). done.
Qed.

Lemma has_double_slash_app a b : has_double_slash (a +:+ "//" +:+ b) = true.
Proof.
  induction a as [|c a IH]; [done|].
  change (String c a +:+ "//" +:+ b) with (String c (a +:+ "//" +:+ b)).
  cbn [has_double_slash]. rewrite IH.
  destruct (a +:+ "//" +:+ b) eqn:Heq; [by destruct a|].
  apply orb_true_r.
Qed.

Lemma has_dotdot_part_start b : has_dotdot_part ("../" +:+ b) = true.
Proof.
  unfold has_dotdot_part. apply bool_decide_eq_true.
  change ("../" +:+ b) with (".." +:+ String "/" b).
  rewrite split_slash_app. simpl. left.
Qed.

Lemma has_dotdot_part_middle a b : has_dotdot_part (a +:+ "/../" +:+ b) = true.
Proof.
  unfold has_dotdot_part. apply bool_decide_eq_true.
  change (a +:+ "/../" +:+ b) with (a +:+ String "/" (".." +:+ String "/" b)).
  rewrite !split_slash_app. apply elem_of_app. right. simpl. left.
Qed.

Lemma removelast_two {A} (l : list A) a b :
  removelast l = [a; b] → ∃ c, l = [a; b; c] ∧ last l = Some c.
Proof.
  destruct l as [|x [|y [|z [|w l]]]]; simpl; try done.
  intros [= -> ->]. by exists z.
Qed.

Lemma path_of_parts name p1 p2 :
  foldername name = [p1; p2] →
  ∃ file, filename name = Some file ∧
          name = p1 +:+ "/" +:+ p2 +:+ "/" +:+ file.
Proof.
  unfold foldername, filename, string_to_array.
  case_bool_decide as Hne; [done|].
  intros (file & Hsplit & Hlast)%removelast_two. exists file.
  split; [done|].
  rewrite <-(concat_split_slash name) at 1. by rewrite Hsplit.
Qed.

(** C5.  [mygarage_object_owner_can_write] is true only for a path of the
    form [avatars/{requester}/file], [vehicles/{id}/file] with a vehicle of
    the requester, or [mods/{id}/file] with a mod of a vehicle of the
    requester, [file] not empty; and it is false, whoever owns what, for a
    path that contains [//] or a [../] part. *)
Theorem object_owner_can_write_spec r d name requester :
  (mygarage_object_owner_can_write r d (Some name) (Some requester) = true →
   ∃ file, file ≠ "" ∧
     (name = "avatars" +:+ "/" +:+ uuid_text requester +:+ "/" +:+ file ∨
      (∃ vid v,
         name = "vehicles" +:+ "/" +:+ uuid_text vid +:+ "/" +:+ file ∧
         vehicles d !! vid = Some v ∧ Vehicle.profile_id v = requester) ∨
      (∃ mid m v,
         name = "mods" +:+ "/" +:+ uuid_text mid +:+ "/" +:+ file ∧
         mods d !! mid = Some m ∧
         vehicles d !! Mod.vehicle_id m = Some v ∧
         Vehicle.profile_id v = requester))) ∧
  ((∃ a b, name = a +:+ "//" +:+ b) ∨
   (∃ b, name = "../" +:+ b) ∨
   (∃ a b, name = a +:+ "/../" +:+ b) →
   mygarage_object_owner_can_write r d (Some name) (Some requester) = false).
Proof.
  split.
  - unfold mygarage_object_owner_can_write.
    intros [_ Hparts]%andb_true_iff.
    destruct (foldername name) as [|p1 [|p2 [|p3 parts]]] eqn:Hfold; try done.
    destruct (path_of_parts name p1 p2 Hfold) as (file & Hfile & Hname).
    rewrite Hfile in Hparts.
    apply andb_true_iff in Hparts as [Hsome Hcases].
    exists file. split.
    { intros ->. by apply bool_decide_eq_true in Hsome as [? ?]. }
    apply orb_true_iff in Hcases as [Hcases|Hmods].
    apply orb_true_iff in Hcases as [Havatar|Hvehicles].
    + left. apply andb_true_iff in Havatar as [H1 H2].
      apply bool_decide_eq_true in H1, H2. by subst.
    + right. left. apply andb_true_iff in Hvehicles as [H1 Hex].
      apply bool_decide_eq_true in H1.
      apply existsb_exists in Hex as ([vid v] & Hin & Hrow).
      apply list_elem_of_In, elem_of_map_to_list in Hin.
      apply andb_true_iff in Hrow as [H2 H3]. simpl in *.
      apply bool_decide_eq_true in H2, H3.
      exists vid, v. subst. split; [done|].
      split; [by eapply DataLayerFacts.visible_vehicles_stored|done].
    + right. right. apply andb_true_iff in Hmods as [H1 Hex].
      apply bool_decide_eq_true in H1.
      apply existsb_exists in Hex as ([mid m] & Hin & Hrow).
      apply list_elem_of_In, elem_of_map_to_list in Hin.
      apply andb_true_iff in Hrow as [H2 H3]. simpl in *.
      apply bool_decide_eq_true in H2.
      destruct (visible_vehicles r d !! Mod.vehicle_id m) as [v|] eqn:Hv;
        [|done].
      apply bool_decide_eq_true in H3.
      exists mid, m, v. subst. split; [done|].
      split; [by eapply DataLayerFacts.visible_mods_stored|].
      split; [by eapply DataLayerFacts.visible_vehicles_stored|done].
  - intros Htraversal. unfold mygarage_object_owner_can_write.
    destruct Htraversal as [(a & b & ->)|[(b & ->)|(a & b & ->)]].
    + rewrite has_double_slash_app. by rewrite andb_false_r.
    + by rewrite has_dotdot_part_start.
    + by rewrite has_dotdot_part_middle.
Qed.

(** The owner of vehicle 10 may write below [vehicles/{10}/], and no
    ownership makes a path through [..] writable. *)
Lemma object_owner_can_write_spec_witness :
  let d :=
    {| profiles :=
         {[ 1%N := {| Profile.username := None;
                      Profile.avatar_image_path := None |} ]};
       vehicles :=
         {[ 10%N := {| Vehicle.profile_id := 1%N;
                       Vehicle.hero_image_path := None;
                       Vehicle.is_public := false;
                       Vehicle.sort_order := 0;
                       Vehicle.created_at := 0;
                       Vehicle.updated_at := 0 |} ]};
       mods := ∅; images := ∅ |} in
  let r := Authenticated (Some 1%N) in
  mygarage_object_owner_can_write r d
    (Some "vehicles/00000000-0000-0000-0000-00000000000a/x.jpg") (Some 1%N)
  = true ∧
  mygarage_object_owner_can_write r d
    (Some "vehicles/00000000-0000-0000-0000-00000000000a/../x.jpg") (Some 1%N)
  = false.
Proof.
  intros d r. split; [reflexivity|].
  apply (object_owner_can_write_spec r d
           "vehicles/00000000-0000-0000-0000-00000000000a/../x.jpg" 1%N).
  right. right.
  by exists "vehicles/00000000-0000-0000-0000-00000000000a", "x.jpg".
Defined.

End StorageFacts.

(** ** Reordering siblings *)

Module ReorderFacts.
Import Schema Policies Reorder.

Lemma key_lt_spec (a b : sort_key) :
  key_lt a b = true ↔
  a.1.1 < b.1.1 ∨
  (a.1.1 = b.1.1 ∧ (a.1.2 < b.1.2 ∨ (a.1.2 = b.1.2 ∧ (a.2 < b.2)%N))).
Proof.
  unfold key_lt.
  rewrite !orb_true_iff, !andb_true_iff, !orb_true_iff, !andb_true_iff.
  rewrite !Z.ltb_lt, !Z.eqb_eq, N.ltb_lt. done.
Qed.

Lemma key_lt_false (a b : sort_key) :
  key_lt a b = false ↔ a = b ∨ key_lt b a = true.
Proof.
  rewrite <-not_true_iff_false, !key_lt_spec.
  destruct a as [[a1 a2] a3], b as [[b1 b2] b3]. simpl. split.
  - intros Hn.
    destruct (decide (a1 = b1 ∧ a2 = b2 ∧ a3 = b3)) as [(-> & -> & ->)|Hne];
      [by left|].
    right. lia.
  - intros [[= -> -> ->]|Hlt]; lia.
Qed.

Lemma key_lt_irrefl (a : sort_key) : key_lt a a = false.
Proof. apply key_lt_false. by left. Qed.

Lemma key_lt_trans (a b c : sort_key) :
  key_lt a b = true → key_lt b c = true → key_lt a c = true.
Proof. rewrite !key_lt_spec. lia. Qed.

Lemma key_lt_asym (a b : sort_key) :
  key_lt a b = true → key_lt b a = false.
Proof. intros Hab. apply key_lt_false. by right. Qed.

Section swap.
Context {A : Type} `{Sortable A}.
Implicit Types (scope tbl : gmap uuid A) (row : uuid * A).

Lemma first_by_nil before (rows : list (uuid * A)) :
  first_by before rows = None ↔ rows = [].
Proof.
  destruct rows as [|row rows]; simpl; [done|].
  split; [|done]. by destruct (first_by before rows) as [b|]; [destruct (before _ _)|].
Qed.

Lemma first_by_best before (rows : list (uuid * A)) best :
  (∀ a, before a a = false) →
  (∀ a b c, before a b = true → before b c = true → before a c = true) →
  first_by before rows = Some best →
  best ∈ rows ∧
  ∀ row, row ∈ rows → before (key_of row) (key_of best) = false.
Proof.
  intros Hirr Htrans. revert best.
  induction rows as [|row rows IH]; intros best; simpl; [done|].
  destruct (first_by before rows) as [b|] eqn:Hb.
  - destruct (IH b eq_refl) as [Hin Hmin].
    destruct (before (key_of row) (key_of b)) eqn:Hrow; intros [= <-].
    + split; [left|]. intros row' [->|Hin']%elem_of_cons; [apply Hirr|].
      destruct (before (key_of row') (key_of row)) eqn:Hcmp; [|done].
      rewrite <-(Hmin row' Hin'). symmetry. by eapply Htrans.
    + split; [by right|].
      intros row' [->|Hin']%elem_of_cons; [done|by apply Hmin].
  - intros [= <-]. apply first_by_nil in Hb as ->.
    split; [left|]. intros row' [->|Hin']%elem_of_cons; [apply Hirr|].
    by apply not_elem_of_nil in Hin'.
Qed.

Lemma beyond_asym up (a b : sort_key) :
  beyond up a b = true → beyond up b a = false.
Proof. destruct up; simpl; apply key_lt_asym. Qed.

Lemma beyond_false up (a b : sort_key) :
  beyond up a b = false ↔ a = b ∨ beyond up b a = true.
Proof.
  destruct up; simpl; rewrite key_lt_false; [|done].
  split; (intros [->|?]; [by left|by right]).
Qed.

Lemma beyond_irrefl up (a : sort_key) : beyond up a a = false.
Proof. apply beyond_false. by left. Qed.

Lemma beyond_trans up (a b c : sort_key) :
  beyond up a b = true → beyond up b c = true → beyond up a c = true.
Proof. destruct up; simpl; eauto using key_lt_trans. Qed.

Lemma key_of_inj row1 row2 : key_of row1 = key_of row2 → row1.1 = row2.1.
Proof. unfold key_of. by intros [= _ _ ?]. Qed.

Lemma select_neighbor_candidates up scope current :
  select_neighbor up scope current =
  first_by (beyond up)
    (filter (fun kv => beyond up (key_of current) (key_of kv) = true)
       (map_to_list scope)).
Proof. by destruct up. Qed.

Lemma select_neighbor_None up scope current :
  select_neighbor up scope current = None ↔
  ∀ id a, scope !! id = Some a →
          beyond up (key_of current) (key_of (id, a)) = false.
Proof.
  rewrite select_neighbor_candidates, first_by_nil. split.
  - intros Hnil id a Hin.
    destruct (beyond up (key_of current) (key_of (id, a))) eqn:Hb; [|done].
    assert ((id, a) ∈ filter
              (fun kv => beyond up (key_of current) (key_of kv) = true)
              (map_to_list scope)) as Hin'
      by (apply list_elem_of_filter; split; [done|by apply elem_of_map_to_list]).
    rewrite Hnil in Hin'. by apply not_elem_of_nil in Hin'.
  - intros Hnone. apply elem_of_nil_inv. intros [id a] Hin.
    apply list_elem_of_filter in Hin as [Hb Hin].
    apply elem_of_map_to_list in Hin. by rewrite (Hnone id a Hin) in Hb.
Qed.

Lemma select_neighbor_nearest up scope current neighbor :
  select_neighbor up scope current = Some neighbor →
  nearest up scope current neighbor.
Proof.
  rewrite select_neighbor_candidates. intros Hsel.
  apply first_by_best in Hsel as [Hin Hbest].
  - apply list_elem_of_filter in Hin as [Hb Hin].
    destruct neighbor as [nid na]. apply elem_of_map_to_list in Hin.
    split; [done|]. split; [done|].
    intros id a Ha Hbeyond.
    assert (beyond up (key_of (nid, na)) (key_of (id, a)) = true ∨
            key_of (id, a) = key_of (nid, na)) as [?|Heq].
    { specialize (Hbest (id, a)).
      rewrite list_elem_of_filter, elem_of_map_to_list in Hbest.
      specialize (Hbest (conj Hbeyond Ha)).
      apply beyond_false in Hbest as [?|?]; auto. }
    + by right.
    + left. by apply key_of_inj in Heq.
  - apply beyond_irrefl.
  - apply beyond_trans.
Qed.

Lemma nearest_select_neighbor up scope current neighbor :
  nearest up scope current neighbor →
  select_neighbor up scope current = Some neighbor.
Proof.
  intros (Hin & Hbeyond & Hnear).
  destruct (select_neighbor up scope current) as [[rid ra]|] eqn:Hsel.
  - apply select_neighbor_nearest in Hsel as (Hin' & Hbeyond' & Hnear').
    simpl in *. destruct neighbor as [nid na]. simpl in *.
    destruct (Hnear rid ra Hin' Hbeyond') as [->|Hfar].
    { by assert (ra = na) as -> by congruence. }
    destruct (Hnear' nid na Hin Hbeyond) as [->|Hfar'].
    { by assert (ra = na) as -> by congruence. }
    apply beyond_asym in Hfar. congruence.
  - rewrite select_neighbor_None in Hsel.
    destruct neighbor as [nid na]. by rewrite (Hsel nid na Hin) in Hbeyond.
Qed.

(** What the swap leaves in each row. *)
Lemma swap_sort_order_lookup scope current neighbor now tbl id :
  scope !! current.1 = Some current.2 →
  scope !! neighbor.1 = Some neighbor.2 →
  scope ⊆ tbl →
  swap_sort_order scope current neighbor now tbl !! id =
  if bool_decide (id = current.1)
  then Some (with_sort_order (sort_order_of neighbor.2) now current.2)
  else if bool_decide (id = neighbor.1)
       then Some (with_sort_order (sort_order_of current.2) now neighbor.2)
       else tbl !! id.
Proof.
  intros Hc Hn Hsub. unfold swap_sort_order. rewrite map_lookup_imap.
  destruct (decide (id = current.1)) as [->|Hidc];
    [|destruct (decide (id = neighbor.1)) as [->|Hidn]].
  - rewrite (lookup_weaken _ _ _ _ Hc Hsub). simpl.
    rewrite !(bool_decide_eq_true_2 (current.1 = current.1)) by done.
    simpl. by rewrite bool_decide_eq_true_2 by (rewrite Hc; eauto).
  - rewrite (lookup_weaken _ _ _ _ Hn Hsub). simpl.
    rewrite !(bool_decide_eq_false_2 (neighbor.1 = current.1)) by done.
    rewrite !(bool_decide_eq_true_2 (neighbor.1 = neighbor.1)) by done.
    simpl. by rewrite bool_decide_eq_true_2 by (rewrite Hn; eauto).
  - rewrite !(bool_decide_eq_false_2 (id = current.1)) by done.
    rewrite !(bool_decide_eq_false_2 (id = neighbor.1)) by done.
    simpl. by destruct (tbl !! id).
Qed.

Lemma nearest_distinct up scope current neighbor :
  scope !! current.1 = Some current.2 →
  nearest up scope current neighbor → neighbor.1 ≠ current.1.
Proof.
  intros Hc (Hn & Hb & _) Heq. rewrite Heq, Hc in Hn.
  destruct current as [x a], neighbor as [y b]. simpl in *. simplify_eq.
  by rewrite beyond_irrefl in Hb.
Qed.

(** After the swap with the row before it, when the two values swapped are
    each held by no other sibling, the row that came before is the nearest
    row after. *)
Lemma nearest_after_swap scope scope1 x a y b a' b' :
  scope !! x = Some a →
  nearest true scope (x, a) (y, b) →
  sort_order_of a ≠ sort_order_of b →
  (∀ z c, scope !! z = Some c → z ≠ x → z ≠ y →
          sort_order_of c ≠ sort_order_of a ∧
          sort_order_of c ≠ sort_order_of b) →
  scope1 !! x = Some a' → scope1 !! y = Some b' →
  (∀ z, z ≠ x → z ≠ y → scope1 !! z = scope !! z) →
  sort_order_of a' = sort_order_of b → created_at_of a' = created_at_of a →
  sort_order_of b' = sort_order_of a → created_at_of b' = created_at_of b →
  nearest false scope1 (x, a') (y, b').
Proof.
  intros Hx (Hy & Hbefore & Hnear) Hne Huniq Hx1 Hy1 Hrest Hsa Hca Hsb Hcb.
  simpl in *. unfold key_of in *. simpl in *.
  apply key_lt_spec in Hbefore. simpl in Hbefore.
  assert (sort_order_of b < sort_order_of a) as Hlt by lia.
  split; [done|]. split.
  { apply key_lt_spec. simpl. lia. }
  intros z c Hz Hafter. simpl.
  destruct (decide (z = y)) as [->|Hzy]; [by left|right].
  destruct (decide (z = x)) as [->|Hzx].
  { assert (c = a') as -> by congruence. by rewrite key_lt_irrefl in Hafter. }
  rewrite Hrest in Hz by done.
  destruct (Huniq z c Hz Hzx Hzy) as [Hca' Hcb'].
  apply key_lt_spec in Hafter. simpl in Hafter.
  apply key_lt_spec. simpl.
  destruct (decide (sort_order_of c < sort_order_of a)) as [Hbelow|]; [|lia].
  destruct (Hnear z c Hz) as [?|Hfar]; [|done|].
  { apply key_lt_spec. simpl. lia. }
  apply key_lt_spec in Hfar. simpl in Hfar. lia.
Qed.

(** A row after the swap is the row before it, or that row with another
    [sort_order]. *)
Lemma swap_sort_order_row scope current neighbor now tbl id :
  swap_sort_order scope current neighbor now tbl !! id = None ∧
  tbl !! id = None ∨
  ∃ old, tbl !! id = Some old ∧
    (swap_sort_order scope current neighbor now tbl !! id = Some old ∨
     ∃ s, swap_sort_order scope current neighbor now tbl !! id
          = Some (with_sort_order s now old)).
Proof.
  unfold swap_sort_order. rewrite map_lookup_imap.
  destruct (tbl !! id) as [old|]; simpl; [right|by left].
  exists old. split; [done|]. destruct (_ && _); eauto.
Qed.

(** A filter on columns that the swap does not write commutes with it. *)
Lemma filter_swap_sort_order (P : uuid * A → Prop) `{∀ kv, Decision (P kv)}
    scope current neighbor now tbl id :
  (∀ z s old, P (z, with_sort_order s now old) ↔ P (z, old)) →
  filter P (swap_sort_order scope current neighbor now tbl) !! id =
  if bool_decide (is_Some (filter P tbl !! id))
  then swap_sort_order scope current neighbor now tbl !! id
  else None.
Proof.
  intros HP.
  destruct (swap_sort_order_row scope current neighbor now tbl id)
    as [[Hs Ht]|(old & Ht & Hs)].
  - rewrite map_lookup_filter, Hs. simpl. by case_bool_decide.
  - assert (filter P tbl !! id = if decide (P (id, old)) then Some old else None)
      as Hf.
    { rewrite map_lookup_filter, Ht. simpl.
      destruct (decide (P (id, old))) as [HPr|HPr].
      - by rewrite option_guard_True.
      - by rewrite option_guard_False. }
    rewrite Hf. rewrite map_lookup_filter.
    destruct Hs as [Hs|[s Hs]]; rewrite Hs; simpl.
    + destruct (decide (P (id, old))) as [HPr|HPr].
      * rewrite option_guard_True by done.
        by rewrite bool_decide_eq_true_2 by eauto.
      * rewrite option_guard_False by done.
        by rewrite bool_decide_eq_false_2 by (by intros [? ?]).
    + destruct (decide (P (id, old))) as [HPr|HPr].
      * rewrite option_guard_True by (by apply HP).
        by rewrite bool_decide_eq_true_2 by eauto.
      * rewrite option_guard_False by (by rewrite HP).
        by rewrite bool_decide_eq_false_2 by (by intros [? ?]).
Qed.

(** Moving a row up and then down again, when the two values swapped are
    each held by no other sibling: the neighbor found on the way down is
    the row passed on the way up, and the second swap undoes the first. *)
Lemma swap_round_trip scope scope1 tbl x a y b now1 now2 :
  let tbl1 := swap_sort_order scope (x, a) (y, b) now1 tbl in
  let a' := with_sort_order (sort_order_of b) now1 a in
  let b' := with_sort_order (sort_order_of a) now1 b in
  scope ⊆ tbl →
  scope !! x = Some a →
  nearest true scope (x, a) (y, b) →
  sort_order_of a ≠ sort_order_of b →
  (∀ z c, scope !! z = Some c → z ≠ x → z ≠ y →
          sort_order_of c ≠ sort_order_of a ∧
          sort_order_of c ≠ sort_order_of b) →
  (∀ z, scope1 !! z =
        if bool_decide (is_Some (scope !! z)) then tbl1 !! z else None) →
  select_neighbor true scope (x, a) = Some (y, b) ∧
  scope1 !! x = Some a' ∧
  select_neighbor false scope1 (x, a') = Some (y, b') ∧
  ∀ z, swap_sort_order scope1 (x, a') (y, b') now2 tbl1 !! z =
       if bool_decide (z = x)
       then Some (with_sort_order (sort_order_of a) now2 a')
       else if bool_decide (z = y)
            then Some (with_sort_order (sort_order_of b) now2 b')
            else tbl !! z.
Proof.
  intros tbl1 a' b' Hsub Hx Hnear Hne Huniq Hscope1.
  pose proof Hnear as (Hy & _ & _). simpl in Hy.
  pose proof (nearest_distinct true scope (x, a) (y, b) Hx Hnear) as Hyx.
  simpl in Hyx.
  assert (∀ z, tbl1 !! z =
               if bool_decide (z = x) then Some a'
               else if bool_decide (z = y) then Some b' else tbl !! z)
    as Htbl1.
  { intros z. unfold tbl1.
    by rewrite (swap_sort_order_lookup scope (x, a) (y, b) now1 tbl z). }
  assert (scope1 !! x = Some a') as Hx1.
  { rewrite Hscope1, Htbl1, bool_decide_eq_true_2 by eauto.
    by rewrite bool_decide_eq_true_2. }
  assert (scope1 !! y = Some b') as Hy1.
  { rewrite Hscope1, Htbl1, bool_decide_eq_true_2 by eauto.
    rewrite bool_decide_eq_false_2 by done. by rewrite bool_decide_eq_true_2. }
  assert (∀ z, z ≠ x → z ≠ y → scope1 !! z = scope !! z) as Hrest.
  { intros z Hzx Hzy. rewrite Hscope1, Htbl1.
    rewrite (bool_decide_eq_false_2 (z = x)) by done.
    rewrite (bool_decide_eq_false_2 (z = y)) by done.
    destruct (scope !! z) as [c|] eqn:Hz.
    - rewrite bool_decide_eq_true_2 by eauto.
      by apply (lookup_weaken _ _ _ _ Hz).
    - by rewrite bool_decide_eq_false_2 by (by intros [? ?]). }
  assert (scope1 ⊆ tbl1) as Hsub1.
  { apply map_subseteq_spec. intros z c. rewrite Hscope1.
    by case_bool_decide. }
  split; [by apply nearest_select_neighbor|]. split; [done|]. split.
  - apply nearest_select_neighbor.
    apply (nearest_after_swap scope scope1 x a y b a' b'); try done;
      unfold a', b'; by rewrite ?sort_order_written, ?created_at_kept.
  - intros z.
    rewrite (swap_sort_order_lookup scope1 (x, a') (y, b') now2 tbl1 z)
      by done.
    simpl.
    assert (sort_order_of a' = sort_order_of b) as ->
      by apply sort_order_written.
    assert (sort_order_of b' = sort_order_of a) as ->
      by apply sort_order_written.
    rewrite Htbl1. by repeat case_bool_decide.
Qed.

End swap.

(** *** The rows a caller's statements reach *)

Lemma own_profile_visible u d :
  is_Some (profiles d !! u) →
  is_Some (visible_profiles (Authenticated (Some u)) d !! u).
Proof.
  intros [p Hp]. exists p. apply map_lookup_filter_Some. split; [done|].
  simpl. unfold profiles_owner, uid_is. simpl.
  by rewrite bool_decide_eq_true_2.
Qed.

Lemma vehicles_owner_own u d v :
  is_Some (profiles d !! u) → Vehicle.profile_id v = u →
  vehicles_owner (Authenticated (Some u)) d v = true.
Proof.
  intros Hp <-. unfold vehicles_owner.
  destruct (own_profile_visible _ d Hp) as [p ->].
  by apply DataLayerFacts.uid_is_true.
Qed.

Lemma own_vehicles_stored u d id v :
  filter (fun kv => Vehicle.profile_id kv.2 = u)
    (lockable_vehicles (Authenticated (Some u)) d) !! id = Some v →
  vehicles d !! id = Some v ∧ Vehicle.profile_id v = u.
Proof.
  intros [Hlock Hu]%map_lookup_filter_Some.
  apply map_lookup_filter_Some in Hlock as [Hvis _].
  by apply DataLayerFacts.visible_vehicles_stored in Hvis.
Qed.

Lemma own_vehicles_eq u d :
  is_Some (profiles d !! u) →
  filter (fun kv => Vehicle.profile_id kv.2 = u)
    (lockable_vehicles (Authenticated (Some u)) d)
  = filter (fun kv => Vehicle.profile_id kv.2 = u) (vehicles d).
Proof.
  intros Hp. apply map_eq. intros id. apply option_eq. intros v. split.
  - intros Hown%own_vehicles_stored. by apply map_lookup_filter_Some.
  - intros [Hv Hu]%map_lookup_filter_Some. simpl in Hu.
    pose proof (vehicles_owner_own u d v Hp Hu) as Hpol.
    apply map_lookup_filter_Some. split; [|done].
    apply map_lookup_filter_Some. split; [|done].
    apply map_lookup_filter_Some. split; [done|]. simpl. by rewrite Hpol.
Qed.

Lemma mods_owner_own u d m v :
  is_Some (profiles d !! u) →
  vehicles d !! Mod.vehicle_id m = Some v → Vehicle.profile_id v = u →
  mods_owner (Authenticated (Some u)) d m = true.
Proof.
  intros Hp Hv Hu. unfold mods_owner.
  assert (visible_vehicles (Authenticated (Some u)) d !! Mod.vehicle_id m
          = Some v) as ->.
  { apply map_lookup_filter_Some. split; [done|]. simpl.
    by rewrite (vehicles_owner_own u d v Hp Hu). }
  rewrite Hu. destruct (own_profile_visible _ d Hp) as [p ->].
  by apply DataLayerFacts.uid_is_true.
Qed.

Lemma vehicle_mods_stored r d vid id m :
  filter (fun kv => Some (Mod.vehicle_id kv.2) = Some vid)
    (lockable_mods r d) !! id = Some m →
  mods d !! id = Some m ∧ Mod.vehicle_id m = vid.
Proof.
  intros [Hlock Hvid]%map_lookup_filter_Some.
  apply map_lookup_filter_Some in Hlock as [Hvis _].
  apply DataLayerFacts.visible_mods_stored in Hvis. simpl in Hvid.
  split; [done|congruence].
Qed.

Lemma vehicle_mods_eq u d vid v :
  is_Some (profiles d !! u) →
  vehicles d !! vid = Some v → Vehicle.profile_id v = u →
  filter (fun kv => Some (Mod.vehicle_id kv.2) = Some vid)
    (lockable_mods (Authenticated (Some u)) d)
  = filter (fun kv => Mod.vehicle_id kv.2 = vid) (mods d).
Proof.
  intros Hp Hv Hu. apply map_eq. intros id. apply option_eq. intros m. split.
  - intros Hown%vehicle_mods_stored. by apply map_lookup_filter_Some.
  - intros [Hm Hvid]%map_lookup_filter_Some. simpl in Hvid.
    assert (mods_owner (Authenticated (Some u)) d m = true) as Hpol
      by (apply (mods_owner_own u d m v); [done|by rewrite Hvid|done]).
    apply map_lookup_filter_Some. split; [|simpl; congruence].
    apply map_lookup_filter_Some. split; [|done].
    apply map_lookup_filter_Some. split; [done|]. simpl. by rewrite Hpol.
Qed.

Lemma valid_direction dir :
  dir = "up" ∨ dir = "down" → invalid_direction (Some dir) = false.
Proof. by intros [->| ->]. Qed.

(** C7.  With a valid direction, a reorder call whose caller has no
    identity, or whose target row does not exist, or whose target row is
    not the caller's, returns [not_found] and leaves the tables as they
    were: the three cases give the same result. *)
Theorem reorder_not_found uid now dir d :
  dir = "up" ∨ dir = "down" →
  (∀ vid,
     uid = None ∨ vehicles d !! vid = None ∨
     (∃ v, vehicles d !! vid = Some v ∧ uid ≠ Some (Vehicle.profile_id v)) →
     reorder_vehicle_swap uid now (Some vid) (Some dir) d
     = Ok (d, not_found)) ∧
  (∀ vid mid,
     uid = None ∨ mods d !! mid = None ∨
     (∃ m, mods d !! mid = Some m ∧
           ¬ (Mod.vehicle_id m = vid ∧
              ∃ v, vehicles d !! vid = Some v ∧
                   uid = Some (Vehicle.profile_id v))) →
     reorder_mod_swap uid now (Some vid) (Some mid) (Some dir) d
     = Ok (d, not_found)).
Proof.
  intros Hdir. split.
  - intros vid Hcase. unfold reorder_vehicle_swap.
    rewrite (valid_direction dir Hdir).
    destruct uid as [u|]; [|done]. simpl.
    destruct (filter _ (lockable_vehicles _ d) !! vid) as [v|] eqn:Hown;
      [|done].
    apply own_vehicles_stored in Hown as [Hv Hu].
    destruct Hcase as [?|[Hnone|(v' & Hv' & Hne)]]; [done|congruence|].
    congruence.
  - intros vid mid Hcase. unfold reorder_mod_swap.
    rewrite (valid_direction dir Hdir).
    destruct uid as [u|]; [|done]. simpl.
    destruct (filter _ (lockable_mods _ d) !! mid) as [m|] eqn:Hown; [|done].
    apply vehicle_mods_stored in Hown as [Hm Hvid]. simpl.
    destruct (visible_vehicles _ d !! Mod.vehicle_id m) as [v|] eqn:Hv;
      [|done].
    simpl. case_bool_decide as Hu; [|done].
    apply DataLayerFacts.visible_vehicles_stored in Hv.
    destruct Hcase as [?|[Hnone|(m' & Hm' & Hnot)]]; [done|congruence|].
    destruct Hnot. assert (m' = m) as -> by congruence.
    split; [done|]. exists v. rewrite <-Hvid. split; [done|congruence].
Qed.

Lemma is_up_dir (up : bool) :
  is_up (Some (if up then "up" else "down")) = up.
Proof. by destruct up. Qed.

Lemma dir_valid (up : bool) :
  invalid_direction (Some (if up then "up" else "down")) = false.
Proof. by destruct up. Qed.

(** The current row of [reorder_mod_swap], for a mod of a vehicle of the
    caller. *)
Lemma current_mod u d vid v mid m :
  is_Some (profiles d !! u) →
  vehicles d !! vid = Some v → Vehicle.profile_id v = u →
  mods d !! mid = Some m → Mod.vehicle_id m = vid →
  (m' ← filter (fun kv => Mod.vehicle_id kv.2 = vid) (mods d) !! mid;
   v' ← visible_vehicles (Authenticated (Some u)) d !! Mod.vehicle_id m';
   if bool_decide (Vehicle.profile_id v' = u) then Some (mid, m') else None)
  = Some (mid, m).
Proof.
  intros Hp Hv Hu Hm Hvid.
  rewrite (proj2 (map_lookup_filter_Some _ _ mid m)) by done. simpl.
  assert (visible_vehicles (Authenticated (Some u)) d !! Mod.vehicle_id m
          = Some v) as ->.
  { rewrite Hvid. apply map_lookup_filter_Some. split; [done|]. simpl.
    by rewrite (vehicles_owner_own u d v Hp Hu). }
  simpl. by rewrite bool_decide_eq_true_2.
Qed.

(** C8.  Reordering the first sibling 'up', or the last sibling 'down',
    returns [boundary] and leaves all four tables exactly as they were, for
    vehicles of a profile and for mods of a vehicle alike. *)
Theorem reorder_boundary u now (up : bool) d :
  is_Some (profiles d !! u) →
  (∀ x v,
     vehicles d !! x = Some v → Vehicle.profile_id v = u →
     (∀ y w, vehicles d !! y = Some w → Vehicle.profile_id w = u →
             beyond up (key_of (x, v)) (key_of (y, w)) = false) →
     reorder_vehicle_swap (Some u) now (Some x)
       (Some (if up then "up" else "down")) d
     = Ok (d, boundary)) ∧
  (∀ vid pv x m,
     vehicles d !! vid = Some pv → Vehicle.profile_id pv = u →
     mods d !! x = Some m → Mod.vehicle_id m = vid →
     (∀ y w, mods d !! y = Some w → Mod.vehicle_id w = vid →
             beyond up (key_of (x, m)) (key_of (y, w)) = false) →
     reorder_mod_swap (Some u) now (Some vid) (Some x)
       (Some (if up then "up" else "down")) d
     = Ok (d, boundary)).
Proof.
  intros Hp. split.
  - intros x v Hx Hu Hfirst. unfold reorder_vehicle_swap.
    rewrite dir_valid, is_up_dir, (own_vehicles_eq u d Hp).
    cbn [mbind option_bind].
    rewrite (proj2 (map_lookup_filter_Some _ _ x v)) by done. simpl.
    rewrite (proj2 (select_neighbor_None up _ (x, v))); [done|].
    intros y w [Hy Hw]%map_lookup_filter_Some. by apply Hfirst.
  - intros vid pv x m Hvid Hu Hx Hm Hfirst. unfold reorder_mod_swap.
    rewrite dir_valid, is_up_dir, (vehicle_mods_eq u d vid pv Hp Hvid Hu).
    simpl. rewrite (current_mod u d vid pv x m); [|done..].
    rewrite (proj2 (select_neighbor_None up _ (x, m))); [done|].
    intros y w [Hy Hw]%map_lookup_filter_Some. by apply Hfirst.
Qed.

(** *** Up and down again *)

Lemma vehicles_round_trip u now1 now2 d x a y b :
  let own := filter (fun kv => Vehicle.profile_id kv.2 = u) (vehicles d) in
  is_Some (profiles d !! u) →
  own !! x = Some a →
  nearest true own (x, a) (y, b) →
  sort_order_of a ≠ sort_order_of b →
  (∀ z c, own !! z = Some c → z ≠ x → z ≠ y →
          sort_order_of c ≠ sort_order_of a ∧
          sort_order_of c ≠ sort_order_of b) →
  ∃ d1 d2,
    reorder_vehicle_swap (Some u) now1 (Some x) (Some "up") d
      = Ok (d1, moved) ∧
    reorder_vehicle_swap (Some u) now2 (Some x) (Some "down") d1
      = Ok (d2, moved) ∧
    vehicles d1 !! x = Some (with_sort_order (sort_order_of b) now1 a) ∧
    vehicles d1 !! y = Some (with_sort_order (sort_order_of a) now1 b) ∧
    (∀ z, z ≠ x → z ≠ y →
          vehicles d1 !! z = vehicles d !! z ∧
          vehicles d2 !! z = vehicles d !! z) ∧
    (∀ z, (fun v => key_of (z, v)) <$> vehicles d2 !! z
          = (fun v => key_of (z, v)) <$> vehicles d !! z) ∧
    profiles d2 = profiles d ∧ mods d2 = mods d ∧ images d2 = images d.
Proof.
  intros own Hp Hx Hnear Hne Huniq.
  set (tbl1 := swap_sort_order own (x, a) (y, b) now1 (vehicles d)).
  set (d1 := {| profiles := profiles d; vehicles := tbl1;
                mods := mods d; images := images d |}).
  set (own1 := filter (fun kv => Vehicle.profile_id kv.2 = u) tbl1).
  set (a' := with_sort_order (sort_order_of b) now1 a).
  set (b' := with_sort_order (sort_order_of a) now1 b).
  set (d2 := {| profiles := profiles d;
                vehicles := swap_sort_order own1 (x, a') (y, b') now2 tbl1;
                mods := mods d; images := images d |}).
  assert (own ⊆ vehicles d) as Hsub by apply map_filter_subseteq.
  destruct (swap_round_trip own own1 (vehicles d) x a y b now1 now2
              Hsub Hx Hnear Hne Huniq) as (Hup & Hx1 & Hdown & Hback).
  { intros z. unfold own1, tbl1, own. by apply filter_swap_sort_order. }
  pose proof Hnear as (Hy & _ & _). simpl in Hy.
  pose proof (nearest_distinct true own (x, a) (y, b) Hx Hnear) as Hyx.
  simpl in Hyx.
  exists d1, d2. split; [|split].
  - unfold reorder_vehicle_swap. rewrite (own_vehicles_eq u d Hp).
    change (invalid_direction (Some "up")) with false.
    change (is_up (Some "up")) with true.
    cbn [mbind option_bind]. fold own.
    rewrite Hx. cbn [fmap option_fmap option_map]. by rewrite Hup.
  - unfold reorder_vehicle_swap. rewrite (own_vehicles_eq u d1 Hp).
    change (invalid_direction (Some "down")) with false.
    change (is_up (Some "down")) with false.
    cbn [mbind option_bind vehicles d1]. fold own1.
    rewrite Hx1. cbn [fmap option_fmap option_map]. by rewrite Hdown.
  - cbn [vehicles d1 d2 profiles mods images].
    assert (∀ z, tbl1 !! z =
                 if bool_decide (z = x) then Some a'
                 else if bool_decide (z = y) then Some b'
                      else vehicles d !! z) as Htbl1.
    { intros z. unfold tbl1.
      by rewrite (swap_sort_order_lookup own (x, a) (y, b) now1 _ z). }
    split; [by rewrite Htbl1, bool_decide_eq_true_2|].
    split.
    { rewrite Htbl1, bool_decide_eq_false_2 by done.
      by rewrite bool_decide_eq_true_2. }
    split.
    { intros z Hzx Hzy. rewrite Hback, Htbl1.
      by rewrite !(bool_decide_eq_false_2 (z = x)),
                 !(bool_decide_eq_false_2 (z = y)) by done. }
    split; [|done].
    intros z. rewrite Hback.
    case_bool_decide as Hzx; [subst z|case_bool_decide as Hzy; [subst z|done]].
    + rewrite (lookup_weaken _ _ _ _ Hx Hsub). done.
    + rewrite (lookup_weaken _ _ _ _ Hy Hsub). done.
Qed.

Lemma mods_round_trip u now1 now2 d vid pv x a y b :
  let siblings := filter (fun kv => Mod.vehicle_id kv.2 = vid) (mods d) in
  is_Some (profiles d !! u) →
  vehicles d !! vid = Some pv → Vehicle.profile_id pv = u →
  siblings !! x = Some a →
  nearest true siblings (x, a) (y, b) →
  sort_order_of a ≠ sort_order_of b →
  (∀ z c, siblings !! z = Some c → z ≠ x → z ≠ y →
          sort_order_of c ≠ sort_order_of a ∧
          sort_order_of c ≠ sort_order_of b) →
  ∃ d1 d2,
    reorder_mod_swap (Some u) now1 (Some vid) (Some x) (Some "up") d
      = Ok (d1, moved) ∧
    reorder_mod_swap (Some u) now2 (Some vid) (Some x) (Some "down") d1
      = Ok (d2, moved) ∧
    mods d1 !! x = Some (with_sort_order (sort_order_of b) now1 a) ∧
    mods d1 !! y = Some (with_sort_order (sort_order_of a) now1 b) ∧
    (∀ z, z ≠ x → z ≠ y →
          mods d1 !! z = mods d !! z ∧ mods d2 !! z = mods d !! z) ∧
    (∀ z, (fun m => key_of (z, m)) <$> mods d2 !! z
          = (fun m => key_of (z, m)) <$> mods d !! z) ∧
    profiles d2 = profiles d ∧ vehicles d2 = vehicles d ∧
    images d2 = images d.
Proof.
  intros siblings Hp Hvid Hu Hx Hnear Hne Huniq.
  set (tbl1 := swap_sort_order siblings (x, a) (y, b) now1 (mods d)).
  set (d1 := {| profiles := profiles d; vehicles := vehicles d;
                mods := tbl1; images := images d |}).
  set (siblings1 := filter (fun kv => Mod.vehicle_id kv.2 = vid) tbl1).
  set (a' := with_sort_order (sort_order_of b) now1 a).
  set (b' := with_sort_order (sort_order_of a) now1 b).
  set (d2 := {| profiles := profiles d; vehicles := vehicles d;
                mods := swap_sort_order siblings1 (x, a') (y, b') now2 tbl1;
                images := images d |}).
  assert (siblings ⊆ mods d) as Hsub by apply map_filter_subseteq.
  destruct (swap_round_trip siblings siblings1 (mods d) x a y b now1 now2
              Hsub Hx Hnear Hne Huniq) as (Hup & Hx1 & Hdown & Hback).
  { intros z. unfold siblings1, tbl1, siblings.
    by apply filter_swap_sort_order. }
  pose proof Hnear as (Hy & _ & _). simpl in Hy.
  pose proof (nearest_distinct true siblings (x, a) (y, b) Hx Hnear) as Hyx.
  simpl in Hyx.
  apply map_lookup_filter_Some in Hx as Hx'. destruct Hx' as [Hxm Hxv].
  apply map_lookup_filter_Some in Hx1 as Hx1'. destruct Hx1' as [Hxm1 Hxv1].
  simpl in Hxv, Hxv1.
  exists d1, d2. split; [|split].
  - unfold reorder_mod_swap.
    rewrite (vehicle_mods_eq u d vid pv Hp Hvid Hu).
    change (invalid_direction (Some "up")) with false.
    change (is_up (Some "up")) with true.
    cbn [mbind option_bind].
    rewrite (current_mod u d vid pv x a Hp Hvid Hu Hxm Hxv).
    fold siblings. by rewrite Hup.
  - unfold reorder_mod_swap.
    rewrite (vehicle_mods_eq u d1 vid pv Hp Hvid Hu).
    change (invalid_direction (Some "down")) with false.
    change (is_up (Some "down")) with false.
    cbn [mbind option_bind].
    rewrite (current_mod u d1 vid pv x a' Hp Hvid Hu Hxm1 Hxv1).
    change (mods d1) with tbl1. fold siblings1. unfold a'.
    by rewrite Hdown.
  - cbn [vehicles d1 d2 profiles mods images].
    assert (∀ z, tbl1 !! z =
                 if bool_decide (z = x) then Some a'
                 else if bool_decide (z = y) then Some b'
                      else mods d !! z) as Htbl1.
    { intros z. unfold tbl1.
      by rewrite (swap_sort_order_lookup siblings (x, a) (y, b) now1 _ z). }
    split; [by rewrite Htbl1, bool_decide_eq_true_2|].
    split.
    { rewrite Htbl1, bool_decide_eq_false_2 by done.
      by rewrite bool_decide_eq_true_2. }
    split.
    { intros z Hzx Hzy. rewrite Hback, Htbl1.
      by rewrite !(bool_decide_eq_false_2 (z = x)),
                 !(bool_decide_eq_false_2 (z = y)) by done. }
    split; [|done].
    intros z. rewrite Hback.
    case_bool_decide as Hzx; [subst z|case_bool_decide as Hzy; [subst z|done]].
    + rewrite Hxm. done.
    + rewrite (lookup_weaken _ _ _ _ Hy Hsub). done.
Qed.

(** *** What a swap writes *)

Lemma vehicle_swap_frame uid now vid dir d d' :
  reorder_vehicle_swap uid now vid dir d = Ok (d', moved) →
  profiles d' = profiles d ∧ mods d' = mods d ∧ images d' = images d ∧
  ∃ x a y b,
    x ≠ y ∧ vehicles d !! x = Some a ∧ vehicles d !! y = Some b ∧
    vehicles d' !! x = Some (with_sort_order (sort_order_of b) now a) ∧
    vehicles d' !! y = Some (with_sort_order (sort_order_of a) now b) ∧
    ∀ z, z ≠ x → z ≠ y → vehicles d' !! z = vehicles d !! z.
Proof.
  unfold reorder_vehicle_swap. destruct (invalid_direction dir); [done|].
  destruct uid as [u|]; [|done].
  set (own := filter _ (lockable_vehicles _ d)).
  assert (own ⊆ vehicles d) as Hsub.
  { unfold own, lockable_vehicles, visible_vehicles.
    etrans; [apply map_filter_subseteq|].
    etrans; apply map_filter_subseteq. }
  destruct vid as [x|]; [|done]. cbn [mbind option_bind].
  destruct (own !! x) as [a|] eqn:Hx; [|done]. cbn [fmap option_fmap option_map].
  destruct (select_neighbor (is_up dir) own (x, a)) as [[y b]|] eqn:Hsel;
    [|done].
  intros [= <-]. cbn [profiles vehicles mods images].
  do 3 (split; [done|]).
  apply select_neighbor_nearest in Hsel as Hnear.
  pose proof (nearest_distinct _ own (x, a) (y, b) Hx Hnear) as Hyx.
  destruct Hnear as (Hy & _ & _). simpl in Hy, Hyx.
  assert (∀ z, swap_sort_order own (x, a) (y, b) now (vehicles d) !! z =
               if bool_decide (z = x)
               then Some (with_sort_order (sort_order_of b) now a)
               else if bool_decide (z = y)
                    then Some (with_sort_order (sort_order_of a) now b)
                    else vehicles d !! z) as Hswap.
  { intros z.
    by rewrite (swap_sort_order_lookup own (x, a) (y, b) now _ z). }
  exists x, a, y, b. split; [done|].
  split; [by apply (lookup_weaken _ _ _ _ Hx)|].
  split; [by apply (lookup_weaken _ _ _ _ Hy)|].
  split; [by rewrite Hswap, bool_decide_eq_true_2|]. split.
  - rewrite Hswap, bool_decide_eq_false_2 by done.
    by rewrite bool_decide_eq_true_2.
  - intros z Hzx Hzy. rewrite Hswap.
    by rewrite !bool_decide_eq_false_2 by done.
Qed.

Lemma mod_swap_frame uid now vid mid dir d d' :
  reorder_mod_swap uid now vid mid dir d = Ok (d', moved) →
  profiles d' = profiles d ∧ vehicles d' = vehicles d ∧
  images d' = images d ∧
  ∃ x a y b,
    x ≠ y ∧ mods d !! x = Some a ∧ mods d !! y = Some b ∧
    mods d' !! x = Some (with_sort_order (sort_order_of b) now a) ∧
    mods d' !! y = Some (with_sort_order (sort_order_of a) now b) ∧
    ∀ z, z ≠ x → z ≠ y → mods d' !! z = mods d !! z.
Proof.
  unfold reorder_mod_swap. destruct (invalid_direction dir); [done|].
  destruct uid as [u|]; [|done].
  set (siblings := filter _ (lockable_mods _ d)).
  assert (siblings ⊆ mods d) as Hsub.
  { unfold siblings, lockable_mods, visible_mods.
    etrans; [apply map_filter_subseteq|].
    etrans; apply map_filter_subseteq. }
  destruct mid as [x|]; [|done]. cbn [mbind option_bind].
  destruct (siblings !! x) as [a|] eqn:Hx; [|done]. cbn [mbind option_bind].
  destruct (visible_vehicles _ d !! Mod.vehicle_id a) as [v|]; [|done].
  cbn [mbind option_bind]. case_bool_decide; [|done].
  destruct (select_neighbor (is_up dir) siblings (x, a)) as [[y b]|] eqn:Hsel;
    [|done].
  intros [= <-]. cbn [profiles vehicles mods images].
  do 3 (split; [done|]).
  apply select_neighbor_nearest in Hsel as Hnear.
  pose proof (nearest_distinct _ siblings (x, a) (y, b) Hx Hnear) as Hyx.
  destruct Hnear as (Hy & _ & _). simpl in Hy, Hyx.
  assert (∀ z, swap_sort_order siblings (x, a) (y, b) now (mods d) !! z =
               if bool_decide (z = x)
               then Some (with_sort_order (sort_order_of b) now a)
               else if bool_decide (z = y)
                    then Some (with_sort_order (sort_order_of a) now b)
                    else mods d !! z) as Hswap.
  { intros z.
    by rewrite (swap_sort_order_lookup siblings (x, a) (y, b) now _ z). }
  exists x, a, y, b. split; [done|].
  split; [by apply (lookup_weaken _ _ _ _ Hx)|].
  split; [by apply (lookup_weaken _ _ _ _ Hy)|].
  split; [by rewrite Hswap, bool_decide_eq_true_2|]. split.
  - rewrite Hswap, bool_decide_eq_false_2 by done.
    by rewrite bool_decide_eq_true_2.
  - intros z Hzx Hzy. rewrite Hswap.
    by rewrite !bool_decide_eq_false_2 by done.
Qed.

(** C9 (as amended).  Let [x] be a vehicle of the caller, or a mod of a
    vehicle of the caller, and [y] the sibling just before it, the two
    [sort_order] values being different and held by no other sibling.  Then
    [reorder(x, 'up')] and [reorder(x, 'down')] both return [moved]; the
    first exchanges the [sort_order] of [x] and [y]; after the second every
    row has the sort key it had at the start, so the siblings are in their
    original order; and no row other than [x] and [y] is written.  Whatever
    the values, a call that returns [moved] exchanges the [sort_order] of
    two rows and leaves every other row and table as it was. *)
Theorem reorder_round_trip u now1 now2 d :
  is_Some (profiles d !! u) →
  (∀ x a y b,
     let own := filter (fun kv => Vehicle.profile_id kv.2 = u) (vehicles d) in
     own !! x = Some a →
     nearest true own (x, a) (y, b) →
     sort_order_of a ≠ sort_order_of b →
     (∀ z c, own !! z = Some c → z ≠ x → z ≠ y →
             sort_order_of c ≠ sort_order_of a ∧
             sort_order_of c ≠ sort_order_of b) →
     ∃ d1 d2,
       reorder_vehicle_swap (Some u) now1 (Some x) (Some "up") d
         = Ok (d1, moved) ∧
       reorder_vehicle_swap (Some u) now2 (Some x) (Some "down") d1
         = Ok (d2, moved) ∧
       vehicles d1 !! x = Some (with_sort_order (sort_order_of b) now1 a) ∧
       vehicles d1 !! y = Some (with_sort_order (sort_order_of a) now1 b) ∧
       (∀ z, z ≠ x → z ≠ y →
             vehicles d1 !! z = vehicles d !! z ∧
             vehicles d2 !! z = vehicles d !! z) ∧
       (∀ z, (fun v => key_of (z, v)) <$> vehicles d2 !! z
             = (fun v => key_of (z, v)) <$> vehicles d !! z) ∧
       profiles d2 = profiles d ∧ mods d2 = mods d ∧ images d2 = images d) ∧
  (∀ vid pv x a y b,
     let siblings := filter (fun kv => Mod.vehicle_id kv.2 = vid) (mods d) in
     vehicles d !! vid = Some pv → Vehicle.profile_id pv = u →
     siblings !! x = Some a →
     nearest true siblings (x, a) (y, b) →
     sort_order_of a ≠ sort_order_of b →
     (∀ z c, siblings !! z = Some c → z ≠ x → z ≠ y →
             sort_order_of c ≠ sort_order_of a ∧
             sort_order_of c ≠ sort_order_of b) →
     ∃ d1 d2,
       reorder_mod_swap (Some u) now1 (Some vid) (Some x) (Some "up") d
         = Ok (d1, moved) ∧
       reorder_mod_swap (Some u) now2 (Some vid) (Some x) (Some "down") d1
         = Ok (d2, moved) ∧
       mods d1 !! x = Some (with_sort_order (sort_order_of b) now1 a) ∧
       mods d1 !! y = Some (with_sort_order (sort_order_of a) now1 b) ∧
       (∀ z, z ≠ x → z ≠ y →
             mods d1 !! z = mods d !! z ∧ mods d2 !! z = mods d !! z) ∧
       (∀ z, (fun m => key_of (z, m)) <$> mods d2 !! z
             = (fun m => key_of (z, m)) <$> mods d !! z) ∧
       profiles d2 = profiles d ∧ vehicles d2 = vehicles d ∧
       images d2 = images d) ∧
  (∀ uid vid dir d',
     reorder_vehicle_swap uid now1 vid dir d = Ok (d', moved) →
     profiles d' = profiles d ∧ mods d' = mods d ∧ images d' = images d ∧
     ∃ x a y b,
       x ≠ y ∧ vehicles d !! x = Some a ∧ vehicles d !! y = Some b ∧
       vehicles d' !! x = Some (with_sort_order (sort_order_of b) now1 a) ∧
       vehicles d' !! y = Some (with_sort_order (sort_order_of a) now1 b) ∧
       ∀ z, z ≠ x → z ≠ y → vehicles d' !! z = vehicles d !! z) ∧
  (∀ uid vid mid dir d',
     reorder_mod_swap uid now1 vid mid dir d = Ok (d', moved) →
     profiles d' = profiles d ∧ vehicles d' = vehicles d ∧
     images d' = images d ∧
     ∃ x a y b,
       x ≠ y ∧ mods d !! x = Some a ∧ mods d !! y = Some b ∧
       mods d' !! x = Some (with_sort_order (sort_order_of b) now1 a) ∧
       mods d' !! y = Some (with_sort_order (sort_order_of a) now1 b) ∧
       ∀ z, z ≠ x → z ≠ y → mods d' !! z = mods d !! z).
Proof.
  intros Hp. split; [|split; [|split]].
  - intros x a y b own. by apply vehicles_round_trip.
  - intros vid pv x a y b siblings. by apply mods_round_trip.
  - intros uid vid dir d'. apply vehicle_swap_frame.
  - intros uid vid mid dir d'. apply mod_swap_frame.
Qed.

(** In [garage], vehicle 20 is not the caller's and vehicle 99 does not
    exist: profile 1 gets the same answer for both, and so does a caller
    without identity. *)
Lemma reorder_not_found_witness :
  reorder_vehicle_swap (Some 1%N) 7 (Some 20%N) (Some "up") Sample.garage
    = Ok (Sample.garage, not_found) ∧
  reorder_vehicle_swap (Some 1%N) 7 (Some 99%N) (Some "up") Sample.garage
    = Ok (Sample.garage, not_found) ∧
  reorder_vehicle_swap None 7 (Some 10%N) (Some "up") Sample.garage
    = Ok (Sample.garage, not_found) ∧
  reorder_mod_swap (Some 2%N) 7 (Some 10%N) (Some 30%N) (Some "up")
    Sample.garage
    = Ok (Sample.garage, not_found).
Proof.
  split; [|split; [|split]].
  - apply (reorder_not_found (Some 1%N) 7 "up" Sample.garage); [by left|].
    right. right. exists (Sample.vehicle 2%N true 0 0). by split.
  - apply (reorder_not_found (Some 1%N) 7 "up" Sample.garage); [by left|].
    right. by left.
  - apply (reorder_not_found None 7 "up" Sample.garage); [by left|].
    by left.
  - apply (reorder_not_found (Some 2%N) 7 "up" Sample.garage); [by left|].
    right. right. exists (Sample.mod_ 10%N 0 5). split; [done|].
    intros [_ (v & Hv & Hu)]. vm_compute in Hv. by simplify_eq.
Defined.

(** In [garage], vehicle 10 is the first vehicle of profile 1 and mod 31
    the last mod of vehicle 10. *)
Lemma reorder_boundary_witness :
  reorder_vehicle_swap (Some 1%N) 7 (Some 10%N) (Some "up") Sample.garage
    = Ok (Sample.garage, boundary) ∧
  reorder_mod_swap (Some 1%N) 7 (Some 10%N) (Some 31%N) (Some "down")
    Sample.garage
    = Ok (Sample.garage, boundary).
Proof.
  assert (is_Some (profiles Sample.garage !! 1%N)) as Hp by (by eexists).
  split.
  - destruct (reorder_boundary 1%N 7 true Sample.garage Hp) as [Hfirst _].
    apply (Hfirst 10%N (Sample.vehicle 1%N true 0 2));
      [reflexivity|reflexivity|].
    apply (bool_decide_unpack
             (map_Forall (fun y w => Vehicle.profile_id w = 1%N →
                beyond true (key_of (10%N, Sample.vehicle 1%N true 0 2))
                  (key_of (y, w)) = false)
                (vehicles Sample.garage))).
    vm_compute. exact I.
  - destruct (reorder_boundary 1%N 7 false Sample.garage Hp) as [_ Hlast].
    apply (Hlast 10%N (Sample.vehicle 1%N true 0 2) 31%N
             (Sample.mod_ 10%N 1 6));
      [reflexivity|reflexivity|reflexivity|reflexivity|].
    apply (bool_decide_unpack
             (map_Forall (fun y w => Mod.vehicle_id w = 10%N →
                beyond false (key_of (31%N, Sample.mod_ 10%N 1 6))
                  (key_of (y, w)) = false)
                (mods Sample.garage))).
    vm_compute. exact I.
Defined.

(** In [garage] the vehicles of profile 1 have the sort orders 0, 1 and 2:
    moving vehicle 11 up and down again gives every vehicle its sort key
    back. *)
Lemma reorder_round_trip_witness :
  ∃ d1 d2,
    reorder_vehicle_swap (Some 1%N) 100 (Some 11%N) (Some "up") Sample.garage
      = Ok (d1, moved) ∧
    reorder_vehicle_swap (Some 1%N) 200 (Some 11%N) (Some "down") d1
      = Ok (d2, moved) ∧
    Vehicle.sort_order <$> vehicles d1 !! 11%N = Some 0 ∧
    Vehicle.sort_order <$> vehicles d1 !! 10%N = Some 1 ∧
    ∀ z, (fun v => key_of (z, v)) <$> vehicles d2 !! z
         = (fun v => key_of (z, v)) <$> vehicles Sample.garage !! z.
Proof.
  assert (is_Some (profiles Sample.garage !! 1%N)) as Hp by (by eexists).
  destruct (reorder_round_trip 1%N 100 200 Sample.garage Hp) as [Hv _].
  destruct (Hv 11%N (Sample.vehicle 1%N true 1 3)
               10%N (Sample.vehicle 1%N true 0 2))
    as (d1 & d2 & Hup & Hdown & Hx & Hy & _ & Hkeys & _).
  - reflexivity.
  - apply select_neighbor_nearest. reflexivity.
  - simpl. discriminate.
  - apply (bool_decide_unpack
             (map_Forall (fun z c => z ≠ 11%N → z ≠ 10%N →
                sort_order_of c ≠ sort_order_of (Sample.vehicle 1%N true 1 3) ∧
                sort_order_of c ≠ sort_order_of (Sample.vehicle 1%N true 0 2))
                (filter (fun kv => Vehicle.profile_id kv.2 = 1%N)
                   (vehicles Sample.garage)))).
    vm_compute. exact I.
  - exists d1, d2. split; [done|]. split; [done|].
    split; [exact (f_equal (fmap Vehicle.sort_order) Hx)|].
    split; [exact (f_equal (fmap Vehicle.sort_order) Hy)|done].
Defined.

(** C9 as stated fails when sort orders collide.  In [tied_garage] the
    order is 10, 11, 12 and vehicle 11 is the neighbor just before 12.
    [reorder(12, 'up')] exchanges 1 and 0 with vehicle 11, which puts 12
    before vehicle 10 as well; [reorder(12, 'down')] then finds vehicle 10,
    whose [sort_order] is the same, so nothing changes: both calls return
    [moved], and vehicle 12 stays before vehicle 11. *)
Lemma reorder_round_trip_counterexample :
  let own := filter (fun kv => Vehicle.profile_id kv.2 = 1%N)
               (vehicles Sample.tied_garage) in
  select_neighbor true own (12%N, Sample.vehicle 1%N true 1 1)
    = Some (11%N, Sample.vehicle 1%N true 0 3) ∧
  ∃ d1 d2 v11 v12,
    reorder_vehicle_swap (Some 1%N) 100 (Some 12%N) (Some "up")
      Sample.tied_garage = Ok (d1, moved) ∧
    reorder_vehicle_swap (Some 1%N) 200 (Some 12%N) (Some "down") d1
      = Ok (d2, moved) ∧
    vehicles d2 !! 11%N = Some v11 ∧
    vehicles d2 !! 12%N = Some v12 ∧
    key_lt (key_of (11%N, Sample.vehicle 1%N true 0 3))
           (key_of (12%N, Sample.vehicle 1%N true 1 1)) = true ∧
    key_lt (key_of (12%N, v12)) (key_of (11%N, v11)) = true.
Proof.
  split; [reflexivity|].
  eexists _, _, _, _.
  split; [reflexivity|]. split; [reflexivity|].
  split; [reflexivity|]. split; [reflexivity|].
  split; reflexivity.
Qed.

End ReorderFacts.

Module BucketChecksFacts.
Import RateLimitStore RateLimitStoreFacts BucketChecks.

Lemma declare_inv now key mx ws f :
  declare now key mx ws = Ok f →
  trim (default "" key) ≠ "" ∧
  v_key f = trim (default "" key) ∧
  v_now f = now ∧
  v_window_seconds f = Z.max 1 (Z.min (default 1 ws) 86400) ∧
  v_max_requests f = Z.max 1 (Z.min (default 1 mx) 100000) ∧
  v_window_started_at f =
    now / (usec * v_window_seconds f) * v_window_seconds f * usec ∧
  v_window_ends_at f = v_window_started_at f + v_window_seconds f * usec ∧
  v_expires_at f = v_window_ends_at f + Z.max (v_window_seconds f) 600 * usec.
Proof.
  intros Hf.
  destruct (decide (trim (default "" key) = "")) as [Hk|Hk].
  - unfold declare in Hf. by rewrite bool_decide_eq_true_2 in Hf.
  - split; [done|].
    destruct (declare_ok now key mx ws Hk) as (f' & Hf' & Hrest).
    rewrite Hf in Hf'. by injection Hf' as <-.
Qed.

(** What a call that returns has done: the declarations, the upsert with
    the count it stored, the optional cleanup, the output row. *)
Lemma consume_inv rnd now key mx ws (tbl tbl' : table) row :
  rate_limit_consume rnd now key mx ws tbl = Ok (tbl', row) →
  ∃ f, declare now key mx ws = Ok f ∧
    next_count f tbl ≤ int4_max ∧
    tbl' = maybe_cleanup rnd now
             (<[v_key f := {| window_started_at := v_window_started_at f;
                              window_seconds := v_window_seconds f;
                              request_count := next_count f tbl;
                              window_ends_at := v_window_ends_at f;
                              expires_at := v_expires_at f;
                              updated_at := v_now f |}]> tbl) ∧
    row = output f (next_count f tbl) (v_window_ends_at f).
Proof.
  unfold rate_limit_consume. intros Hrun.
  destruct (declare now key mx ws) as [f|] eqn:Hf; [|done].
  exists f. split; [done|]. cbn [mbind result_bind] in Hrun.
  assert (∃ n, upsert f tbl = Ok (<[v_key f :=
              {| window_started_at := v_window_started_at f;
                 window_seconds := v_window_seconds f;
                 request_count := n;
                 window_ends_at := v_window_ends_at f;
                 expires_at := v_expires_at f;
                 updated_at := v_now f |}]> tbl, (n, v_window_ends_at f))
            ∧ n = next_count f tbl ∧ n ≤ int4_max) as (n & Hu & -> & Hn).
  { unfold upsert, next_count in *.
    destruct (tbl !! v_key f) as [rl|]; [|by exists 1].
    destruct (decide (window_started_at rl = v_window_started_at f)) as [Hs|Hs];
      destruct (decide (window_seconds rl = v_window_seconds f)) as [Hw|Hw].
    - rewrite !bool_decide_eq_true_2 in * by done. cbn [andb] in *.
      unfold int4_add in *. case_bool_decide as Hr; [|done].
      exists (request_count rl + 1). cbn [mbind result_bind]. split; [done|].
      split; [done|lia].
    - rewrite (bool_decide_eq_false_2 (window_seconds rl = _)) in * by done.
      rewrite (bool_decide_eq_false_2 (_ ∧ _)) by tauto.
      rewrite andb_false_r in *. by exists 1.
    - rewrite (bool_decide_eq_false_2 (window_started_at rl = _)) in * by done.
      rewrite (bool_decide_eq_false_2 (_ ∧ _)) by tauto. by exists 1.
    - rewrite (bool_decide_eq_false_2 (window_started_at rl = _)) in * by done.
      rewrite (bool_decide_eq_false_2 (_ ∧ _)) by tauto. by exists 1. }
  rewrite Hu in Hrun. cbn [mbind result_bind] in Hrun.
  injection Hrun as <- <-. done.
Qed.

Lemma bucket_checks_spec b :
  bucket_checks b = true ↔
  0 < window_seconds b ∧ 0 < request_count b ∧
  window_started_at b < window_ends_at b ∧ window_ends_at b ≤ expires_at b.
Proof.
  unfold bucket_checks, rate_limit_buckets_window_seconds_positive,
    rate_limit_buckets_request_count_positive, rate_limit_buckets_window_range,
    rate_limit_buckets_expires_after_window.
  rewrite !andb_true_iff, !Z.ltb_lt, Z.leb_le. tauto.
Qed.

Lemma next_count_pos f (tbl : table) :
  table_checks tbl → 0 < next_count f tbl.
Proof.
  intros Hchk. unfold next_count.
  destruct (tbl !! v_key f) as [rl|] eqn:Hrl; [|lia].
  apply Hchk, bucket_checks_spec in Hrl.
  case_bool_decide; lia.
Qed.

Lemma cleanup_checks now p (tbl : table) :
  table_checks tbl → table_checks (rate_limit_cleanup_expired now p tbl).1.
Proof.
  intros Hchk k b Hk.
  destruct (cleanup_lookup now p tbl k) as [Heq|[Heq _]];
    rewrite Heq in Hk; [by eapply Hchk|done].
Qed.

(** X1.  The statements of [rate_limit_consume] and of
    [rate_limit_cleanup_expired] never leave a row that breaks a check
    constraint of [rate_limit_buckets]: on a table whose rows pass the four
    checks, the rows after a call that returns, and after a cleanup, pass
    them too. *)
Theorem rate_limit_store_keeps_checks (tbl : table) :
  table_checks tbl →
  (∀ rnd now key mx ws tbl' row,
     rate_limit_consume rnd now key mx ws tbl = Ok (tbl', row) →
     table_checks tbl') ∧
  (∀ now p, table_checks (rate_limit_cleanup_expired now p tbl).1).
Proof.
  intros Hchk. split; [|intros now p; by apply cleanup_checks].
  intros rnd now key mx ws tbl' row Hrun.
  destruct (consume_inv _ _ _ _ _ _ _ _ Hrun) as (f & Hf & _ & -> & _).
  destruct (declare_inv _ _ _ _ _ Hf)
    as (_ & _ & _ & Hw & _ & _ & He & Hx).
  assert (table_checks
            (<[v_key f := {| window_started_at := v_window_started_at f;
                             window_seconds := v_window_seconds f;
                             request_count := next_count f tbl;
                             window_ends_at := v_window_ends_at f;
                             expires_at := v_expires_at f;
                             updated_at := v_now f |}]> tbl)) as Hins.
  { apply map_Forall_insert_2; [|done].
    apply bucket_checks_spec. cbn.
    pose proof (next_count_pos f tbl Hchk). pose proof usec_pos.
    repeat split; [lia|lia|nia|nia]. }
  unfold maybe_cleanup. destruct rnd; [by apply cleanup_checks|done].
Qed.

Lemma rate_limit_store_keeps_checks_witness :
  let tbl : table :=
    {[ "k" := {| window_started_at := 0; window_seconds := 60;
                 request_count := 2; window_ends_at := 60000000;
                 expires_at := 660000000; updated_at := 0 |} ]} in
  table_checks (rate_limit_cleanup_expired 700000000 None tbl).1.
Proof.
  intros tbl.
  assert (table_checks tbl) as Hchk by (by apply map_Forall_singleton).
  exact (proj2 (rate_limit_store_keeps_checks tbl Hchk) 700000000 None).
Defined.

(** X2.  On a table that passes its checks, the row a call returns is
    within bounds: [remaining] lies in [0, max_requests); the call is
    allowed exactly when [retry_after_seconds] is 0; a denied call has
    nothing remaining and a wait of at least one second and at most the
    window length; and the window end returned is after the transaction
    time, by no more than the window length. *)
Theorem rate_limit_consume_row_bounds rnd now key mx ws (tbl tbl' : table) row :
  let w := Z.max 1 (Z.min (default 1 ws) 86400) in
  let m := Z.max 1 (Z.min (default 1 mx) 100000) in
  table_checks tbl →
  rate_limit_consume rnd now key mx ws tbl = Ok (tbl', row) →
  0 ≤ remaining row < m ∧
  (allowed row = true ↔ retry_after_seconds row = 0) ∧
  (allowed row = false →
     remaining row = 0 ∧ 1 ≤ retry_after_seconds row ≤ w) ∧
  now < out_window_ends_at row ≤ now + w * usec.
Proof.
  intros w m Hchk Hrun.
  destruct (consume_inv _ _ _ _ _ _ _ _ Hrun) as (f & Hf & _ & _ & ->).
  destruct (declare_inv _ _ _ _ _ Hf)
    as (_ & _ & Hn & Hw & Hm & Hs & He & _).
  fold w in Hw. fold m in Hm. rewrite Hw in Hs, He.
  pose proof (next_count_pos f tbl Hchk) as Hpos.
  assert (1 ≤ w ≤ 86400) as Hwb by (apply clamp_bounds; lia).
  assert (1 ≤ m ≤ 100000) as Hmb by (apply clamp_bounds; lia).
  pose proof (window_aligned now w ltac:(lia)) as Hal. cbv zeta in Hal.
  rewrite <-Hs in Hal.
  pose proof (ceil_epoch_spec (v_window_ends_at f - v_now f)) as Hceil.
  pose proof usec_pos as Hu.
  unfold output. cbn. rewrite Hm, Hn in *.
  destruct (Z.leb_spec (next_count f tbl) m) as [Hle|Hlt].
  - repeat split; try lia; done.
  - repeat split; try lia; try done. nia.
Qed.

Lemma rate_limit_consume_row_bounds_witness :
  ∃ tbl' row,
    rate_limit_consume false 30000000 (Some "k") (Some 2) (Some 60)
      {[ "k" := {| window_started_at := 0; window_seconds := 60;
                   request_count := 2; window_ends_at := 60000000;
                   expires_at := 660000000; updated_at := 0 |} ]}
    = Ok (tbl', row) ∧
    allowed row = false ∧ remaining row = 0 ∧ retry_after_seconds row = 30.
Proof.
  set (tbl := {[ "k" := _ ]}).
  assert (table_checks tbl) as Hchk by (by apply map_Forall_singleton).
  destruct (rate_limit_consume _ _ _ _ _ tbl) as [[tbl' row]|] eqn:Hrun;
    [|vm_compute in Hrun; discriminate].
  exists tbl', row. split; [reflexivity|].
  destruct (rate_limit_consume_row_bounds _ _ _ _ _ _ _ _ Hchk Hrun)
    as (_ & _ & Hdenied & _).
  vm_compute in Hrun. injection Hrun as _ <-. done.
Defined.

Lemma expires_le_trans : Transitive expires_le.
Proof. intros a b c. unfold expires_le. lia. Qed.

Lemma expires_le_total : Total expires_le.
Proof. intros a b. unfold expires_le. lia. Qed.

(** The rows the cleanup looks at, oldest first: the expired rows of the
    table, each once. *)
Lemma expired_sorted_elem now (tbl : table) k b :
  (k, b) ∈ merge_sort expires_le
             (filter (fun kb => expires_at kb.2 < now) (map_to_list tbl)) ↔
  tbl !! k = Some b ∧ expires_at b < now.
Proof.
  rewrite merge_sort_Permutation, list_elem_of_filter, elem_of_map_to_list.
  simpl. tauto.
Qed.

Lemma expired_sorted_NoDup now (tbl : table) :
  NoDup (merge_sort expires_le
           (filter (fun kb => expires_at kb.2 < now) (map_to_list tbl))).*1.
Proof.
  rewrite merge_sort_Permutation.
  eapply sublist_NoDup; [apply (NoDup_fst_map_to_list tbl)|].
  apply fmap_sublist, sublist_filter.
Qed.

Lemma size_foldr_delete (l : list (string * bucket)) (tbl : table) :
  NoDup l.*1 → (∀ k b, (k, b) ∈ l → is_Some (tbl !! k)) →
  (size (foldr (fun e t => delete e.1 t) tbl l) + length l)%nat = size tbl.
Proof.
  induction l as [|[k b] l IH]; intros Hnd Hin; [simpl; lia|].
  rewrite fmap_cons in Hnd. apply NoDup_cons in Hnd as [Hk Hnd].
  cbn [foldr fst length]. rewrite map_size_delete_Some.
  - rewrite <-IH; [|done|intros k' b' Hin'; apply (Hin k' b'); by right].
    assert (0 < size (foldr (fun e t => delete e.1 t) tbl l))%nat; [|lia].
    destruct (Hin k b ltac:(left)) as [b0 Hb0].
    assert (foldr (fun e t => delete e.1 t) tbl l !! k = Some b0) as Hl.
    { rewrite foldr_delete_lookup. by rewrite bool_decide_eq_false_2. }
    pose proof (map_size_ne_0_lookup_2 _ _ (mk_is_Some _ _ Hl)). lia.
  - rewrite foldr_delete_lookup, bool_decide_eq_false_2 by done.
    apply (Hin k b). left.
Qed.

(** X3.  [rate_limit_cleanup_expired] clamps its limit to [1, 5000],
    deletes at most that many rows and returns the number it deleted; every
    row it keeps is unchanged, and it keeps every row that has not expired:
    only rows with [expires_at] before the transaction time go. *)
Theorem rate_limit_cleanup_expired_spec now p (tbl : table) :
  let lim := Z.max 1 (Z.min (default 500 p) 5000) in
  let tbl' := (rate_limit_cleanup_expired now p tbl).1 in
  let n := (rate_limit_cleanup_expired now p tbl).2 in
  1 ≤ lim ≤ 5000 ∧
  0 ≤ n ≤ lim ∧
  Z.of_nat (size tbl') = Z.of_nat (size tbl) - n ∧
  (∀ k b, tbl' !! k = Some b → tbl !! k = Some b) ∧
  (∀ k b, tbl !! k = Some b → now ≤ expires_at b → tbl' !! k = Some b).
Proof.
  intros lim tbl' n.
  assert (1 ≤ lim ≤ 5000) as Hlim by (apply clamp_bounds; lia).
  split; [done|].
  unfold tbl', n, rate_limit_cleanup_expired. fold lim. cbn [fst snd].
  split; [|split; [|split]].
  - unfold expired_rows. rewrite length_take. lia.
  - rewrite <-(size_foldr_delete (expired_rows now lim tbl) tbl); [lia| |].
    + eapply sublist_NoDup; [apply (expired_sorted_NoDup now tbl)|].
      apply fmap_sublist, sublist_take.
    + intros k b Hin. apply expired_rows_elem in Hin as [-> _]. eauto.
  - intros k b. rewrite foldr_delete_lookup. by case_bool_decide.
  - intros k b Hk Hlive. rewrite foldr_delete_lookup.
    rewrite bool_decide_eq_false_2; [done|].
    intros Hin. apply list_elem_of_fmap in Hin as [[k' b'] [-> Hin]].
    apply expired_rows_elem in Hin as [Hk' Hexp]. simpl in *.
    rewrite Hk in Hk'. injection Hk' as <-. lia.
Qed.

(** X4.  The cleanup takes the expired rows oldest first: a deleted row
    expired no later than any expired row that is left.  When it deletes
    fewer rows than its limit, no expired row is left. *)
Theorem rate_limit_cleanup_expired_oldest_first now p (tbl : table) :
  let lim := Z.max 1 (Z.min (default 500 p) 5000) in
  let tbl' := (rate_limit_cleanup_expired now p tbl).1 in
  let n := (rate_limit_cleanup_expired now p tbl).2 in
  (∀ k b k2 b2,
     tbl !! k = Some b → tbl' !! k = None →
     tbl' !! k2 = Some b2 → expires_at b2 < now →
     expires_at b ≤ expires_at b2) ∧
  (n < lim → ∀ k b, tbl' !! k = Some b → now ≤ expires_at b).
Proof.
  intros lim tbl' n.
  unfold tbl', n, rate_limit_cleanup_expired. fold lim. cbn [fst snd].
  set (sorted := merge_sort expires_le
                   (filter (fun kb => expires_at kb.2 < now) (map_to_list tbl))).
  assert (expired_rows now lim tbl = take (Z.to_nat lim) sorted) as Hexp
    by done.
  assert (∀ k b, tbl !! k = Some b → expires_at b < now →
            foldr (fun e t => delete e.1 t) tbl (expired_rows now lim tbl) !! k
            = Some b →
            (k, b) ∈ drop (Z.to_nat lim) sorted) as Hleft.
  { intros k b Hk Hold. rewrite foldr_delete_lookup.
    case_bool_decide as Hin; [done|]. intros _.
    assert ((k, b) ∈ sorted) as Hs by (by apply expired_sorted_elem).
    rewrite <-(take_drop (Z.to_nat lim) sorted) in Hs.
    apply elem_of_app in Hs as [Hs|Hs]; [|done].
    destruct Hin. rewrite Hexp. apply list_elem_of_fmap. by exists (k, b). }
  split.
  - intros k b k2 b2 Hk Hgone Hk2 Hold2.
    rewrite foldr_delete_lookup in Hgone, Hk2.
    destruct (decide (k ∈ (expired_rows now lim tbl).*1)) as [Hin|Hin];
      [|rewrite bool_decide_eq_false_2 in Hgone by done; congruence].
    destruct (decide (k2 ∈ (expired_rows now lim tbl).*1)) as [Hin2|Hin2];
      [by rewrite bool_decide_eq_true_2 in Hk2|].
    rewrite bool_decide_eq_false_2 in Hk2 by done.
    apply list_elem_of_fmap in Hin as [[k' b'] [-> Hin]]. simpl in *.
    pose proof (expired_rows_elem _ _ _ _ _ Hin) as [Hk' _].
    rewrite Hk in Hk'. injection Hk' as <-.
    assert ((k2, b2) ∈ drop (Z.to_nat lim) sorted) as Hd.
    { apply Hleft; [done|done|].
      rewrite foldr_delete_lookup. by rewrite bool_decide_eq_false_2. }
    rewrite Hexp in Hin.
    pose proof (@StronglySorted_merge_sort _ expires_le _
                  expires_le_trans expires_le_total
                  (filter (fun kb => expires_at kb.2 < now) (map_to_list tbl)))
      as Hss.
    fold sorted in Hss. rewrite <-(take_drop (Z.to_nat lim) sorted) in Hss.
    exact (StronglySorted_app_1_elem_of _ _ _ _ _ Hss Hin Hd).
  - intros Hn k b Hk.
    destruct (Z.le_gt_cases now (expires_at b)) as [|Hold]; [done|].
    assert (tbl !! k = Some b) as Hk0.
    { rewrite foldr_delete_lookup in Hk. by case_bool_decide. }
    pose proof (Hleft k b Hk0 Hold Hk) as Hd.
    rewrite Hexp, length_take in Hn.
    rewrite drop_ge in Hd by lia. by apply not_elem_of_nil in Hd.
Qed.

(** X5.  A call of [rate_limit_consume] writes the row of its own key
    only.  The row of any other key is as it was, unless the cleanup that
    the call may run deleted it, which happens only to a row that had
    expired; a call that skips the cleanup leaves all other rows as they
    were. *)
Theorem rate_limit_consume_other_keys rnd now key mx ws (tbl tbl' : table) row :
  rate_limit_consume rnd now key mx ws tbl = Ok (tbl', row) →
  ∀ k, k ≠ trim (default "" key) →
    (tbl' !! k = tbl !! k ∨
     (tbl' !! k = None ∧ ∃ b, tbl !! k = Some b ∧ expires_at b < now)) ∧
    (rnd = false → tbl' !! k = tbl !! k).
Proof.
  intros Hrun k Hne.
  destruct (consume_inv _ _ _ _ _ _ _ _ Hrun) as (f & Hf & _ & -> & _).
  destruct (declare_inv _ _ _ _ _ Hf) as (_ & Hk & _).
  rewrite <-Hk in Hne. unfold maybe_cleanup. split.
  - destruct rnd; [|left; by rewrite lookup_insert_ne].
    destruct (cleanup_lookup now (Some 200)
                (<[v_key f := {| window_started_at := v_window_started_at f;
                                 window_seconds := v_window_seconds f;
                                 request_count := next_count f tbl;
                                 window_ends_at := v_window_ends_at f;
                                 expires_at := v_expires_at f;
                                 updated_at := v_now f |}]> tbl) k)
      as [Heq|[Heq (b & Hb & Hold)]].
    + left. by rewrite Heq, lookup_insert_ne.
    + right. split; [done|]. exists b. by rewrite lookup_insert_ne in Hb.
  - intros ->. by rewrite lookup_insert_ne.
Qed.

Lemma rate_limit_consume_other_keys_witness :
  ∃ tbl' row,
    rate_limit_consume true 700000000 (Some "k") (Some 2) (Some 60)
      {[ "old" := {| window_started_at := 0; window_seconds := 60;
                     request_count := 2; window_ends_at := 60000000;
                     expires_at := 660000000; updated_at := 0 |} ]}
    = Ok (tbl', row) ∧ tbl' !! "old" = None.
Proof.
  set (tbl := {[ "old" := _ ]}).
  destruct (rate_limit_consume _ _ _ _ _ tbl) as [[tbl' row]|] eqn:Hrun;
    [|vm_compute in Hrun; discriminate].
  exists tbl', row. split; [reflexivity|].
  destruct (rate_limit_consume_other_keys _ _ _ _ _ _ _ _ Hrun "old")
    as [[Hsame|[Hgone _]] _]; [discriminate| |done].
  vm_compute in Hrun. injection Hrun as <- _. discriminate Hsame.
Defined.

Lemma base_count_insert (tbl : table) k started ws b :
  window_started_at b = started → window_seconds b = ws →
  ConcurrentConsume.base_count (<[k := b]> tbl) k started ws = request_count b.
Proof.
  intros Hs Hw. unfold ConcurrentConsume.base_count.
  by rewrite lookup_insert_eq, bool_decide_eq_true_2.
Qed.

(** One call in the window [(started, ws)] of the key [k], on a table
    whose row of that window stands at [base]. *)
Lemma consume_in_window k started ws (c : ConcurrentConsume.call) (tbl : table) :
  let base := ConcurrentConsume.base_count tbl k started ws in
  let m := Z.max 1 (Z.min (default 1 (ConcurrentConsume.c_max c)) 100000) in
  k ≠ "" → ConcurrentConsume.same_window k started ws c →
  0 ≤ base < int4_max →
  ∃ tbl' row,
    rate_limit_consume (ConcurrentConsume.c_rnd c) (ConcurrentConsume.c_now c)
      (ConcurrentConsume.c_key c) (ConcurrentConsume.c_max c)
      (ConcurrentConsume.c_ws c) tbl = Ok (tbl', row) ∧
    ConcurrentConsume.base_count tbl' k started ws = base + 1 ∧
    allowed row = bool_decide (base + 1 ≤ m) ∧
    remaining row = Z.max (m - (base + 1)) 0 ∧
    retry_after_seconds row =
      if bool_decide (base + 1 ≤ m) then 0
      else Z.max 1 (ceil_epoch (started + ws * usec - ConcurrentConsume.c_now c)).
Proof.
  intros base m Hk (Hck & Hcw & Hcs) Hbase.
  destruct (declare_ok (ConcurrentConsume.c_now c) (ConcurrentConsume.c_key c)
              (ConcurrentConsume.c_max c) (ConcurrentConsume.c_ws c))
    as (f & Hf & Hfk & Hfn & Hfw & Hfm & Hfs & Hfe & Hfx);
    [by rewrite Hck|].
  rewrite Hck in Hfk. rewrite Hcw in Hfw. rewrite Hfw, Hcs in Hfs.
  rewrite Hfs, Hfw in Hfe. rewrite Hfe, Hfw in Hfx. fold m in Hfm.
  assert (next_count f tbl = base + 1) as Hnext.
  { unfold next_count, base, ConcurrentConsume.base_count.
    rewrite Hfk, Hfs, Hfw. destruct (tbl !! k) as [rl|]; [|done].
    by case_bool_decide. }
  unfold rate_limit_consume. rewrite Hf. cbn [mbind result_bind].
  rewrite upsert_ok; last first.
  { intros rl Hrl Hs Hw. unfold base, ConcurrentConsume.base_count in Hnext, Hbase.
    unfold next_count in Hnext. rewrite Hfk in Hrl.
    rewrite Hfk, Hrl, Hfs, Hfw in Hnext. rewrite Hrl in Hbase.
    rewrite Hfs in Hs. rewrite Hfw in Hw.
    rewrite bool_decide_eq_true_2 in Hnext, Hbase by done.
    unfold int4_min, int4_max in *. lia. }
  cbn [mbind result_bind]. eexists _, _. split; [reflexivity|].
  rewrite Hnext, Hfk. split; [|split; [|split]].
  - unfold ConcurrentConsume.base_count.
    erewrite maybe_cleanup_live; [|apply lookup_insert_eq|].
    + cbn. by rewrite bool_decide_eq_true_2.
    + cbn. rewrite Hfx.
      pose proof (window_aligned (ConcurrentConsume.c_now c) ws) as Hal.
      cbv zeta in Hal. rewrite Hcs in Hal. pose proof usec_pos.
      assert (1 ≤ ws) as Hws by lia. specialize (Hal ltac:(lia)). nia.
  - unfold output. cbn. rewrite Hfm.
    destruct (Z.leb_spec (base + 1) m).
    + by rewrite bool_decide_eq_true_2.
    + by rewrite bool_decide_eq_false_2 by lia.
  - unfold output. cbn. by rewrite Hfm.
  - unfold output. cbn. rewrite Hfm, Hfe, Hfn.
    destruct (Z.leb_spec (base + 1) m).
    + by rewrite bool_decide_eq_true_2.
    + by rewrite bool_decide_eq_false_2 by lia.
Qed.

(** X6.  Calls made one after the other on one key, all within one
    aligned window: none fails, the stored count goes up by one per call,
    and the call that brings the count to [n] is allowed exactly when [n] is
    at most its (clamped) [max_requests], with [max_requests - n] remaining.
    On a fresh key the first [max_requests] calls of a window pass and
    every later one is denied. *)
Theorem consume_sequence_quota k started ws
    (calls : list ConcurrentConsume.call) (tbl : table) :
  let base := ConcurrentConsume.base_count tbl k started ws in
  k ≠ "" →
  Forall (ConcurrentConsume.same_window k started ws) calls →
  0 ≤ base →
  base + Z.of_nat (length calls) ≤ int4_max →
  ∃ tbl' rows,
    consume_sequence calls tbl = Ok (tbl', rows) ∧
    ConcurrentConsume.base_count tbl' k started ws
      = base + Z.of_nat (length calls) ∧
    length rows = length calls ∧
    ∀ (i : nat) c row,
      calls !! i = Some c → rows !! i = Some row →
      let m := Z.max 1 (Z.min (default 1 (ConcurrentConsume.c_max c)) 100000) in
      allowed row = bool_decide (base + Z.of_nat i + 1 ≤ m) ∧
      remaining row = Z.max (m - (base + Z.of_nat i + 1)) 0.
Proof.
  intros base Hk Hcalls. unfold base. clear base. revert tbl.
  induction Hcalls as [|c calls Hc _ IH]; intros tbl Hbase Hmax.
  - exists tbl, []. cbn [consume_sequence length].
    split; [done|]. split; [lia|]. split; [done|]. intros i c row Hi. done.
  - cbn [length] in Hmax.
    destruct (consume_in_window k started ws c tbl Hk Hc ltac:(lia))
      as (tbl1 & row & Hrun & Hcount & Hallowed & Hrem & _).
    destruct (IH tbl1) as (tbl2 & rows & Hseq & Hcount2 & Hlen & Hrows);
      [lia|lia|].
    exists tbl2, (row :: rows). cbn [consume_sequence].
    rewrite Hrun. cbn [mbind result_bind]. rewrite Hseq.
    cbn [mbind result_bind]. split; [done|].
    split; [rewrite Hcount2, Hcount; cbn [length]; lia|].
    split; [cbn [length]; by rewrite Hlen|].
    intros [|i] c' row' Hi Hr.
    + change (Some c = Some c') in Hi. change (Some row = Some row') in Hr.
      simplify_eq. change (Z.of_nat 0) with 0. rewrite Z.add_0_r. done.
    + change (calls !! i = Some c') in Hi. change (rows !! i = Some row') in Hr.
      destruct (Hrows i c' row' Hi Hr) as [Ha Hm]. rewrite Hcount in Ha, Hm.
      rewrite Nat2Z.inj_succ.
      replace (ConcurrentConsume.base_count tbl k started ws
               + Z.succ (Z.of_nat i) + 1)
        with (ConcurrentConsume.base_count tbl k started ws + 1
              + Z.of_nat i + 1) by lia.
      done.
Qed.

Lemma consume_sequence_quota_witness :
  let calls :=
    [ {| ConcurrentConsume.c_rnd := true;
         ConcurrentConsume.c_now := 1700000000123456;
         ConcurrentConsume.c_key := Some "k";
         ConcurrentConsume.c_max := Some 2;
         ConcurrentConsume.c_ws := Some 60 |};
      {| ConcurrentConsume.c_rnd := false;
         ConcurrentConsume.c_now := 1700000001000000;
         ConcurrentConsume.c_key := Some " k ";
         ConcurrentConsume.c_max := Some 2;
         ConcurrentConsume.c_ws := Some 60 |};
      {| ConcurrentConsume.c_rnd := true;
         ConcurrentConsume.c_now := 1700000039999999;
         ConcurrentConsume.c_key := Some "k";
         ConcurrentConsume.c_max := Some 2;
         ConcurrentConsume.c_ws := Some 60 |} ] in
  ∃ tbl' rows,
    consume_sequence calls ∅ = Ok (tbl', rows) ∧
    allowed <$> rows = [true; true; false].
Proof.
  intros calls.
  assert ("k" ≠ "") as Hk by discriminate.
  assert (Forall (ConcurrentConsume.same_window "k" 1699999980000000 60) calls)
    as Hw by (repeat constructor).
  assert (0 ≤ ConcurrentConsume.base_count ∅ "k" 1699999980000000 60) as Hbase
    by (vm_compute; discriminate).
  assert (ConcurrentConsume.base_count ∅ "k" 1699999980000000 60
          + Z.of_nat (length calls) ≤ int4_max) as Hmax
    by (vm_compute; discriminate).
  destruct (consume_sequence_quota "k" 1699999980000000 60 calls ∅
              Hk Hw Hbase Hmax) as (tbl' & rows & Hseq & _ & Hlen & Hrows).
  exists tbl', rows. split; [done|].
  destruct rows as [|r1 [|r2 [|r3 [|r4 rows]]]]; try discriminate Hlen.
  destruct (Hrows 0%nat _ r1 eq_refl eq_refl) as [H1 _].
  destruct (Hrows 1%nat _ r2 eq_refl eq_refl) as [H2 _].
  destruct (Hrows 2%nat _ r3 eq_refl eq_refl) as [H3 _].
  cbn [fmap list_fmap]. by rewrite H1, H2, H3.
Defined.

End BucketChecksFacts.

Module ServerActionFacts.
Import RateLimiter RateLimiterFacts ServerAction.

Lemma key_char_not_space c : is_key_char c = true → is_js_space c = false.
Proof. destruct c as [[] [] [] [] [] [] [] []]; vm_compute; congruence. Qed.

Lemma key_char_lower c : is_key_char c = true → lower_char c = c.
Proof. destruct c as [[] [] [] [] [] [] [] []]; vm_compute; congruence. Qed.

Lemma string_forall_impl (p q : ascii → bool) s :
  (∀ c, p c = true → q c = true) →
  string_forall p s = true → string_forall q s = true.
Proof.
  intros Hpq. induction s as [|c s IH]; [done|]. simpl.
  rewrite !andb_true_iff. intros [Hc Hs]. auto.
Qed.

Lemma string_forall_app p s t :
  string_forall p (s +:+ t) = string_forall p s && string_forall p t.
Proof.
  induction s as [|c s IH]; [done|].
  change (String c s +:+ t) with (String c (s +:+ t)). simpl.
  by rewrite IH, andb_assoc.
Qed.

Lemma trimStart_nospace s :
  string_forall (fun c => negb (is_js_space c)) s = true → trimStart s = s.
Proof.
  destruct s as [|c s]; [done|]. simpl. rewrite andb_true_iff.
  intros [Hc _]. by destruct (is_js_space c).
Qed.

Lemma trimEnd_nospace s :
  string_forall (fun c => negb (is_js_space c)) s = true → trimEnd s = s.
Proof.
  induction s as [|c s IH]; [done|]. simpl. rewrite andb_true_iff.
  intros [Hc Hs]. rewrite (IH Hs). destruct s; [|done].
  by destruct (is_js_space c).
Qed.

Lemma js_trim_key_chars s : string_forall is_key_char s = true → js_trim s = s.
Proof.
  intros Hs. unfold js_trim.
  assert (string_forall (fun c => negb (is_js_space c)) s = true) as Hn.
  { eapply string_forall_impl; [|exact Hs].
    intros c Hc. by rewrite (key_char_not_space c Hc). }
  by rewrite (trimStart_nospace s Hn), (trimEnd_nospace s Hn).
Qed.

Lemma toLowerCase_key_chars s :
  string_forall is_key_char s = true → toLowerCase s = s.
Proof.
  unfold toLowerCase. induction s as [|c s IH]; [done|]. simpl.
  rewrite andb_true_iff. intros [Hc Hs]. by rewrite (key_char_lower c Hc), IH.
Qed.

Lemma replace_unsafe_key_chars s :
  string_forall is_key_char s = true → replace_unsafe s = s.
Proof.
  unfold replace_unsafe. induction s as [|c s IH]; [done|]. simpl.
  rewrite andb_true_iff. intros [Hc Hs]. by rewrite Hc, IH.
Qed.

Lemma replace_unsafe_safe s : string_forall is_key_char (replace_unsafe s) = true.
Proof.
  unfold replace_unsafe. induction s as [|c s IH]; [done|]. simpl.
  rewrite IH, andb_true_r. by destruct (is_key_char c) eqn:Hc.
Qed.

Lemma string_forall_slice0 p n s :
  string_forall p s = true → string_forall p (slice0 n s) = true.
Proof.
  revert s. induction n as [|n IH]; intros [|c s]; simpl; try done.
  rewrite !andb_true_iff. intros [Hc Hs]. auto.
Qed.

Lemma slice0_short n s : (String.length s ≤ n)%nat → slice0 n s = s.
Proof.
  revert s. induction n as [|n IH]; intros [|c s]; simpl; try done; [lia|].
  intros Hlen. rewrite IH; [done|lia].
Qed.

Lemma hex_digit_key_char c : is_hex_digit c = true → is_key_char c = true.
Proof. destruct c as [[] [] [] [] [] [] [] []]; vm_compute; congruence. Qed.

Lemma length_append s t :
  String.length (s +:+ t) = (String.length s + String.length t)%nat.
Proof.
  induction s as [|c s IH]; [done|].
  change (String c s +:+ t) with (String c (s +:+ t)). simpl. by rewrite IH.
Qed.

(** What [normalizeKeyPart] returns when its fallback is a key part. *)
Lemma normalizeKeyPart_shape value fallback :
  fallback ≠ "" → (String.length fallback ≤ 160)%nat →
  string_forall is_key_char fallback = true →
  normalizeKeyPart value fallback ≠ "" ∧
  (String.length (normalizeKeyPart value fallback) ≤ 160)%nat ∧
  string_forall is_key_char (normalizeKeyPart value fallback) = true.
Proof.
  intros Hne Hlen Hsafe. split; [by apply normalizeKeyPart_nonempty|].
  unfold normalizeKeyPart.
  destruct (0 <? String.length _)%nat; [|done].
  split; [rewrite length_slice0; lia|].
  apply string_forall_slice0, replace_unsafe_safe.
Qed.

Lemma normalizeKeyPart_fixed s fallback :
  s ≠ "" → (String.length s ≤ 160)%nat → string_forall is_key_char s = true →
  normalizeKeyPart s fallback = s.
Proof.
  intros Hne Hlen Hsafe. unfold normalizeKeyPart.
  rewrite (js_trim_key_chars s Hsafe), (toLowerCase_key_chars s Hsafe),
    (replace_unsafe_key_chars s Hsafe).
  destruct (Nat.ltb_spec 0 (String.length s)) as [_|Hz].
  - by apply slice0_short.
  - destruct s; [done|simpl in Hz; lia].
Qed.

(** X7.  [normalizeKeyPart] is idempotent: with a fallback that is itself
    a key part (as "action", "scope" and "unknown" are), its result is never
    empty, has at most 160 characters, all of them in [a-z0-9:._-], and
    normalizing it again gives it back. *)
Theorem normalizeKeyPart_idempotent value fallback :
  fallback ≠ "" → (String.length fallback ≤ 160)%nat →
  string_forall is_key_char fallback = true →
  let part := normalizeKeyPart value fallback in
  part ≠ "" ∧ (String.length part ≤ 160)%nat ∧
  string_forall is_key_char part = true ∧
  normalizeKeyPart part fallback = part.
Proof.
  intros Hne Hlen Hsafe part.
  destruct (normalizeKeyPart_shape value fallback Hne Hlen Hsafe)
    as (Hp & Hl & Hs).
  repeat split; try done. by apply normalizeKeyPart_fixed.
Qed.

Lemma normalizeKeyPart_idempotent_witness :
  normalizeKeyPart (normalizeKeyPart "  Create Vehicle! " "action") "action"
  = "create_vehicle_".
Proof.
  destruct (normalizeKeyPart_idempotent "  Create Vehicle! " "action")
    as (_ & _ & _ & Hfix); [discriminate|simpl; lia|reflexivity|].
  rewrite Hfix. reflexivity.
Defined.

Lemma ltrim_nospace s :
  string_forall (fun c => negb (is_js_space c)) s = true → ltrim s = s.
Proof.
  destruct s as [|c s]; [done|]. simpl. rewrite andb_true_iff. intros [Hc _].
  destruct c as [[] [] [] [] [] [] [] []]; done.
Qed.

Lemma rtrim_nospace s :
  string_forall (fun c => negb (is_js_space c)) s = true → rtrim s = s.
Proof.
  induction s as [|c s IH]; [done|]. simpl. rewrite andb_true_iff.
  intros [Hc Hs]. rewrite (IH Hs). destruct s; [|done].
  case_bool_decide as Heq; [|done]. subst c. by vm_compute in Hc.
Qed.

Lemma trim_key_chars s : string_forall is_key_char s = true → trim s = s.
Proof.
  intros Hs. unfold trim.
  assert (string_forall (fun c => negb (is_js_space c)) s = true) as Hn.
  { eapply string_forall_impl; [|exact Hs].
    intros c Hc. by rewrite (key_char_not_space c Hc). }
  by rewrite (ltrim_nospace s Hn), (rtrim_nospace s Hn).
Qed.

Section keys.
Variable sha256_hex : string → string.
Hypothesis sha256_digest : ∀ s,
  String.length (sha256_hex s) = 64%nat ∧
  string_forall is_hex_digit (sha256_hex s) = true.

Lemma toHashedKeyPart_shape value :
  toHashedKeyPart sha256_hex value ≠ "" ∧
  (String.length (toHashedKeyPart sha256_hex value) ≤ 160)%nat ∧
  string_forall is_key_char (toHashedKeyPart sha256_hex value) = true.
Proof.
  unfold toHashedKeyPart. case_bool_decide; [by repeat split; simpl; try lia|].
  destruct (sha256_digest (toLowerCase (js_trim value))) as [Hlen Hhex].
  split; [|split].
  - apply length_pos_nonempty. rewrite length_slice0, Hlen. lia.
  - rewrite length_slice0. lia.
  - apply string_forall_slice0.
    eapply string_forall_impl; [apply hex_digit_key_char|done].
Qed.

Lemma identifier_shape (target : DurableRateLimitTarget) :
  let id :=
    if default false (hashIdentifier target)
    then toHashedKeyPart sha256_hex (identifier target)
    else normalizeKeyPart (identifier target) "unknown" in
  id ≠ "" ∧ (String.length id ≤ 160)%nat ∧ string_forall is_key_char id = true.
Proof.
  cbv zeta. destruct (default false (hashIdentifier target)).
  - apply toHashedKeyPart_shape.
  - apply normalizeKeyPart_shape; [done|simpl; lia|done].
Qed.

End keys.

(** X8.  The bucket key that the limiter sends for a target starts with
    "rl:", consists of characters in [a-z0-9:._-] only and has at most 485
    of them; [rate_limit_consume] takes it as it is: its trimmed key is the
    key sent, and the empty-key exception is not raised. *)
Theorem bucket_key_accepted (sha256_hex : string → string) act target
    now mx ws :
  (∀ s, String.length (sha256_hex s) = 64%nat ∧
        string_forall is_hex_digit (sha256_hex s) = true) →
  let key := (target_request sha256_hex act target).1.1 in
  String.prefix "rl:" key = true ∧
  string_forall is_key_char key = true ∧
  (String.length key ≤ 485)%nat ∧
  ∃ f, RateLimitStore.declare now (Some key) mx ws = Ok f ∧
       RateLimitStore.v_key f = key.
Proof.
  intros Hsha key.
  destruct (normalizeKeyPart_shape act "action") as (_ & Hal & Has);
    [done|simpl; lia|done|].
  destruct (normalizeKeyPart_shape (scope target) "scope") as (_ & Hsl & Hss);
    [done|simpl; lia|done|].
  destruct (identifier_shape sha256_hex Hsha target) as (_ & Hil & His).
  cbv zeta in Hil, His.
  assert (string_forall is_key_char key = true) as Hkey.
  { unfold key, target_request. cbn [fst].
    rewrite !string_forall_app, Has, Hss, His. reflexivity. }
  split; [apply prefix_app|]. split; [done|]. split.
  - unfold key, target_request. cbn [fst]. rewrite !length_append.
    change (String.length "rl:") with 3%nat.
    change (String.length ":") with 1%nat. lia.
  - destruct (RateLimitStoreFacts.declare_ok now (Some key) mx ws)
      as (f & Hf & Hk & _).
    + change (trim key ≠ ""). rewrite (trim_key_chars key Hkey).
      unfold key, target_request. cbn [fst]. discriminate.
    + exists f. split; [done|].
      change (RateLimitStore.v_key f = trim key) in Hk.
      by rewrite (trim_key_chars key Hkey) in Hk.
Qed.

Lemma bucket_key_accepted_witness :
  ∃ f, RateLimitStore.declare 0 (Some "rl:create_vehicle:user:u_1") (Some 3) (Some 60)
       = Ok f ∧
       RateLimitStore.v_key f = "rl:create_vehicle:user:u_1".
Proof.
  exact (proj2 (proj2 (proj2
    (bucket_key_accepted
       (fun _ => "9f86d081884c7d659a2feaa0c55ad015a3bf4f1b2b0b822cd15d6c15b0f00a08")
       "Create Vehicle"
       {| scope := "user"; identifier := " U 1"; rule := {| maxRequests := 3; windowMs := 60000 |};
          hashIdentifier := None |}
       0 (Some 3) (Some 60)
       (fun _ => conj eq_refl eq_refl))))).
Defined.

Lemma promise_all_inl {A} (settled : list (js_error + A)) e :
  promise_all settled = inl e → inl e ∈ settled.
Proof.
  induction settled as [|[e'|a] settled IH]; [done| |]; cbn [promise_all].
  - intros [= ->]. left.
  - destruct (promise_all settled) as [e'|l]; [|done].
    intros [= ->]. right. by apply IH.
Qed.

Lemma promise_all_inr {A} (settled : list (js_error + A)) l :
  promise_all settled = inr l → settled = inr <$> l.
Proof.
  revert l. induction settled as [|[e'|a] settled IH]; intros l;
    cbn [promise_all]; [by intros [= <-]|done|].
  destruct (promise_all settled) as [e'|l']; [done|].
  intros [= <-]. by rewrite fmap_cons, (IH l').
Qed.

Lemma promise_all_fmap_inr {A} (l : list A) :
  promise_all (inr <$> l) = inr l.
Proof.
  induction l as [|a l IH]; [done|]. rewrite fmap_cons. cbn [promise_all].
  by rewrite IH.
Qed.

Lemma start_all_Forall {World A} (P : A → Prop)
    (calls : list (World → World * A)) (w : World) :
  Forall (fun call => ∀ w, P (call w).2) calls →
  Forall P (start_all calls w).2.
Proof.
  intros Hcalls. revert w.
  induction Hcalls as [|call calls Hcall _ IH]; intros w; [constructor|].
  cbn [start_all]. specialize (Hcall w). destruct (call w) as [w1 a].
  specialize (IH w1). destruct (start_all calls w1) as [w2 l].
  by constructor.
Qed.

Lemma issue_length {World} (rpc : string → Z → Z → World → World * rpc_response)
    requests (w : World) :
  length (issue rpc requests w).2 = length requests.
Proof.
  revert w. induction requests as [|[[key mx] ws] requests IH]; intros w;
    [done|].
  cbn [issue]. destruct (rpc key mx ws w) as [w1 reply].
  specialize (IH w1). destruct (issue rpc requests w1) as [w2 replies].
  cbn [snd length] in *. by rewrite IH.
Qed.

(** A call resolves exactly for a reply whose first row has a boolean
    [allowed], to that boolean. *)
Lemma consumeReply_inr production reply res :
  consumeReply production reply = inr res →
  ∃ c rest, reply = RpcData (c :: rest) ∧
            cand_allowed c = Some (res_allowed res).
Proof.
  destruct reply as [m|[|c rest]]; cbn.
  - by destruct production.
  - done.
  - unfold asConsumeRow. cbn.
    destruct (cand_allowed c) as [a|] eqn:Ha; [|done].
    intros [= <-]. exists c, rest. by rewrite Ha.
Qed.

Lemma consumeReply_allows production reply :
  allows reply →
  ∃ res, consumeReply production reply = inr res ∧ res_allowed res = true.
Proof.
  intros (c & rest & -> & Hc). cbn. unfold asConsumeRow. cbn. rewrite Hc.
  by eexists.
Qed.

Lemma consumeReply_inl production reply e :
  consumeReply production reply = inl e → backend_error production e.
Proof.
  destruct reply as [m|data].
  - destruct (consumeReply_unavailable production m) as (m' & Hm & Hpre).
    rewrite Hm. intros [= <-]. exists m'. split; [done|]. right. right.
    split; [done|]. intros ->. cbn in Hm. by injection Hm as <-.
  - cbn. destruct (asConsumeRow data); [done|]. intros [= <-].
    eexists. split; [done|]. right. by left.
Qed.

Lemma consumeBucket_inl {World}
    (rpc : string → Z → Z → World → World * rpc_response)
    production service_env key r (w : World) e :
  (consumeBucket rpc production service_env key r w).2 = inl e →
  backend_error production e.
Proof.
  unfold consumeBucket. destruct service_env; cbn.
  - destruct (rpc _ _ _ w) as [w' reply]. apply consumeReply_inl.
  - intros [= <-]. eexists. split; [done|]. by left.
Qed.

Lemma filter_length_0 {A} (P : A → Prop) `{∀ x, Decision (P x)} (l : list A) :
  (length (filter P l) =? 0)%nat = true ↔ Forall (fun x => ¬ P x) l.
Proof.
  rewrite Nat.eqb_eq. induction l as [|x l IH].
  - split; [constructor|done].
  - rewrite filter_cons. destruct (decide (P x)) as [Hx|Hx]; cbn [length].
    + split; [done|]. intros Hall. by apply Forall_inv in Hall.
    + rewrite IH. split; [by constructor|apply Forall_inv_tail].
Qed.

(** X9.  [enforceDurableRateLimit] fails closed.  Called with targets, it
    returns normally only when the service environment is configured and
    every one of its requests was answered with a row whose [allowed] is
    true, and it does return then; an unreachable backend, an unusable
    reply or a single denied target make it throw. *)
Theorem enforceDurableRateLimit_fail_closed {World : Type}
    (rpc : string → Z → Z → World → World * rpc_response)
    (production service_env : bool) (sha256_hex : string → string)
    (options : EnforceDurableRateLimitOptions) (w : World) :
  (∀ s, String.length (sha256_hex s) = 64%nat) →
  targets options ≠ [] →
  let requests :=
    target_request sha256_hex (RateLimiter.action options)
      <$> targets options in
  (enforceDurableRateLimit rpc production service_env sha256_hex options w).2
    = inr tt ↔
  service_env = true ∧ Forall allows (issue rpc requests w).2.
Proof.
  intros Hsha Hts requests. destruct service_env.
  - rewrite (enforce_unfold rpc production true sha256_hex eq_refl Hsha options w).
    fold requests. cbn [snd]. split.
    + intros Hok. split; [done|].
      destruct (promise_all _) as [e|results] eqn:Hall; [done|].
      apply promise_all_inr in Hall. cbv zeta in Hok.
      destruct (length _ =? 0)%nat eqn:Hlen; [|done].
      apply filter_length_0 in Hlen.
      revert results Hall Hlen.
      induction ((issue rpc requests w).2) as [|reply replies IH];
        intros [|res results] Hall Hlen; try done.
      rewrite !fmap_cons in Hall. injection Hall as Hreply Hall.
      apply Forall_cons in Hlen as [Hres Hlen].
      constructor; [|by eapply IH].
      apply consumeReply_inr in Hreply as (c & rest & -> & Hc).
      exists c, rest. split; [done|]. rewrite Hc.
      by destruct (res_allowed res).
    + intros [_ Hall].
      assert (∃ results,
                promise_all (consumeReply production <$> (issue rpc requests w).2)
                = inr results ∧
                Forall (fun res => ¬ res_allowed res = false) results)
        as (results & -> & Hres).
      { induction Hall as [|reply replies Hreply _ (results & IH & Hres)].
        - by exists [].
        - destruct (consumeReply_allows production reply Hreply)
            as (res & Hr & Hallowed).
          exists (res :: results). rewrite fmap_cons, Hr. cbn [promise_all].
          rewrite IH. split; [done|]. constructor; [|done]. by rewrite Hallowed. }
      cbv zeta.
      apply (filter_length_0 (fun res => res_allowed res = false)) in Hres.
      by rewrite Hres.
  - split; [|by intros [? _]]. intros Hok. exfalso.
    unfold enforceDurableRateLimit in Hok.
    rewrite (filter_keeps_all sha256_hex Hsha) in Hok.
    destruct (targets options) as [|t ts]; [done|].
    rewrite !fmap_cons in Hok. cbn [length Nat.eqb start_all] in Hok.
    unfold consumeBucket at 1 in Hok. cbn [negb] in Hok.
    destruct (start_all _ w) as [w2 l]. by cbn [promise_all snd] in Hok.
Qed.

Lemma enforceDurableRateLimit_fail_closed_witness :
  let rpc := sql_rpc false 1700000000123456 "2023-11-14T22:14:00+00:00" in
  let sha := fun _ : string =>
    "9f86d081884c7d659a2feaa0c55ad015a3bf4f1b2b0b822cd15d6c15b0f00a08" in
  let options :=
    {| RateLimiter.action := "Create Vehicle";
       targets :=
         [ {| scope := "user"; identifier := "U1";
              rule := {| maxRequests := 1; windowMs := 60000 |};
              hashIdentifier := None |};
           {| scope := "ip"; identifier := "10.0.0.1";
              rule := {| maxRequests := 5; windowMs := 60000 |};
              hashIdentifier := Some true |} ] |} in
  (enforceDurableRateLimit rpc true true sha options ∅).2 = inr tt.
Proof.
  intros rpc sha options.
  apply (enforceDurableRateLimit_fail_closed rpc true true sha options ∅);
    [done|done|].
  split; [done|].
  destruct (issue rpc _ ∅).2 as [|r1 [|r2 [|r3 replies]]] eqn:Hreplies;
    try (vm_compute in Hreplies; discriminate Hreplies).
  vm_compute in Hreplies. injection Hreplies as <- <-.
  constructor; [|constructor; [|constructor]]; by eexists _, _.
Defined.

(** X10.  What [enforceDurableRateLimit] throws is either a
    [RateLimitExceededError] whose [retryAfterSeconds] is at least 1, or a
    plain [Error] with one of three messages: the environment is missing,
    the reply is unusable, or the backend is unavailable.  In production
    the last one is the fixed text alone: the detail of the backend's error
    is not passed on. *)
Theorem enforceDurableRateLimit_errors {World : Type}
    (rpc : string → Z → Z → World → World * rpc_response)
    (production service_env : bool) (sha256_hex : string → string)
    (options : EnforceDurableRateLimitOptions) (w : World) (e : js_error) :
  (enforceDurableRateLimit rpc production service_env sha256_hex options w).2
    = inl e →
  match e with
  | RateLimitExceededError r => 1 ≤ r
  | Error m =>
      m = "Missing SUPABASE_URL and/or SUPABASE_SERVICE_ROLE_KEY." ∨
      m = "Invalid rate-limit backend response." ∨
      (String.prefix "Rate-limit backend unavailable." m = true ∧
       (production = true → m = "Rate-limit backend unavailable."))
  end.
Proof.
  unfold enforceDurableRateLimit.
  set (ts := filter _ _). destruct (length ts =? 0)%nat; [done|].
  set (calls := _ <$> ts).
  pose proof (start_all_Forall
                (fun r : js_error + ConsumeResult =>
                   ∀ e, r = inl e → backend_error production e)
                calls w) as Hsettled.
  destruct (start_all calls w) as [w' settled]. cbn [snd] in Hsettled.
  destruct (promise_all settled) as [e'|results] eqn:Hall.
  - cbn [snd]. intros [= ->]. apply promise_all_inl in Hall.
    assert (backend_error production e) as (m & -> & Hm).
    { assert (Forall (fun r : js_error + ConsumeResult =>
                        ∀ e, r = inl e → backend_error production e) settled)
        as Hs.
      { apply Hsettled. unfold calls. apply Forall_fmap, Forall_true.
        intros t w0 e0. apply consumeBucket_inl. }
      rewrite Forall_forall in Hs. by apply (Hs (inl e)). }
    done.
  - cbv zeta. destruct (length _ =? 0)%nat; cbn [snd]; [done|].
    intros [= <-]. unfold new_RateLimitExceededError. lia.
Qed.

Lemma enforceDurableRateLimit_errors_witness :
  ∃ m, (enforceDurableRateLimit
          (fun _ _ _ (w : unit) => (w, RpcError "permission denied for function"))
          true true (fun s => s)
          {| RateLimiter.action := "a";
             targets := [ {| scope := "user"; identifier := "u";
                             rule := {| maxRequests := 1; windowMs := 1000 |};
                             hashIdentifier := None |} ] |} tt).2
       = inl (Error m) ∧ m = "Rate-limit backend unavailable.".
Proof.
  eexists. split; [reflexivity|].
  destruct (enforceDurableRateLimit_errors
              (fun _ _ _ (w : unit) => (w, RpcError "permission denied for function"))
              true true (fun s => s)
              {| RateLimiter.action := "a";
                 targets := [ {| scope := "user"; identifier := "u";
                                 rule := {| maxRequests := 1; windowMs := 1000 |};
                                 hashIdentifier := None |} ] |} tt _ eq_refl)
    as [Hm|[Hm|[_ Hm]]]; [discriminate Hm|discriminate Hm|].
  by apply Hm.
Defined.

Lemma trimStart_head s :
  trimStart s = "" ∨ ∃ c t, trimStart s = String c t ∧ is_js_space c = false.
Proof.
  induction s as [|c s IH]; [by left|]. simpl.
  destruct (is_js_space c) eqn:Hc; [done|]. right. by exists c, s.
Qed.

Lemma trimEnd_idemp s : trimEnd (trimEnd s) = trimEnd s.
Proof.
  induction s as [|c s IH]; [done|]. simpl.
  destruct (trimEnd s) as [|d t] eqn:Ht.
  - destruct (is_js_space c) eqn:Hc; [done|]. simpl. by rewrite Hc.
  - change (trimEnd (String c (String d t))) with
      (match trimEnd (String d t) with
       | "" => if is_js_space c then "" else String c ""
       | u => String c u
       end).
    by rewrite IH.
Qed.

Lemma js_trim_idemp s : js_trim (js_trim s) = js_trim s.
Proof.
  unfold js_trim. destruct (trimStart_head s) as [->|(c & t & -> & Hc)].
  - done.
  - rewrite (trimEnd_cons_nonspace c t Hc). cbn [trimStart]. rewrite Hc.
    rewrite <-(trimEnd_cons_nonspace c t Hc). apply trimEnd_idemp.
Qed.

Lemma truthy_spec s : truthy s = true ↔ s ≠ "".
Proof. unfold truthy. by case_bool_decide. Qed.

(** X11.  [getRequestIpAddress] never returns an empty string and
    returns its result trimmed.  A non-blank first entry of
    [x-forwarded-for] is the result whatever the other headers say, and a
    request with none of the four headers gives "unknown". *)
Theorem getRequestIpAddress_spec (headerStore : string → option string) :
  let ip := getRequestIpAddress headerStore in
  ip ≠ "" ∧ js_trim ip = ip ∧
  (∀ value, headerStore "x-forwarded-for" = Some value →
            js_trim (before_comma value) ≠ "" →
            ip = js_trim (before_comma value)) ∧
  (headerStore "x-forwarded-for" = None → headerStore "x-real-ip" = None →
   headerStore "cf-connecting-ip" = None →
   headerStore "x-vercel-forwarded-for" = None → ip = "unknown").
Proof.
  intros ip. unfold ip, getRequestIpAddress.
  assert (∀ fallback : option string,
            match fallback with
            | Some value =>
                if truthy (js_trim value) then js_trim value else "unknown"
            | None => "unknown"
            end ≠ "" ∧
            js_trim match fallback with
                    | Some value =>
                        if truthy (js_trim value) then js_trim value
                        else "unknown"
                    | None => "unknown"
                    end
            = match fallback with
              | Some value =>
                  if truthy (js_trim value) then js_trim value else "unknown"
              | None => "unknown"
              end) as Hfall.
  { intros [value|]; [|done].
    destruct (truthy (js_trim value)) eqn:Ht; [|done].
    apply truthy_spec in Ht. split; [done|apply js_trim_idemp]. }
  destruct (headerStore "x-forwarded-for") as [value|] eqn:Hxff.
  - destruct (truthy value) eqn:Hv.
    + destruct (truthy (js_trim (before_comma value))) eqn:Hip.
      * apply truthy_spec in Hip. split; [done|].
        split; [apply js_trim_idemp|]. split; [by intros ? [= <-]|done].
      * destruct (Hfall
          match headerStore "x-real-ip" with
          | Some v => Some v
          | None => match headerStore "cf-connecting-ip" with
                    | Some v => Some v
                    | None => headerStore "x-vercel-forwarded-for"
                    end
          end) as [Hne Htrim].
        split; [done|]. split; [done|]. split; [|done].
        intros ? [= <-] Hnb. apply truthy_spec in Hnb. congruence.
    + destruct (Hfall
        match headerStore "x-real-ip" with
        | Some v => Some v
        | None => match headerStore "cf-connecting-ip" with
                  | Some v => Some v
                  | None => headerStore "x-vercel-forwarded-for"
                  end
        end) as [Hne Htrim].
      split; [done|]. split; [done|]. split; [|done].
      intros ? [= <-] Hnb. unfold truthy in Hv.
      case_bool_decide as Hempty; [|done]. by subst value.
  - destruct (Hfall
      match headerStore "x-real-ip" with
      | Some v => Some v
      | None => match headerStore "cf-connecting-ip" with
                | Some v => Some v
                | None => headerStore "x-vercel-forwarded-for"
                end
      end) as [Hne Htrim].
    split; [done|]. split; [done|]. split; [done|].
    by intros _ -> -> ->.
Qed.

Lemma getRequestIpAddress_spec_witness :
  getRequestIpAddress
    (fun name => if bool_decide (name = "x-forwarded-for")
                 then Some " 203.0.113.7 , 10.0.0.1" else Some "198.51.100.2")
  = "203.0.113.7".
Proof.
  destruct (getRequestIpAddress_spec
              (fun name => if bool_decide (name = "x-forwarded-for")
                           then Some " 203.0.113.7 , 10.0.0.1"
                           else Some "198.51.100.2"))
    as (_ & _ & Hfirst & _).
  by rewrite (Hfirst " 203.0.113.7 , 10.0.0.1" eq_refl).
Defined.

Lemma append_inj_l s a b : s +:+ a = s +:+ b → a = b.
Proof.
  induction s as [|c s IH]; [done|].
  change (String c s +:+ a) with (String c (s +:+ a)).
  change (String c s +:+ b) with (String c (s +:+ b)).
  intros [= Heq]. by apply IH.
Qed.

(** X12.  [enforceServerActionRateLimit] consumes two buckets per call,
    the user's first and the IP's second, under keys that always differ
    (an explicit non-blank [ipAddress] standing for the request's address);
    with the service environment set it returns normally exactly when both
    buckets answer with a row whose [allowed] is true. *)
Theorem enforceServerActionRateLimit_two_buckets {World : Type}
    (rpc : string → Z → Z → World → World * rpc_response)
    (production : bool) (sha256_hex : string → string)
    (headerStore : string → option string)
    (options : EnforceServerActionRateLimitOptions) (w : World) :
  let ip :=
    match ipAddress options with
    | Some value =>
        if truthy (js_trim value) then js_trim value
        else getRequestIpAddress headerStore
    | None => getRequestIpAddress headerStore
    end in
  let act := normalizeKeyPart (action options) "action" in
  let user_key :=
    "rl:" +:+ act +:+ ":" +:+ "user" +:+ ":"
    +:+ normalizeKeyPart (userId options) "unknown" in
  let ip_key :=
    "rl:" +:+ act +:+ ":" +:+ "ip" +:+ ":" +:+ normalizeKeyPart ip "unknown" in
  let first :=
    rpc user_key (normalizeRule (userLimit options)).1
      (normalizeRule (userLimit options)).2 w in
  let second :=
    rpc ip_key (normalizeRule (ipLimit options)).1
      (normalizeRule (ipLimit options)).2 first.1 in
  let result :=
    enforceServerActionRateLimit rpc production true sha256_hex headerStore
      options w in
  user_key ≠ ip_key ∧
  result.1 = second.1 ∧
  (result.2 = inr tt ↔ allows first.2 ∧ allows second.2).
Proof.
  intros ip act user_key ip_key first second result.
  split.
  { unfold user_key, ip_key. intros Heq.
    apply (append_inj_l "rl:"), (append_inj_l act) in Heq. discriminate Heq. }
  assert (result =
    (second.1,
     match promise_all [consumeReply production first.2;
                        consumeReply production second.2] with
     | inl e => inl e
     | inr results =>
         let blocked :=
           filter (fun result => res_allowed result = false) results in
         if (length blocked =? 0)%nat then inr tt
         else inl (new_RateLimitExceededError
                     (fold_left
                        (fun maxSeconds result =>
                           Z.max maxSeconds (retryAfterSeconds result))
                        blocked 1))
     end)) as ->.
  { unfold result, enforceServerActionRateLimit, enforceDurableRateLimit.
    fold ip. cbn [RateLimiter.action targets fmap list_fmap].
    unfold normalizeTarget. cbn [scope identifier rule hashIdentifier].
    change (default false None) with false. cbv iota.
    change (normalizeKeyPart "user" "scope") with "user".
    change (normalizeKeyPart "ip" "scope") with "ip".
    rewrite filter_cons_True;
      [|apply length_pos_nonempty; by apply normalizeKeyPart_nonempty].
    rewrite filter_cons_True;
      [|apply length_pos_nonempty; by apply normalizeKeyPart_nonempty].
    rewrite filter_nil.
    cbn [length Nat.eqb fmap list_fmap start_all scope identifier rule].
    unfold consumeBucket. cbn [negb]. fold act. fold user_key ip_key.
    fold first. destruct first as [w1 reply1] eqn:Hfirst. cbn [fst snd] in *.
    fold second. destruct second as [w2 reply2]. cbn [fst snd].
    destruct (promise_all _) as [e|results]; [done|].
    cbv zeta. by destruct (length _ =? 0)%nat. }
  split; [done|]. cbn [snd promise_all]. split.
  - intros Hok.
    destruct (consumeReply production first.2) as [e1|res1] eqn:H1; [done|].
    destruct (consumeReply production second.2) as [e2|res2] eqn:H2; [done|].
    cbv zeta in Hok.
    destruct (length _ =? 0)%nat eqn:Hlen; [|done].
    apply filter_length_0 in Hlen.
    apply Forall_cons in Hlen as [Hr1 Hlen].
    apply Forall_cons in Hlen as [Hr2 _].
    apply consumeReply_inr in H1 as (c1 & rest1 & -> & Hc1).
    apply consumeReply_inr in H2 as (c2 & rest2 & -> & Hc2).
    split; eexists _, _; (split; [done|]).
    + rewrite Hc1. by destruct (res_allowed res1).
    + rewrite Hc2. by destruct (res_allowed res2).
  - intros [Ha1 Ha2].
    destruct (consumeReply_allows production _ Ha1) as (res1 & -> & Hr1).
    destruct (consumeReply_allows production _ Ha2) as (res2 & -> & Hr2).
    cbv zeta. rewrite !filter_cons_False, filter_nil by congruence. done.
Qed.










End ServerActionFacts.

(** ** Row-level security for every caller *)

Module RowSecurityFacts.
Import Schema Policies PublicViews.

Lemma visible_profiles_spec r d id p :
  visible_profiles r d !! id = Some p ↔
  profiles d !! id = Some p ∧
  ((is_authenticated r = true ∧ auth_uid r = Some id) ∨
   is_Some (Profile.username p)).
Proof.
  unfold visible_profiles. rewrite map_lookup_filter_Some. cbn [fst snd].
  rewrite orb_true_iff, andb_true_iff. unfold profiles_owner.
  rewrite DataLayerFacts.uid_is_true. unfold profiles_public_select.
  rewrite bool_decide_eq_true. done.
Qed.

(** A profile joined by a public predicate is a published profile. *)
Lemma published_join r d pid :
  match visible_profiles r d !! pid with
  | Some p => bool_decide (is_Some (Profile.username p))
  | None => false
  end = true ↔ published d pid.
Proof.
  unfold published. split.
  - destruct (visible_profiles r d !! pid) as [p|] eqn:Hp; [|done].
    intros Hname%bool_decide_eq_true.
    apply visible_profiles_spec in Hp as [Hp _]. eauto.
  - intros (p & Hp & Hname).
    rewrite (proj2 (visible_profiles_spec r d pid p)) by eauto.
    by apply bool_decide_eq_true.
Qed.

Lemma vehicles_public_select_spec r d v :
  vehicles_public_select r d v = true ↔ vehicle_public d v.
Proof.
  unfold vehicles_public_select, vehicle_public.
  by rewrite andb_true_iff, published_join.
Qed.

Lemma visible_vehicles_spec r d id v :
  visible_vehicles r d !! id = Some v ↔
  vehicles d !! id = Some v ∧
  ((is_authenticated r = true ∧ vehicles_owner r d v = true) ∨
   vehicle_public d v).
Proof.
  unfold visible_vehicles. rewrite map_lookup_filter_Some. cbn [fst snd].
  by rewrite orb_true_iff, andb_true_iff, vehicles_public_select_spec.
Qed.

(** A vehicle joined with its profile by a public predicate is a public
    vehicle. *)
Lemma vehicle_join r d vid :
  match visible_vehicles r d !! vid with
  | Some v =>
      match visible_profiles r d !! Vehicle.profile_id v with
      | Some p => Vehicle.is_public v && bool_decide (is_Some (Profile.username p))
      | None => false
      end
  | None => false
  end = true ↔
  ∃ v, vehicles d !! vid = Some v ∧ vehicle_public d v.
Proof.
  split.
  - destruct (visible_vehicles r d !! vid) as [v|] eqn:Hv; [|done].
    apply visible_vehicles_spec in Hv as [Hv _].
    intros Hjoin. exists v. split; [done|].
    apply (vehicles_public_select_spec r d v). unfold vehicles_public_select.
    destruct (visible_profiles r d !! Vehicle.profile_id v); [|done].
    apply andb_true_iff in Hjoin as [-> ->]. done.
  - intros (v & Hv & Hpub).
    rewrite (proj2 (visible_vehicles_spec r d vid v)) by eauto.
    apply (vehicles_public_select_spec r d v) in Hpub.
    unfold vehicles_public_select in Hpub.
    apply andb_true_iff in Hpub as [Hpublic Hprofile].
    destruct (visible_profiles r d !! Vehicle.profile_id v); [|done].
    by rewrite Hpublic.
Qed.

Lemma mods_public_select_spec r d m :
  mods_public_select r d m = true ↔ mod_public d m.
Proof. apply vehicle_join. Qed.

Lemma visible_mods_spec r d id m :
  visible_mods r d !! id = Some m ↔
  mods d !! id = Some m ∧
  ((is_authenticated r = true ∧ mods_owner r d m = true) ∨ mod_public d m).
Proof.
  unfold visible_mods. rewrite map_lookup_filter_Some. cbn [fst snd].
  by rewrite orb_true_iff, andb_true_iff, mods_public_select_spec.
Qed.

Lemma mod_join r d mid :
  match visible_mods r d !! mid with
  | Some m =>
      match visible_vehicles r d !! Mod.vehicle_id m with
      | Some v =>
          match visible_profiles r d !! Vehicle.profile_id v with
          | Some p =>
              Vehicle.is_public v && bool_decide (is_Some (Profile.username p))
          | None => false
          end
      | None => false
      end
  | None => false
  end = true ↔
  ∃ m, mods d !! mid = Some m ∧ mod_public d m.
Proof.
  split.
  - destruct (visible_mods r d !! mid) as [m|] eqn:Hm; [|done].
    apply visible_mods_spec in Hm as [Hm _].
    intros Hjoin. exists m. split; [done|].
    by apply (vehicle_join r d (Mod.vehicle_id m)).
  - intros (m & Hm & Hpub).
    rewrite (proj2 (visible_mods_spec r d mid m)) by eauto.
    by apply (vehicle_join r d (Mod.vehicle_id m)).
Qed.

Lemma images_public_select_spec r d i :
  images_public_select r d i = true ↔ image_public d i.
Proof.
  unfold images_public_select, image_public. rewrite orb_true_iff.
  apply Morphisms_Prop.or_iff_morphism.
  - destruct (Image.vehicle_id i) as [vid|].
    + rewrite vehicle_join. split.
      * intros (v & ? & ?). by exists vid, v.
      * intros (? & v & [= <-] & ? & ?). by exists v.
    + split; [done|]. by intros (? & ? & ? & _).
  - destruct (Image.mod_id i) as [mid|].
    + rewrite mod_join. split.
      * intros (m & ? & ?). by exists mid, m.
      * intros (? & m & [= <-] & ? & ?). by exists m.
    + split; [done|]. by intros (? & ? & ? & _).
Qed.

Lemma visible_images_spec r d id i :
  visible_images r d !! id = Some i ↔
  images d !! id = Some i ∧
  ((is_authenticated r = true ∧ images_owner r d i = true) ∨ image_public d i).
Proof.
  unfold visible_images. rewrite map_lookup_filter_Some. cbn [fst snd].
  by rewrite orb_true_iff, andb_true_iff, images_public_select_spec.
Qed.

Lemma public_profiles_spec r d id p :
  public_profiles r d !! id = Some p ↔
  profiles d !! id = Some p ∧ is_Some (Profile.username p).
Proof.
  unfold public_profiles. rewrite map_lookup_filter_Some, visible_profiles_spec.
  cbn [snd]. tauto.
Qed.

Lemma public_vehicles_spec r d id v :
  public_vehicles r d !! id = Some v ↔
  vehicles d !! id = Some v ∧ vehicle_public d v.
Proof.
  unfold public_vehicles. rewrite map_lookup_filter_Some, visible_vehicles_spec.
  cbn [snd]. pose proof (vehicles_public_select_spec r d v) as Hpol.
  unfold vehicles_public_select in Hpol. rewrite Hpol. tauto.
Qed.

Lemma public_mods_spec r d id m :
  public_mods r d !! id = Some m ↔ mods d !! id = Some m ∧ mod_public d m.
Proof.
  unfold public_mods. rewrite map_lookup_filter_Some, visible_mods_spec.
  cbn [snd]. rewrite vehicle_join. unfold mod_public. tauto.
Qed.

Lemma public_images_spec r d id i :
  public_images r d !! id = Some i ↔
  images d !! id = Some i ∧ image_public d i.
Proof.
  unfold public_images. rewrite map_lookup_filter_Some, visible_images_spec.
  cbn [snd]. pose proof (images_public_select_spec r d i) as Hpol.
  unfold images_public_select in Hpol. rewrite Hpol. tauto.
Qed.

(** X14.  The public views show the same rows to every caller.  Whoever
    reads, signed in or not, [public_profiles] holds the profiles with a
    username, [public_vehicles] the public vehicles of such profiles,
    [public_mods] the mods of those vehicles and [public_images] the images
    linked to them or to their mods: an owner does not reach private rows
    through the views. *)
Theorem public_views_same_for_all (r : role) (d : db) :
  (∀ id p, public_profiles r d !! id = Some p ↔
           profiles d !! id = Some p ∧ is_Some (Profile.username p)) ∧
  (∀ id v, public_vehicles r d !! id = Some v ↔
           vehicles d !! id = Some v ∧ vehicle_public d v) ∧
  (∀ id m, public_mods r d !! id = Some m ↔
           mods d !! id = Some m ∧ mod_public d m) ∧
  (∀ id i, public_images r d !! id = Some i ↔
           images d !! id = Some i ∧ image_public d i) ∧
  public_profiles r d = public_profiles Anon d ∧
  public_vehicles r d = public_vehicles Anon d ∧
  public_mods r d = public_mods Anon d ∧
  public_images r d = public_images Anon d.
Proof.
  split; [apply public_profiles_spec|]. split; [apply public_vehicles_spec|].
  split; [apply public_mods_spec|]. split; [apply public_images_spec|].
  repeat split; apply map_eq; intros id; apply option_eq; intros x.
  - by rewrite !public_profiles_spec.
  - by rewrite !public_vehicles_spec.
  - by rewrite !public_mods_spec.
  - by rewrite !public_images_spec.
Qed.

Lemma vehicles_owner_spec u d v :
  is_Some (profiles d !! u) →
  vehicles_owner (Authenticated (Some u)) d v = true ↔ Vehicle.profile_id v = u.
Proof.
  intros Hp. split.
  - intros Hown%DataLayerFacts.vehicles_owner_uid. cbn in Hown. congruence.
  - by apply ReorderFacts.vehicles_owner_own.
Qed.

Lemma own_vehicle_visible u d vid v :
  is_Some (profiles d !! u) →
  vehicles d !! vid = Some v → Vehicle.profile_id v = u →
  visible_vehicles (Authenticated (Some u)) d !! vid = Some v.
Proof.
  intros Hp Hv Hu. apply visible_vehicles_spec. split; [done|]. left.
  split; [done|]. by apply vehicles_owner_spec.
Qed.

Lemma mods_owner_spec u d m :
  is_Some (profiles d !! u) →
  mods_owner (Authenticated (Some u)) d m = true ↔
  DataLayer.vehicle_root d (Mod.vehicle_id m) = Some u.
Proof.
  intros Hp. split.
  - intros (u' & Hu & Hroot)%DataLayerFacts.mods_owner_root. cbn in Hu.
    congruence.
  - unfold DataLayer.vehicle_root.
    destruct (vehicles d !! Mod.vehicle_id m) as [v|] eqn:Hv; [|done].
    intros [= Hu]. by eapply ReorderFacts.mods_owner_own.
Qed.

Lemma own_mod_visible u d mid m :
  is_Some (profiles d !! u) →
  mods d !! mid = Some m →
  DataLayer.vehicle_root d (Mod.vehicle_id m) = Some u →
  visible_mods (Authenticated (Some u)) d !! mid = Some m.
Proof.
  intros Hp Hm Hroot. apply visible_mods_spec. split; [done|]. left.
  split; [done|]. by apply mods_owner_spec.
Qed.

(** The parent an image links is owned by [u]. *)
Lemma images_owner_spec u d i :
  is_Some (profiles d !! u) →
  images_owner (Authenticated (Some u)) d i = true ↔
  Image.profile_id i = u ∧
  ((∃ vid, Image.vehicle_id i = Some vid ∧
           DataLayer.vehicle_root d vid = Some u) ∨
   (∃ mid, Image.mod_id i = Some mid ∧ DataLayer.mod_root d mid = Some u)).
Proof.
  intros Hp. split.
  - intros (u' & Hu & Hi & Hparent)%DataLayerFacts.images_owner_sound.
    cbn in Hu. injection Hu as <-. done.
  - intros [Hi Hparent]. unfold images_owner.
    rewrite (proj2 (DataLayerFacts.uid_is_true _ _)) by (cbn; congruence).
    cbn [andb]. apply orb_true_iff.
    destruct Hparent as [(vid & -> & Hroot)|(mid & -> & Hroot)].
    + left. unfold DataLayer.vehicle_root in Hroot.
      destruct (vehicles d !! vid) as [v|] eqn:Hv; [|done].
      injection Hroot as Hu.
      rewrite (own_vehicle_visible u d vid v Hp Hv Hu).
      apply DataLayerFacts.uid_is_true. cbn. congruence.
    + right. apply DataLayerFacts.mod_root_Some in Hroot as (m & Hm & Hroot).
      rewrite (own_mod_visible u d mid m Hp Hm Hroot).
      unfold DataLayer.vehicle_root in Hroot.
      destruct (vehicles d !! Mod.vehicle_id m) as [v|] eqn:Hv; [|done].
      injection Hroot as Hu.
      rewrite (own_vehicle_visible u d _ v Hp Hv Hu).
      apply DataLayerFacts.uid_is_true. cbn. congruence.
Qed.

(** X15.  What a signed-in user can read from the tables: the rows they
    own and the public rows, nothing else.  A profile is readable when it
    is the user's own or has a username; a vehicle when the user owns it or
    it is public; a mod when its vehicle is the user's or is public; an
    image when it carries the user's [profile_id] and links a vehicle or a
    mod of the user, or when what it links is public. *)
Theorem signed_in_reads_own_or_public (u : uuid) (d : db) :
  is_Some (profiles d !! u) →
  let r := Authenticated (Some u) in
  (∀ id p, visible_profiles r d !! id = Some p ↔
     profiles d !! id = Some p ∧ (id = u ∨ is_Some (Profile.username p))) ∧
  (∀ id v, visible_vehicles r d !! id = Some v ↔
     vehicles d !! id = Some v ∧
     (Vehicle.profile_id v = u ∨ vehicle_public d v)) ∧
  (∀ id m, visible_mods r d !! id = Some m ↔
     mods d !! id = Some m ∧
     (DataLayer.vehicle_root d (Mod.vehicle_id m) = Some u ∨ mod_public d m)) ∧
  (∀ id i, visible_images r d !! id = Some i ↔
     images d !! id = Some i ∧
     ((Image.profile_id i = u ∧
       ((∃ vid, Image.vehicle_id i = Some vid ∧
                DataLayer.vehicle_root d vid = Some u) ∨
        (∃ mid, Image.mod_id i = Some mid ∧
                DataLayer.mod_root d mid = Some u))) ∨
      image_public d i)).
Proof.
  intros Hp r. subst r. split; [|split; [|split]].
  - intros id p. rewrite visible_profiles_spec. cbn.
    split; (intros [? [Hown|?]]; split; [done| |done|]; try by right).
    + left. destruct Hown as [_ [= ->]]. done.
    + left. by subst id.
  - intros id v. rewrite visible_vehicles_spec.
    rewrite (vehicles_owner_spec u d v Hp). cbn. tauto.
  - intros id m. rewrite visible_mods_spec.
    rewrite (mods_owner_spec u d m Hp). cbn. tauto.
  - intros id i. rewrite visible_images_spec.
    rewrite (images_owner_spec u d i Hp). cbn. tauto.
Qed.

Lemma signed_in_reads_own_or_public_witness :
  visible_vehicles (Authenticated (Some 1%N)) Sample.garage !! 12%N
    = Some (Sample.vehicle 1%N false 2 1) ∧
  visible_vehicles (Authenticated (Some 2%N)) Sample.garage !! 12%N = None.
Proof.
  split.
  - apply (signed_in_reads_own_or_public 1%N Sample.garage); [by eexists|].
    split; [reflexivity|]. by left.
  - destruct (visible_vehicles (Authenticated (Some 2%N)) Sample.garage !! 12%N)
      as [v|] eqn:Hv; [|done].
    apply (signed_in_reads_own_or_public 2%N Sample.garage) in Hv as [Hv Hwhy];
      [|by eexists].
    vm_compute in Hv. injection Hv as <-.
    destruct Hwhy as [Hown|[Hpublic _]]; discriminate.
Defined.

Section isolation.
Import DataLayer.
Variables (u : uuid) (d : db).
Let r := Authenticated (Some u).

Lemma owner_of_vehicle v : vehicles_owner r d v = true → Vehicle.profile_id v = u.
Proof.
  intros Hown%DataLayerFacts.vehicles_owner_uid. cbn in Hown. congruence.
Qed.

Lemma owner_of_mod m :
  mods_owner r d m = true → vehicle_root d (Mod.vehicle_id m) = Some u.
Proof.
  intros (u' & Hu & Hroot)%DataLayerFacts.mods_owner_root. cbn in Hu.
  congruence.
Qed.

Lemma owner_of_image i : images_owner r d i = true → Image.profile_id i = u.
Proof.
  intros (u' & Hu & Hi & _)%DataLayerFacts.images_owner_sound. cbn in Hu.
  congruence.
Qed.

(** In tables that meet the ownership invariant, an image of another
    profile hangs neither on a vehicle of [u] nor on a mod of one. *)
Lemma foreign_image_parent id i :
  rooted d → images d !! id = Some i → Image.profile_id i ≠ u →
  (∀ vid v, Image.vehicle_id i = Some vid → vehicles d !! vid = Some v →
            Vehicle.profile_id v ≠ u) ∧
  (∀ mid m, Image.mod_id i = Some mid → mods d !! mid = Some m →
            vehicle_root d (Mod.vehicle_id m) ≠ Some u).
Proof.
  intros Hrooted Hi Hforeign. specialize (Hrooted id i Hi).
  unfold image_rooted in Hrooted.
  destruct (Image.vehicle_id i) as [vid|], (Image.mod_id i) as [mid|];
    try done.
  - split; [|done]. intros ? v [= <-] Hv. unfold vehicle_root in Hrooted.
    rewrite Hv in Hrooted. injection Hrooted as Hu. congruence.
  - split; [done|]. intros ? m [= <-] Hm. unfold mod_root in Hrooted.
    rewrite Hm in Hrooted. cbn in Hrooted. congruence.
Qed.

End isolation.

(** X16.  A signed-in user's [insert], [update] or [delete] changes rows
    of that user only.  After any statement that goes through, every
    profile other than the user's own is as before; so is every vehicle
    owned by someone else and every mod of such a vehicle, and no such row
    has been added; and, the tables meeting the ownership invariant of
    images, so is every image that carries another [profile_id]. *)
Theorem writes_touch_own_rows_only (u : uuid) (w : DataLayer.write) (d d' : db) :
  DataLayer.apply_write (Authenticated (Some u)) w d = Some d' →
  (∀ id, id ≠ u → profiles d' !! id = profiles d !! id) ∧
  (∀ id v, Vehicle.profile_id v ≠ u →
           vehicles d' !! id = Some v ↔ vehicles d !! id = Some v) ∧
  (∀ id m, mods d !! id = Some m →
           DataLayer.vehicle_root d (Mod.vehicle_id m) ≠ Some u →
           mods d' !! id = Some m) ∧
  (∀ id m, mods d' !! id = Some m →
           DataLayer.vehicle_root d' (Mod.vehicle_id m) ≠ Some u →
           mods d !! id = Some m) ∧
  (∀ id i, Image.profile_id i ≠ u →
           images d' !! id = Some i → images d !! id = Some i) ∧
  (DataLayer.rooted d →
   ∀ id i, Image.profile_id i ≠ u →
           images d !! id = Some i → images d' !! id = Some i).
Proof.
  unfold DataLayer.apply_write. cbn [is_authenticated negb].
  pose proof (owner_of_vehicle u d) as Hvo.
  pose proof (owner_of_mod u d) as Hmo.
  pose proof (owner_of_image u d) as Hio.
  pose proof (foreign_image_parent u d) as Hforeign.
  destruct w as [id p|id p|id|id v|id v|id|id m|id m|id|id i|id i|id].
  - (* insert into profiles *)
    intros [Hg ->]%DataLayerFacts.guard_Some.
    apply andb_true_iff in Hg as [_ Hown].
    apply DataLayerFacts.uid_is_true in Hown. injection Hown as <-.
    cbn. repeat split; try done. intros id Hne. by rewrite lookup_insert_ne.
  - (* update profiles *)
    intros [Hg ->]%DataLayerFacts.guard_Some.
    apply andb_true_iff in Hg as [_ Hown].
    apply DataLayerFacts.uid_is_true in Hown. injection Hown as <-.
    cbn. repeat split; try done. intros id Hne. by rewrite lookup_insert_ne.
  - (* delete from profiles, with its cascade *)
    intros [Hg ->]%DataLayerFacts.guard_Some.
    apply andb_true_iff in Hg as [_ Hown].
    apply DataLayerFacts.uid_is_true in Hown. injection Hown as <-.
    cbn. split; [intros id Hne; by rewrite lookup_delete_ne|].
    split.
    { intros id v Hv. rewrite map_lookup_filter_Some. cbn.
      rewrite bool_decide_eq_false. tauto. }
    split.
    { intros id m Hm Hroot. apply map_lookup_filter_Some. split; [done|].
      cbn. unfold DataLayer.vehicle_root in Hroot.
      destruct (vehicles d !! Mod.vehicle_id m) as [v|]; [|done].
      apply bool_decide_eq_false. cbn in Hroot. congruence. }
    split; [by intros id m [? _]%map_lookup_filter_Some|].
    split.
    { intros id i _ [Hi _]%map_lookup_filter_Some.
      by apply map_lookup_filter_Some in Hi as [? _]. }
    intros Hrooted id i Hi Hin.
    destruct (Hforeign id i Hrooted Hin Hi) as [Hv Hm].
    apply map_lookup_filter_Some. split; [|done].
    apply map_lookup_filter_Some. split; [done|]. cbn.
    apply orb_false_iff. split.
    + destruct (Image.vehicle_id i) as [vid|]; [|done]. cbn.
      destruct (vehicles d !! vid) as [v|] eqn:Hvid; [|done].
      apply bool_decide_eq_false. by eapply Hv.
    + destruct (Image.mod_id i) as [mid|]; [|done]. cbn.
      destruct (mods d !! mid) as [m|] eqn:Hmid; [|done].
      specialize (Hm mid m eq_refl Hmid). unfold DataLayer.vehicle_root in Hm.
      destruct (vehicles d !! Mod.vehicle_id m) as [v|]; [|done].
      apply bool_decide_eq_false. cbn in Hm. congruence.
  - (* insert into vehicles *)
    intros [Hg ->]%DataLayerFacts.guard_Some.
    apply andb_true_iff in Hg as [Hg Hown]. apply andb_true_iff in Hg as [Hfresh _].
    apply negb_true_iff, DataLayerFacts.has_false in Hfresh.
    apply Hvo in Hown. cbn. repeat split; try done.
    + intros Hv. destruct (decide (id0 = id)) as [->|Hne].
      * rewrite lookup_insert_eq in Hv. congruence.
      * by rewrite lookup_insert_ne in Hv.
    + intros Hv. destruct (decide (id0 = id)) as [->|Hne]; [congruence|].
      by rewrite lookup_insert_ne.
  - (* update vehicles *)
    destruct (vehicles d !! id) as [old|] eqn:Hold; [|done].
    intros [Hg ->]%DataLayerFacts.guard_Some.
    apply andb_true_iff in Hg as [Hg Hown]. apply andb_true_iff in Hg as [Hwas _].
    apply Hvo in Hown, Hwas. cbn. repeat split; try done.
    + intros Hv. destruct (decide (id0 = id)) as [->|Hne].
      * rewrite lookup_insert_eq in Hv. congruence.
      * by rewrite lookup_insert_ne in Hv.
    + intros Hv. destruct (decide (id0 = id)) as [->|Hne]; [congruence|].
      by rewrite lookup_insert_ne.
  - (* delete from vehicles, with its cascade *)
    destruct (vehicles d !! id) as [old|] eqn:Hold; [|done].
    intros [Hwas ->]%DataLayerFacts.guard_Some. apply Hvo in Hwas.
    cbn. split; [done|]. split.
    { intros id0 v Hv. rewrite map_lookup_filter_Some. cbn.
      rewrite bool_decide_eq_false. split; [tauto|].
      intros Hv0. split; [done|]. intros ->. congruence. }
    split.
    { intros id0 m Hm Hroot. apply map_lookup_filter_Some. split; [done|].
      cbn. destruct (vehicles d !! Mod.vehicle_id m) as [v|] eqn:Hv; [|done].
      apply bool_decide_eq_false. intros Heq.
      unfold DataLayer.vehicle_root in Hroot. rewrite Hv in Hroot.
      rewrite Heq, Hold in Hv. cbn in Hroot. congruence. }
    split; [by intros id0 m [? _]%map_lookup_filter_Some|].
    split; [by intros id0 i _ [? _]%map_lookup_filter_Some|].
    intros Hrooted id0 i Hi Hin.
    destruct (Hforeign id0 i Hrooted Hin Hi) as [Hv Hm].
    apply map_lookup_filter_Some. split; [done|]. cbn.
    apply orb_false_iff. split.
    + destruct (Image.vehicle_id i) as [vid|]; [|done]. cbn.
      destruct (vehicles d !! vid) as [v|] eqn:Hvid; [|done].
      apply bool_decide_eq_false. intros ->.
      specialize (Hv id v eq_refl Hvid). congruence.
    + destruct (Image.mod_id i) as [mid|]; [|done]. cbn.
      destruct (mods d !! mid) as [m|] eqn:Hmid; [|done].
      specialize (Hm mid m eq_refl Hmid). unfold DataLayer.vehicle_root in Hm.
      destruct (vehicles d !! Mod.vehicle_id m) as [v|] eqn:Hvid; [|done].
      apply bool_decide_eq_false. intros Heq. rewrite Heq, Hold in Hvid.
      cbn in Hm. congruence.
  - (* insert into mods *)
    intros [Hg ->]%DataLayerFacts.guard_Some.
    apply andb_true_iff in Hg as [Hg Hown]. apply andb_true_iff in Hg as [Hfresh _].
    apply negb_true_iff, DataLayerFacts.has_false in Hfresh.
    apply Hmo in Hown. cbn. repeat split; try done.
    + intros id0 m0 Hm Hroot. destruct (decide (id0 = id)) as [->|Hne];
        [congruence|]. by rewrite lookup_insert_ne.
    + intros id0 m0 Hm Hroot. destruct (decide (id0 = id)) as [->|Hne].
      * rewrite lookup_insert_eq in Hm. injection Hm as <-. done.
      * by rewrite lookup_insert_ne in Hm.
  - (* update mods *)
    destruct (mods d !! id) as [old|] eqn:Hold; [|done].
    intros [Hg ->]%DataLayerFacts.guard_Some.
    apply andb_true_iff in Hg as [Hg Hown]. apply andb_true_iff in Hg as [Hwas _].
    apply Hmo in Hown, Hwas. cbn. repeat split; try done.
    + intros id0 m0 Hm Hroot. destruct (decide (id0 = id)) as [->|Hne];
        [congruence|]. by rewrite lookup_insert_ne.
    + intros id0 m0 Hm Hroot. destruct (decide (id0 = id)) as [->|Hne].
      * rewrite lookup_insert_eq in Hm. injection Hm as <-. done.
      * by rewrite lookup_insert_ne in Hm.
  - (* delete from mods, with its cascade *)
    destruct (mods d !! id) as [old|] eqn:Hold; [|done].
    intros [Hwas ->]%DataLayerFacts.guard_Some. apply Hmo in Hwas.
    cbn. repeat split; try done.
    + intros id0 m0 Hm Hroot. destruct (decide (id0 = id)) as [->|Hne];
        [congruence|]. by rewrite lookup_delete_ne.
    + intros id0 m0 Hm Hroot. destruct (decide (id0 = id)) as [->|Hne].
      * by rewrite lookup_delete_eq in Hm.
      * by rewrite lookup_delete_ne in Hm.
    + by intros id0 i _ [? _]%map_lookup_filter_Some.
    + intros Hrooted id0 i Hi Hin.
      destruct (Hforeign id0 i Hrooted Hin Hi) as [_ Hm].
      apply map_lookup_filter_Some. split; [done|]. cbn.
      intros Heq. specialize (Hm id old Heq Hold). congruence.
  - (* insert into images *)
    intros [Hg ->]%DataLayerFacts.guard_Some.
    apply andb_true_iff in Hg as [Hg Hown]. apply andb_true_iff in Hg as [Hg _].
    apply andb_true_iff in Hg as [Hfresh _].
    apply negb_true_iff, DataLayerFacts.has_false in Hfresh.
    apply Hio in Hown. cbn. repeat split; try done.
    + intros id0 i0 Hi Hin. destruct (decide (id0 = id)) as [->|Hne].
      * rewrite lookup_insert_eq in Hin. congruence.
      * by rewrite lookup_insert_ne in Hin.
    + intros _ id0 i0 Hi Hin. destruct (decide (id0 = id)) as [->|Hne];
        [congruence|]. by rewrite lookup_insert_ne.
  - (* update images *)
    destruct (images d !! id) as [old|] eqn:Hold; [|done].
    intros [Hg ->]%DataLayerFacts.guard_Some.
    apply andb_true_iff in Hg as [Hg Hown]. apply andb_true_iff in Hg as [Hg _].
    apply andb_true_iff in Hg as [Hwas _].
    apply Hio in Hown, Hwas. cbn. repeat split; try done.
    + intros id0 i0 Hi Hin. destruct (decide (id0 = id)) as [->|Hne].
      * rewrite lookup_insert_eq in Hin. congruence.
      * by rewrite lookup_insert_ne in Hin.
    + intros _ id0 i0 Hi Hin. destruct (decide (id0 = id)) as [->|Hne];
        [congruence|]. by rewrite lookup_insert_ne.
  - (* delete from images *)
    destruct (images d !! id) as [old|] eqn:Hold; [|done].
    intros [Hwas ->]%DataLayerFacts.guard_Some. apply Hio in Hwas.
    cbn. repeat split; try done.
    + intros id0 i0 Hi Hin. destruct (decide (id0 = id)) as [->|Hne].
      * by rewrite lookup_delete_eq in Hin.
      * by rewrite lookup_delete_ne in Hin.
    + intros _ id0 i0 Hi Hin. destruct (decide (id0 = id)) as [->|Hne];
        [congruence|]. by rewrite lookup_delete_ne.
Qed.

(** User 1 deletes their profile from the sample garage: the delete
    cascades through their vehicles, and the profile and the vehicle of
    user 2 stay as they were. *)
Lemma writes_touch_own_rows_only_witness :
  ∃ d',
    DataLayer.apply_write (Authenticated (Some 1%N)) (DataLayer.DeleteProfile 1%N)
      Sample.garage = Some d' ∧
    profiles d' !! 2%N = Some (Sample.profile (Some "bob")) ∧
    vehicles d' !! 20%N = Some (Sample.vehicle 2%N true 0 0).
Proof.
  destruct (DataLayer.apply_write (Authenticated (Some 1%N))
              (DataLayer.DeleteProfile 1%N) Sample.garage) as [d'|] eqn:Hw;
    [|vm_compute in Hw; discriminate].
  exists d'. split; [done|].
  destruct (writes_touch_own_rows_only 1%N _ _ _ Hw) as (Hp & Hv & _).
  split.
  - rewrite Hp by done. reflexivity.
  - apply Hv; [cbn; discriminate | reflexivity].
Defined.

(** X17.  A profile without a username is off line for everyone but its
    owner.  While [username] is null, no reader other than the owner,
    signed in or not, is shown the profile, any of its vehicles, however
    [is_public] is set, or any mod of them; nor, the tables meeting the
    ownership invariant of images, any image that carries its
    [profile_id]. *)
Theorem unpublished_profile_hidden (r : role) (d : db) (u : uuid)
    (p : Profile.row) :
  profiles d !! u = Some p →
  Profile.username p = None →
  auth_uid r ≠ Some u →
  visible_profiles r d !! u = None ∧
  (∀ vid v, vehicles d !! vid = Some v → Vehicle.profile_id v = u →
            visible_vehicles r d !! vid = None) ∧
  (∀ mid m, mods d !! mid = Some m →
            DataLayer.vehicle_root d (Mod.vehicle_id m) = Some u →
            visible_mods r d !! mid = None) ∧
  (DataLayer.rooted d →
   ∀ iid i, images d !! iid = Some i → Image.profile_id i = u →
            visible_images r d !! iid = None).
Proof.
  intros Hp Hname Hother.
  assert (¬ published d u) as Hunpublished.
  { intros (p' & Hp' & Hsome). rewrite Hp in Hp'. injection Hp' as <-.
    rewrite Hname in Hsome. by destruct Hsome. }
  assert (∀ v, Vehicle.profile_id v = u → ¬ vehicle_public d v) as Hvehicle.
  { intros v Hv [_ Hpub]. by rewrite Hv in Hpub. }
  assert (∀ m, DataLayer.vehicle_root d (Mod.vehicle_id m) = Some u →
               ¬ mod_public d m) as Hmod.
  { intros m Hroot (v & Hv & Hpub). unfold DataLayer.vehicle_root in Hroot.
    rewrite Hv in Hroot. injection Hroot as Hu. by eapply Hvehicle. }
  split.
  { apply eq_None_not_Some. intros [p' Hvis].
    apply visible_profiles_spec in Hvis as [Hp' [[_ Hme]|Hsome]]; [done|].
    rewrite Hp in Hp'. injection Hp' as <-. rewrite Hname in Hsome.
    by destruct Hsome. }
  split.
  { intros vid v Hv Hu. apply eq_None_not_Some. intros [v' Hvis].
    apply visible_vehicles_spec in Hvis as [Hv' [[_ Hown]|Hpub]].
    - apply DataLayerFacts.vehicles_owner_uid in Hown.
      rewrite Hv in Hv'. injection Hv' as <-. congruence.
    - rewrite Hv in Hv'. injection Hv' as <-. by eapply Hvehicle. }
  split.
  { intros mid m Hm Hroot. apply eq_None_not_Some. intros [m' Hvis].
    apply visible_mods_spec in Hvis as [Hm' [[_ Hown]|Hpub]];
      rewrite Hm in Hm'; injection Hm' as <-.
    - apply DataLayerFacts.mods_owner_root in Hown as (u' & Hu' & Hroot').
      congruence.
    - by eapply Hmod. }
  intros Hrooted iid i Hi Hu. apply eq_None_not_Some. intros [i' Hvis].
  apply visible_images_spec in Hvis as [Hi' [[_ Hown]|Hpub]];
    rewrite Hi in Hi'; injection Hi' as <-.
  - apply DataLayerFacts.images_owner_sound in Hown as (u' & Hu' & Hi' & _).
    congruence.
  - specialize (Hrooted iid i Hi). unfold DataLayer.image_rooted in Hrooted.
    rewrite Hu in Hrooted.
    destruct Hpub as [(vid & v & Hvid & Hv & Hpub)|(mid & m & Hmid & Hm & Hpub)].
    + rewrite Hvid in Hrooted. destruct (Image.mod_id i); [done|].
      unfold DataLayer.vehicle_root in Hrooted. rewrite Hv in Hrooted.
      injection Hrooted as Hroot. by eapply Hvehicle.
    + rewrite Hmid in Hrooted. destruct (Image.vehicle_id i); [done|].
      apply DataLayerFacts.mod_root_Some in Hrooted as (m' & Hm' & Hroot).
      rewrite Hm in Hm'. injection Hm' as <-. by eapply Hmod.
Qed.

(** In the sample garage with the username of profile 1 cleared, an
    anonymous reader is shown neither the profile nor its public vehicle
    10. *)
Lemma unpublished_profile_hidden_witness :
  let d := DataLayer.set_profiles
             (<[1%N := Sample.profile None]> (profiles Sample.garage))
             Sample.garage in
  visible_profiles Anon d !! 1%N = None ∧
  visible_vehicles Anon d !! 10%N = None.
Proof.
  intros d.
  destruct (unpublished_profile_hidden Anon d 1%N (Sample.profile None))
    as (Hp & Hv & _); [reflexivity|reflexivity|discriminate|].
  split; [exact Hp|]. by apply (Hv 10%N (Sample.vehicle 1%N true 0 2)).
Defined.

End RowSecurityFacts.

(** ** Storage objects: who reads and who writes which path *)

Module StoragePoliciesFacts.
Import Schema Policies PublicViews Storage StoragePolicies.
Import ServerAction.

Lemma append_assoc a b c : (a +:+ b) +:+ c = a +:+ (b +:+ c).
Proof.
  induction a as [|x a IH]; [done|].
  change (String x ((a +:+ b) +:+ c) = String x (a +:+ b +:+ c)).
  by rewrite IH.
Qed.

Lemma string_forall_substring p n m s :
  string_forall p s = true → string_forall p (substring n m s) = true.
Proof.
  revert n m. induction s as [|c s IH]; intros [|n] [|m]; try done.
  - cbn. rewrite !andb_true_iff. intros [Hc Hs]. auto.
  - cbn. rewrite andb_true_iff. intros [_ Hs]. auto.
  - cbn. rewrite andb_true_iff. intros [_ Hs]. auto.
Qed.

Lemma string_forall_filter p s : string_forall p (string_filter p s) = true.
Proof.
  induction s as [|c s IH]; [done|]. cbn.
  destruct (p c) eqn:Hc; [|done]. cbn. by rewrite Hc.
Qed.

Lemma hex_digit_is_hex k : is_hex_digit (hex_digit k) = true.
Proof.
  unfold hex_digit. generalize (N.to_nat k). intros n.
  do 16 (destruct n as [|n]; [reflexivity|]). by destruct n.
Qed.

Lemma hex_fixed_chars digits n :
  string_forall is_uuid_char (hex_fixed digits n) = true.
Proof.
  revert n. induction digits as [|digits IH]; intros n; [done|].
  cbn [hex_fixed]. rewrite ServerActionFacts.string_forall_app, IH.
  cbn [string_forall andb]. unfold is_uuid_char.
  by rewrite hex_digit_is_hex.
Qed.

Lemma uuid_text_chars u : string_forall is_uuid_char (uuid_text u) = true.
Proof.
  unfold uuid_text. pose proof (hex_fixed_chars 32 u) as Hh.
  revert Hh. generalize (hex_fixed 32 u). intros h Hh. cbv zeta.
  rewrite !ServerActionFacts.string_forall_app, !string_forall_substring by done. done.
Qed.

Lemma uuid_text_length u : (4 ≤ String.length (uuid_text u))%nat.
Proof.
  unfold uuid_text. generalize (hex_fixed 32 u). intros h. cbv zeta.
  rewrite !ServerActionFacts.length_append.
  change (String.length "-") with 1%nat. lia.
Qed.

Lemma uuid_char_no_slash s :
  string_forall is_uuid_char s = true → no_slash s = true.
Proof.
  apply ServerActionFacts.string_forall_impl. intros c.
  destruct c as [[] [] [] [] [] [] [] []]; vm_compute; congruence.
Qed.

Lemma alnum_no_slash s : string_forall is_alnum s = true → no_slash s = true.
Proof.
  apply ServerActionFacts.string_forall_impl. intros c.
  destruct c as [[] [] [] [] [] [] [] []]; vm_compute; congruence.
Qed.

Lemma uuid_text_no_slash u : no_slash (uuid_text u) = true.
Proof. apply uuid_char_no_slash, uuid_text_chars. Qed.

Lemma no_slash_app a b : no_slash (a +:+ b) = no_slash a && no_slash b.
Proof. apply ServerActionFacts.string_forall_app. Qed.

(** A text without a slash is one part. *)
Lemma split_slash_no_slash s : no_slash s = true → split_slash s = [s].
Proof.
  induction s as [|c s IH]; [done|]. cbn.
  rewrite andb_true_iff, negb_true_iff, bool_decide_eq_false.
  intros [Hc Hs]. rewrite bool_decide_eq_false_2 by done. by rewrite IH.
Qed.

(** The parts of a path hold no slash. *)
Lemma split_slash_parts s : Forall (fun p => no_slash p = true) (split_slash s).
Proof.
  induction s as [|c s IH]; [by repeat constructor|]. cbn [split_slash].
  case_bool_decide as Hc; [by constructor|].
  destruct (split_slash s) as [|seg rest].
  - repeat constructor. cbn. by rewrite bool_decide_eq_false_2.
  - inversion IH as [|? ? Hseg Hrest]; subst. constructor; [|done].
    cbn. by rewrite bool_decide_eq_false_2.
Qed.

Lemma split_slash_three p1 p2 file :
  no_slash p1 = true → no_slash p2 = true → no_slash file = true →
  split_slash (p1 +:+ "/" +:+ p2 +:+ "/" +:+ file) = [p1; p2; file].
Proof.
  intros H1 H2 H3.
  change (p1 +:+ "/" +:+ p2 +:+ "/" +:+ file)
    with (p1 +:+ String "/" (p2 +:+ String "/" file)).
  rewrite !StorageFacts.split_slash_app.
  by rewrite !split_slash_no_slash.
Qed.

Lemma has_double_slash_no_slash s :
  no_slash s = true → has_double_slash s = false.
Proof.
  induction s as [|c s IH]; [done|]. cbn [no_slash string_forall].
  unfold no_slash in IH.
  rewrite andb_true_iff, negb_true_iff, bool_decide_eq_false.
  intros [Hc Hs]. cbn [has_double_slash]. destruct s as [|b s]; [done|].
  rewrite (bool_decide_eq_false_2 (c = "/"%char)) by done. cbn [andb orb].
  by apply IH.
Qed.

Lemma has_double_slash_skip a t :
  no_slash a = true → has_double_slash (a +:+ t) = has_double_slash t.
Proof.
  induction a as [|c a IH]; [done|]. cbn [no_slash string_forall].
  unfold no_slash in IH.
  rewrite andb_true_iff, negb_true_iff, bool_decide_eq_false.
  intros [Hc Ha]. rewrite <-(IH Ha).
  change (String c a +:+ t) with (String c (a +:+ t)).
  cbn [has_double_slash]. destruct (a +:+ t) as [|b s]; [done|].
  by rewrite (bool_decide_eq_false_2 (c = "/"%char)).
Qed.

Lemma has_double_slash_slash c t :
  c ≠ "/"%char →
  has_double_slash (String "/" (String c t)) = has_double_slash (String c t).
Proof.
  intros Hc. cbn [has_double_slash].
  by rewrite (bool_decide_eq_false_2 (c = "/"%char)), andb_false_r.
Qed.

Lemma no_slash_head c s : no_slash (String c s) = true → c ≠ "/"%char.
Proof.
  cbn. intros [Hc _]%andb_true_iff.
  by apply negb_true_iff, bool_decide_eq_false in Hc.
Qed.

(** In a path of three parts, [//] is an empty middle part. *)
Lemma has_double_slash_three p1 p2 file :
  no_slash p1 = true → no_slash p2 = true → no_slash file = true →
  has_double_slash (p1 +:+ "/" +:+ p2 +:+ "/" +:+ file) = bool_decide (p2 = "").
Proof.
  intros H1 H2 H3. rewrite has_double_slash_skip by done.
  destruct p2 as [|c p2]; [done|].
  rewrite (bool_decide_eq_false_2 (String c p2 = "")) by done.
  change ("/" +:+ String c p2 +:+ "/" +:+ file)
    with (String "/" (String c (p2 +:+ "/" +:+ file))).
  rewrite has_double_slash_slash by (by eapply no_slash_head).
  change (String c (p2 +:+ "/" +:+ file)) with (String c p2 +:+ "/" +:+ file).
  rewrite has_double_slash_skip by done.
  change ("/" +:+ file) with (String "/" file).
  destruct file as [|b file]; [done|].
  rewrite has_double_slash_slash by (by eapply no_slash_head).
  by apply has_double_slash_no_slash.
Qed.

Lemma folder_of_three p1 p2 file :
  no_slash p1 = true → no_slash p2 = true → no_slash file = true →
  foldername (p1 +:+ "/" +:+ p2 +:+ "/" +:+ file) = [p1; p2] ∧
  filename (p1 +:+ "/" +:+ p2 +:+ "/" +:+ file) = Some file.
Proof.
  intros H1 H2 H3. unfold foldername, filename, string_to_array.
  rewrite bool_decide_eq_false_2 by (by destruct p1).
  by rewrite split_slash_three.
Qed.

(** A path with two folder parts, taken apart. *)
Lemma parts_of_path name p1 p2 :
  foldername name = [p1; p2] →
  ∃ file, name = p1 +:+ "/" +:+ p2 +:+ "/" +:+ file ∧
          no_slash p1 = true ∧ no_slash p2 = true ∧ no_slash file = true.
Proof.
  intros Hfold.
  destruct (StorageFacts.path_of_parts name p1 p2 Hfold) as (file & _ & Hname).
  exists file. split; [done|].
  revert Hfold. unfold foldername, string_to_array.
  case_bool_decide; [done|].
  intros (file' & Hsplit & _)%StorageFacts.removelast_two.
  pose proof (split_slash_parts name) as Hparts. rewrite Hsplit in Hparts.
  assert (file' = file) as ->.
  { pose proof (StorageFacts.concat_split_slash name) as Hjoin.
    rewrite Hsplit in Hjoin. rewrite Hname in Hjoin.
    change (String.concat "/" [p1; p2; file'])
      with (p1 +:+ "/" +:+ p2 +:+ "/" +:+ file') in Hjoin.
    apply ServerActionFacts.append_inj_l in Hjoin. apply (ServerActionFacts.append_inj_l "/") in Hjoin.
    apply ServerActionFacts.append_inj_l in Hjoin. by apply (ServerActionFacts.append_inj_l "/") in Hjoin. }
  inversion Hparts as [|? ? Hp1 Hrest]; subst.
  inversion Hrest as [|? ? Hp2 Hrest']; subst.
  by inversion Hrest' as [|? ? Hfile _]; subst.
Qed.

Lemma existsb_map_to_list {A} (f : uuid * A → bool) (m : gmap uuid A) :
  existsb f (map_to_list m) = true ↔ ∃ k x, m !! k = Some x ∧ f (k, x) = true.
Proof.
  rewrite existsb_exists. split.
  - intros ([k x] & Hin & Hf). exists k, x. split; [|done].
    by apply elem_of_map_to_list, list_elem_of_In.
  - intros (k & x & Hm & Hf). exists (k, x). split; [|done].
    by apply list_elem_of_In, elem_of_map_to_list.
Qed.

(** On a path of three parts, the guard of migration 0008 is the guard of
    migration 0005 behind the checks on the text of the path. *)
Lemma hardening_on_path r d p1 p2 file requester :
  no_slash p1 = true → no_slash p2 = true → no_slash file = true →
  mygarage_object_owner_can_write r d
    (Some (p1 +:+ "/" +:+ p2 +:+ "/" +:+ file)) (Some requester) =
  negb (bool_decide (".." ∈ [p1; p2; file])) && negb (bool_decide (p2 = ""))
  && (negb (bool_decide (file = ""))
      && mygarage_object_owner_can_write_0005 r d
           (Some (p1 +:+ "/" +:+ p2 +:+ "/" +:+ file)) (Some requester)).
Proof.
  intros H1 H2 H3.
  destruct (folder_of_three p1 p2 file H1 H2 H3) as [Hfold Hfile].
  unfold mygarage_object_owner_can_write, mygarage_object_owner_can_write_0005.
  cbv zeta. rewrite Hfold, Hfile. unfold has_dotdot_part.
  rewrite split_slash_three, has_double_slash_three by done.
  f_equal. f_equal. destruct file as [|c file].
  - rewrite (bool_decide_eq_false_2 (is_Some None)); [done|].
    by intros [? ?].
  - rewrite (bool_decide_eq_true_2 (is_Some (Some (String c file))));
      [done | by eexists].
Qed.

Lemma uuid_text_not_short u : uuid_text u ≠ ".." ∧ uuid_text u ≠ "".
Proof.
  pose proof (uuid_text_length u) as Hlen.
  split; intros Heq; rewrite Heq in Hlen; cbn in Hlen; lia.
Qed.

(** What the guard of migration 0005 asks of the two folder parts. *)
Lemma guard_0005_folder r d p1 p2 file requester :
  no_slash p1 = true → no_slash p2 = true → no_slash file = true →
  mygarage_object_owner_can_write_0005 r d
    (Some (p1 +:+ "/" +:+ p2 +:+ "/" +:+ file)) (Some requester) = true →
  p1 ≠ ".." ∧ p2 ≠ ".." ∧ p2 ≠ "".
Proof.
  intros H1 H2 H3.
  destruct (folder_of_three p1 p2 file H1 H2 H3) as [Hfold _].
  unfold mygarage_object_owner_can_write_0005. rewrite Hfold.
  rewrite !orb_true_iff, !andb_true_iff, !bool_decide_eq_true.
  intros [[[-> ->]|[-> Hex]]|[-> Hex]].
  - split; [done|]. apply uuid_text_not_short.
  - split; [done|].
    apply existsb_map_to_list in Hex as (vid & v & _ & Hrow).
    apply andb_true_iff in Hrow as [<-%bool_decide_eq_true _].
    apply uuid_text_not_short.
  - split; [done|].
    apply existsb_map_to_list in Hex as (mid & m & _ & Hrow).
    apply andb_true_iff in Hrow as [<-%bool_decide_eq_true _].
    apply uuid_text_not_short.
Qed.

(** X18.  What migration 0008 changed in the owner guard of storage
    objects.  The hardened [mygarage_object_owner_can_write] accepts an
    object exactly when the guard of migration 0005 accepted it and its
    file name, the part after the last slash, is neither empty nor [..]:
    of the objects that were writable before, the checks for [..], for
    [//] and for the file name turn away those and no others. *)
Theorem owner_can_write_hardening (r : role) (d : db) (name : string)
    (requester : option uuid) :
  mygarage_object_owner_can_write r d (Some name) requester = true ↔
  mygarage_object_owner_can_write_0005 r d (Some name) requester = true ∧
  ∃ file, filename name = Some file ∧ file ≠ "" ∧ file ≠ "..".
Proof.
  destruct requester as [requester|]; [|by split; [|intros [? _]]].
  destruct (foldername name) as [|p1 [|p2 [|p3 parts]]] eqn:Hfold;
    try (unfold mygarage_object_owner_can_write,
           mygarage_object_owner_can_write_0005;
         cbv zeta; rewrite Hfold, ?andb_false_r;
         by split; [|intros [? _]]).
  destruct (parts_of_path name p1 p2 Hfold) as (file & -> & H1 & H2 & H3).
  destruct (folder_of_three p1 p2 file H1 H2 H3) as [_ Hfile].
  rewrite hardening_on_path, Hfile by done.
  rewrite !andb_true_iff, !negb_true_iff, !bool_decide_eq_false. split.
  - intros [[Hdots _] [Hfilled Hold]]. split; [done|].
    exists file. split; [done|]. split; [done|].
    intros ->. apply Hdots. rewrite !elem_of_cons. tauto.
  - intros [Hold (file' & [= <-] & Hfilled & Hdots)].
    destruct (guard_0005_folder r d p1 p2 file requester H1 H2 H3 Hold)
      as (Hp1 & Hp2 & Hp2').
    repeat split; try done.
    rewrite !elem_of_cons, elem_of_nil. intros [?|[?|[?|[]]]]; congruence.
Qed.

Lemma getFileExtension_shape fileName :
  string_forall is_alnum (getFileExtension fileName) = true ∧
  getFileExtension fileName ≠ "".
Proof.
  unfold getFileExtension.
  destruct (after_last_dot fileName) as [rest|]; [|done]. cbv zeta.
  destruct (0 <? String.length (string_filter is_alnum (RateLimiter.toLowerCase rest)))%nat
    eqn:Hlen; [|done].
  split; [apply string_forall_filter|].
  intros Heq. rewrite Heq in Hlen. discriminate.
Qed.

(** The name [uploadFile] gives the file: a uuid, a dot and the cleaned
    extension. *)
Lemma upload_name_shape file_id fileName :
  let file := uuid_text file_id +:+ "." +:+ getFileExtension fileName in
  no_slash file = true ∧ file ≠ "" ∧ file ≠ "..".
Proof.
  intros file. destruct (getFileExtension_shape fileName) as [Hext _].
  split.
  - unfold file. rewrite !no_slash_app, uuid_text_no_slash.
    by rewrite (alnum_no_slash _ Hext).
  - assert (4 ≤ String.length file)%nat as Hlen.
    { unfold file. rewrite ServerActionFacts.length_append.
      pose proof (uuid_text_length file_id). lia. }
    split; intros Heq; rewrite Heq in Hlen; cbn in Hlen; lia.
Qed.

Lemma upload_path_parts kind id file_id fileName :
  upload_path (kind +:+ "/" +:+ uuid_text id) file_id fileName =
  kind +:+ "/" +:+ uuid_text id +:+ "/"
  +:+ (uuid_text file_id +:+ "." +:+ getFileExtension fileName).
Proof.
  unfold upload_path. rewrite append_assoc.
  change (("/" +:+ uuid_text id) +:+ ?rest)
    with (String "/" (uuid_text id +:+ rest)).
  reflexivity.
Qed.

(** The checks of migration 0008 on the text of the path let every path
    of [uploadFile] through. *)
Lemma upload_path_passes r d kind id file_id fileName requester :
  no_slash kind = true → kind ≠ ".." →
  let path := upload_path (kind +:+ "/" +:+ uuid_text id) file_id fileName in
  has_dotdot_part path = false ∧ has_double_slash path = false ∧
  mygarage_object_owner_can_write r d (Some path) (Some requester) =
  mygarage_object_owner_can_write_0005 r d (Some path) (Some requester).
Proof.
  intros Hkind Hnot path. unfold path. rewrite upload_path_parts.
  destruct (upload_name_shape file_id fileName) as (Hfile & Hfilled & Hdots).
  pose proof (uuid_text_no_slash id) as Hid.
  destruct (uuid_text_not_short id) as [Hid1 Hid2].
  assert (".." ∉ [kind; uuid_text id;
                  uuid_text file_id +:+ "." +:+ getFileExtension fileName])
    as Hparts.
  { rewrite !elem_of_cons, elem_of_nil. intros [?|[?|[?|[]]]]; congruence. }
  split; [|split].
  - unfold has_dotdot_part. rewrite split_slash_three by done.
    by apply bool_decide_eq_false.
  - rewrite has_double_slash_three by done. by apply bool_decide_eq_false.
  - rewrite hardening_on_path by done.
    rewrite (bool_decide_eq_false_2 _ Hparts).
    rewrite (bool_decide_eq_false_2 _ Hid2).
    by rewrite (bool_decide_eq_false_2 _ Hfilled).
Qed.

(** X19.  The storage policy accepts what the dashboard uploads.  For any
    file name, [uploadFile] builds a path that the owner policies of the
    bucket let the signed-in user write: below [avatars/] with the user's
    own id, below [vehicles/] with the id of a vehicle of the user, below
    [mods/] with the id of a mod of such a vehicle.  The path never holds
    a [..] part or [//], whatever the file was called. *)
Theorem uploads_accepted (u : uuid) (d : db) (file_id : uuid)
    (fileName : string) :
  is_Some (profiles d !! u) →
  let r := Authenticated (Some u) in
  mygarage_owner r d "mygarage"
    (Some (upload_path ("avatars/" +:+ uuid_text u) file_id fileName)) = true ∧
  (∀ vid v,
     vehicles d !! vid = Some v → Vehicle.profile_id v = u →
     mygarage_owner r d "mygarage"
       (Some (upload_path ("vehicles/" +:+ uuid_text vid) file_id fileName))
     = true) ∧
  (∀ mid m,
     mods d !! mid = Some m →
     DataLayer.vehicle_root d (Mod.vehicle_id m) = Some u →
     mygarage_owner r d "mygarage"
       (Some (upload_path ("mods/" +:+ uuid_text mid) file_id fileName))
     = true) ∧
  (∀ kind id,
     kind ∈ ["avatars"; "vehicles"; "mods"] →
     has_dotdot_part
       (upload_path (kind +:+ "/" +:+ uuid_text id) file_id fileName) = false ∧
     has_double_slash
       (upload_path (kind +:+ "/" +:+ uuid_text id) file_id fileName) = false).
Proof.
  intros Hp r. subst r.
  assert (∀ kind id,
            no_slash kind = true →
            foldername (upload_path (kind +:+ "/" +:+ uuid_text id)
                          file_id fileName) = [kind; uuid_text id]) as Hfold.
  { intros kind id Hkind. rewrite upload_path_parts.
    apply folder_of_three; [done|apply uuid_text_no_slash|].
    apply upload_name_shape. }
  unfold mygarage_owner. cbn [is_authenticated auth_uid andb].
  rewrite (bool_decide_eq_true_2 ("mygarage" = "mygarage")) by done.
  cbn [andb]. split; [|split; [|split]].
  - change ("avatars/" +:+ uuid_text u) with ("avatars" +:+ "/" +:+ uuid_text u).
    destruct (upload_path_passes (Authenticated (Some u)) d "avatars" u
                file_id fileName u) as (_ & _ & ->); [done..|].
    unfold mygarage_object_owner_can_write_0005. rewrite Hfold by done.
    apply orb_true_iff. left. apply orb_true_iff. left.
    apply andb_true_iff. split; by apply bool_decide_eq_true.
  - intros vid v Hv Hu.
    change ("vehicles/" +:+ uuid_text vid)
      with ("vehicles" +:+ "/" +:+ uuid_text vid).
    destruct (upload_path_passes (Authenticated (Some u)) d "vehicles" vid
                file_id fileName u) as (_ & _ & ->); [done..|].
    unfold mygarage_object_owner_can_write_0005. rewrite Hfold by done.
    apply orb_true_iff. left. apply orb_true_iff. right.
    apply andb_true_iff. split; [by apply bool_decide_eq_true|].
    apply existsb_map_to_list. exists vid, v.
    split; [by apply RowSecurityFacts.own_vehicle_visible|].
    cbn. by rewrite !bool_decide_eq_true_2.
  - intros mid m Hm Hroot.
    change ("mods/" +:+ uuid_text mid) with ("mods" +:+ "/" +:+ uuid_text mid).
    destruct (upload_path_passes (Authenticated (Some u)) d "mods" mid
                file_id fileName u) as (_ & _ & ->); [done..|].
    unfold mygarage_object_owner_can_write_0005. rewrite Hfold by done.
    apply orb_true_iff. right.
    apply andb_true_iff. split; [by apply bool_decide_eq_true|].
    apply existsb_map_to_list. exists mid, m.
    split; [by apply RowSecurityFacts.own_mod_visible|].
    cbn [fst snd]. rewrite (bool_decide_eq_true_2 (uuid_text mid = uuid_text mid)) by done.
    cbn [andb]. unfold DataLayer.vehicle_root in Hroot.
    destruct (vehicles d !! Mod.vehicle_id m) as [v|] eqn:Hv; [|done].
    injection Hroot as Hu.
    rewrite (RowSecurityFacts.own_vehicle_visible u d _ v Hp Hv Hu).
    by apply bool_decide_eq_true.
  - intros kind id Hkind.
    assert (no_slash kind = true ∧ kind ≠ "..") as [Hno Hnot].
    { rewrite !elem_of_cons, elem_of_nil in Hkind.
      destruct Hkind as [->|[->|[->|[]]]]; done. }
    destruct (upload_path_passes Anon d kind id file_id fileName u Hno Hnot)
      as (Hdots & Hslash & _).
    done.
Qed.

(** User 1 of the sample garage uploads a file called [a/../Photo.JPG] for
    vehicle 10. *)
Lemma uploads_accepted_witness :
  mygarage_owner (Authenticated (Some 1%N)) Sample.garage "mygarage"
    (Some (upload_path ("vehicles/" +:+ uuid_text 10%N) 7%N "a/../Photo.JPG"))
  = true ∧
  upload_path ("vehicles/" +:+ uuid_text 10%N) 7%N "a/../Photo.JPG" =
  "vehicles/00000000-0000-0000-0000-00000000000a/00000000-0000-0000-0000-000000000007.jpg".
Proof.
  split; [|reflexivity].
  apply (uploads_accepted 1%N Sample.garage 7%N "a/../Photo.JPG")
    with (v := Sample.vehicle 1%N true 0 2); [by eexists|reflexivity..].
Defined.

(** X20.  Who may read a stored object without owning it.  For every
    caller, signed in or not, the policy [mygarage_public_read] opens an
    object exactly when it lies in the bucket [mygarage], its name holds
    no [..] part and no [//], and the name is the avatar of a profile with
    a username, the hero image of a public vehicle of such a profile, or
    the file of an image row of the bucket whose vehicle or mod is public.
    A file that no published row points to stays closed. *)
Theorem mygarage_public_read_spec (r : role) (d : db) (bucket_id name : string) :
  mygarage_public_read r d bucket_id (Some name) = true ↔
  bucket_id = "mygarage" ∧
  has_dotdot_part name = false ∧ has_double_slash name = false ∧
  ((∃ id p, profiles d !! id = Some p ∧ is_Some (Profile.username p) ∧
            Profile.avatar_image_path p = Some name) ∨
   (∃ id v, vehicles d !! id = Some v ∧ vehicle_public d v ∧
            Vehicle.hero_image_path v = Some name) ∨
   (∃ id i, images d !! id = Some i ∧ image_public d i ∧
            Image.storage_bucket i = "mygarage" ∧
            Image.storage_path i = name)).
Proof.
  unfold mygarage_public_read, mygarage_object_is_public_readable,
    referenced_by_public_views.
  rewrite !andb_true_iff, !orb_true_iff, !negb_true_iff, bool_decide_eq_true.
  rewrite !existsb_map_to_list.
  assert ((∃ k x, public_profiles r d !! k = Some x ∧
             bool_decide (Profile.avatar_image_path (k, x).2 = Some name) = true)
          ↔ ∃ id p, profiles d !! id = Some p ∧ is_Some (Profile.username p) ∧
                    Profile.avatar_image_path p = Some name) as ->.
  { split.
    - intros (id & p & [Hp Hname]%RowSecurityFacts.public_profiles_spec
              & Hpath%bool_decide_eq_true). by exists id, p.
    - intros (id & p & Hp & Hname & Hpath). exists id, p.
      split; [by apply RowSecurityFacts.public_profiles_spec|].
      by apply bool_decide_eq_true. }
  assert ((∃ k x, public_vehicles r d !! k = Some x ∧
             bool_decide (Vehicle.hero_image_path (k, x).2 = Some name) = true)
          ↔ ∃ id v, vehicles d !! id = Some v ∧ vehicle_public d v ∧
                    Vehicle.hero_image_path v = Some name) as ->.
  { split.
    - intros (id & v & [Hv Hpub]%RowSecurityFacts.public_vehicles_spec
              & Hpath%bool_decide_eq_true). by exists id, v.
    - intros (id & v & Hv & Hpub & Hpath). exists id, v.
      split; [by apply RowSecurityFacts.public_vehicles_spec|].
      by apply bool_decide_eq_true. }
  assert ((∃ k x, public_images r d !! k = Some x ∧
             bool_decide (Image.storage_bucket (k, x).2 = "mygarage")
             && bool_decide (Image.storage_path (k, x).2 = name) = true)
          ↔ ∃ id i, images d !! id = Some i ∧ image_public d i ∧
                    Image.storage_bucket i = "mygarage" ∧
                    Image.storage_path i = name) as ->.
  { split.
    - intros (id & i & [Hi Hpub]%RowSecurityFacts.public_images_spec & Hrow).
      apply andb_true_iff in Hrow as [Hb%bool_decide_eq_true Hpath%bool_decide_eq_true].
      by exists id, i.
    - intros (id & i & Hi & Hpub & Hb & Hpath). exists id, i.
      split; [by apply RowSecurityFacts.public_images_spec|].
      apply andb_true_iff. split; by apply bool_decide_eq_true. }
  tauto.
Qed.

End StoragePoliciesFacts.

(** ** What a reorder call writes *)

Module ReorderScopeFacts.
Import Schema Policies Reorder.

(** A call of [reorder_vehicle_swap] that returns leaves the tables as
    they were, or exchanges the [sort_order] of two vehicles of the
    caller. *)
Lemma vehicle_swap_result uid now vid dir d d' o :
  reorder_vehicle_swap uid now vid dir d = Ok (d', o) →
  d' = d ∨
  ∃ u x a y b,
    uid = Some u ∧ o = moved ∧ x ≠ y ∧
    vehicles d !! x = Some a ∧ Vehicle.profile_id a = u ∧
    vehicles d !! y = Some b ∧ Vehicle.profile_id b = u ∧
    profiles d' = profiles d ∧ mods d' = mods d ∧ images d' = images d ∧
    ∀ z, vehicles d' !! z =
         if bool_decide (z = x)
         then Some (with_sort_order (sort_order_of b) now a)
         else if bool_decide (z = y)
              then Some (with_sort_order (sort_order_of a) now b)
              else vehicles d !! z.
Proof.
  unfold reorder_vehicle_swap. destruct (invalid_direction dir); [done|].
  destruct uid as [u|]; [|intros [= <- <-]; by left].
  set (own := filter _ (lockable_vehicles _ d)).
  assert (own ⊆ vehicles d) as Hsub.
  { unfold own, lockable_vehicles, visible_vehicles.
    etrans; [apply map_filter_subseteq|].
    etrans; apply map_filter_subseteq. }
  destruct vid as [x|]; [|intros [= <- <-]; by left].
  cbn [mbind option_bind].
  destruct (own !! x) as [a|] eqn:Hx; [|intros [= <- <-]; by left].
  cbn [fmap option_fmap option_map].
  destruct (select_neighbor (is_up dir) own (x, a)) as [[y b]|] eqn:Hsel;
    [|intros [= <- <-]; by left].
  intros [= <- <-]. right. cbn [profiles vehicles mods images].
  apply ReorderFacts.select_neighbor_nearest in Hsel as Hnear.
  pose proof (ReorderFacts.nearest_distinct _ own (x, a) (y, b) Hx Hnear) as Hyx.
  destruct Hnear as (Hy & _ & _). simpl in Hy, Hyx.
  destruct (ReorderFacts.own_vehicles_stored u d x a Hx) as [Hxa Hua].
  destruct (ReorderFacts.own_vehicles_stored u d y b Hy) as [Hyb Hub].
  exists u, x, a, y, b. do 7 (split; [done|]). do 3 (split; [done|]).
  intros z.
  by rewrite (ReorderFacts.swap_sort_order_lookup own (x, a) (y, b) now _ z).
Qed.

(** A call of [reorder_mod_swap] that returns leaves the tables as they
    were, or exchanges the [sort_order] of two mods of the vehicle named in
    the call, a vehicle of the caller. *)
Lemma mod_swap_result uid now vid mid dir d d' o :
  reorder_mod_swap uid now vid mid dir d = Ok (d', o) →
  d' = d ∨
  ∃ u pv x a y b,
    uid = Some u ∧ vid = Some pv ∧ o = moved ∧ x ≠ y ∧
    DataLayer.vehicle_root d pv = Some u ∧
    mods d !! x = Some a ∧ Mod.vehicle_id a = pv ∧
    mods d !! y = Some b ∧ Mod.vehicle_id b = pv ∧
    profiles d' = profiles d ∧ vehicles d' = vehicles d ∧
    images d' = images d ∧
    ∀ z, mods d' !! z =
         if bool_decide (z = x)
         then Some (with_sort_order (sort_order_of b) now a)
         else if bool_decide (z = y)
              then Some (with_sort_order (sort_order_of a) now b)
              else mods d !! z.
Proof.
  unfold reorder_mod_swap. destruct (invalid_direction dir); [done|].
  destruct uid as [u|]; [|intros [= <- <-]; by left].
  set (siblings := filter _ (lockable_mods _ d)).
  assert (siblings ⊆ mods d) as Hsub.
  { unfold siblings, lockable_mods, visible_mods.
    etrans; [apply map_filter_subseteq|].
    etrans; apply map_filter_subseteq. }
  destruct mid as [x|]; [|intros [= <- <-]; by left].
  cbn [mbind option_bind].
  destruct (siblings !! x) as [a|] eqn:Hx; [|intros [= <- <-]; by left].
  cbn [mbind option_bind].
  destruct (visible_vehicles _ d !! Mod.vehicle_id a) as [v|] eqn:Hv;
    [|intros [= <- <-]; by left].
  cbn [mbind option_bind].
  case_bool_decide as Hu; [|intros [= <- <-]; by left].
  destruct (select_neighbor (is_up dir) siblings (x, a)) as [[y b]|] eqn:Hsel;
    [|intros [= <- <-]; by left].
  intros [= <- <-]. right. cbn [profiles vehicles mods images].
  apply ReorderFacts.select_neighbor_nearest in Hsel as Hnear.
  pose proof (ReorderFacts.nearest_distinct _ siblings (x, a) (y, b) Hx Hnear)
    as Hyx.
  destruct Hnear as (Hy & _ & _). simpl in Hy, Hyx.
  destruct vid as [pv|].
  2:{ apply map_lookup_filter_Some in Hx as [_ Hnone]. done. }
  destruct (ReorderFacts.vehicle_mods_stored _ d pv x a Hx) as [Hxa Hva].
  destruct (ReorderFacts.vehicle_mods_stored _ d pv y b Hy) as [Hyb Hvb].
  apply DataLayerFacts.visible_vehicles_stored in Hv.
  exists u, pv, x, a, y, b. do 4 (split; [done|]).
  split.
  { unfold DataLayer.vehicle_root. rewrite <-Hva, Hv. cbn. congruence. }
  do 4 (split; [done|]). do 3 (split; [done|]).
  intros z.
  by rewrite (ReorderFacts.swap_sort_order_lookup siblings (x, a) (y, b) now _ z).
Qed.

(** X21.  A reorder call writes rows of the caller only.  Whatever its
    arguments and whatever it returns, [reorder_vehicle_swap] leaves
    [profiles], [mods] and [images] as they were, adds and removes no
    vehicle, leaves every vehicle of another profile untouched, and of the
    caller's vehicles changes only [sort_order] and [updated_at].
    [reorder_mod_swap] does the same for the mods: only mods of the vehicle
    named in the call can change, and only when that vehicle is the
    caller's. *)
Theorem reorder_writes_own_siblings_only (uid : option uuid) (now : Z)
    (d : db) :
  (∀ vid dir d' o,
     reorder_vehicle_swap uid now vid dir d = Ok (d', o) →
     profiles d' = profiles d ∧ mods d' = mods d ∧ images d' = images d ∧
     (∀ z, vehicles d !! z = None → vehicles d' !! z = None) ∧
     ∀ z v, vehicles d !! z = Some v →
       (uid ≠ Some (Vehicle.profile_id v) → vehicles d' !! z = Some v) ∧
       ∃ v', vehicles d' !! z = Some v' ∧
             Vehicle.profile_id v' = Vehicle.profile_id v ∧
             Vehicle.hero_image_path v' = Vehicle.hero_image_path v ∧
             Vehicle.is_public v' = Vehicle.is_public v ∧
             Vehicle.created_at v' = Vehicle.created_at v) ∧
  (∀ vid mid dir d' o,
     reorder_mod_swap uid now vid mid dir d = Ok (d', o) →
     profiles d' = profiles d ∧ vehicles d' = vehicles d ∧
     images d' = images d ∧
     (∀ z, mods d !! z = None → mods d' !! z = None) ∧
     ∀ z m, mods d !! z = Some m →
       (vid ≠ Some (Mod.vehicle_id m) ∨
        DataLayer.vehicle_root d (Mod.vehicle_id m) ≠ uid →
        mods d' !! z = Some m) ∧
       ∃ m', mods d' !! z = Some m' ∧
             Mod.vehicle_id m' = Mod.vehicle_id m ∧
             Mod.created_at m' = Mod.created_at m).
Proof.
  split.
  - intros vid dir d' o [->|Hswap]%vehicle_swap_result.
    { do 4 (split; [done|]). intros z v Hz. split; [done|]. by exists v. }
    destruct Hswap as (u & x & a & y & b & -> & _ & Hxy & Hx & Hua & Hy & Hub
                       & Hp & Hm & Hi & Hlookup).
    do 3 (split; [done|]). split.
    + intros z Hz. rewrite Hlookup.
      destruct (decide (z = x)) as [->|?]; [congruence|].
      destruct (decide (z = y)) as [->|?]; [congruence|].
      by rewrite !bool_decide_eq_false_2.
    + intros z v Hz. rewrite Hlookup.
      destruct (decide (z = x)) as [->|?].
      { rewrite bool_decide_eq_true_2 by done.
        assert (v = a) as -> by congruence.
        split; [congruence|]. by eexists. }
      rewrite (bool_decide_eq_false_2 (z = x)) by done.
      destruct (decide (z = y)) as [->|?].
      { rewrite bool_decide_eq_true_2 by done.
        assert (v = b) as -> by congruence.
        split; [congruence|]. by eexists. }
      rewrite bool_decide_eq_false_2 by done. split; [done|]. by exists v.
  - intros vid mid dir d' o [->|Hswap]%mod_swap_result.
    { do 4 (split; [done|]). intros z m Hz. split; [done|]. by exists m. }
    destruct Hswap as (u & pv & x & a & y & b & -> & -> & _ & Hxy & Hroot
                       & Hx & Hva & Hy & Hvb & Hp & Hv & Hi & Hlookup).
    do 3 (split; [done|]). split.
    + intros z Hz. rewrite Hlookup.
      destruct (decide (z = x)) as [->|?]; [congruence|].
      destruct (decide (z = y)) as [->|?]; [congruence|].
      by rewrite !bool_decide_eq_false_2.
    + intros z m Hz. rewrite Hlookup.
      destruct (decide (z = x)) as [->|?].
      { rewrite bool_decide_eq_true_2 by done.
        assert (m = a) as -> by congruence.
        split; [|by eexists]. intros [Hother|Hother]; congruence. }
      rewrite (bool_decide_eq_false_2 (z = x)) by done.
      destruct (decide (z = y)) as [->|?].
      { rewrite bool_decide_eq_true_2 by done.
        assert (m = b) as -> by congruence.
        split; [|by eexists]. intros [Hother|Hother]; congruence. }
      rewrite bool_decide_eq_false_2 by done. split; [done|]. by exists m.
Qed.

(** X22.  Rows that share a [sort_order] cannot be reordered.  When the
    caller's vehicles all carry the same [sort_order], a call of
    [reorder_vehicle_swap], whatever it answers, leaves every vehicle with
    the sort key [(sort_order, created_at, id)] it had, so the list keeps
    its order; the same holds of [reorder_mod_swap] when the mods of the
    vehicle named in the call share their [sort_order].  The call can
    still answer [moved]: it exchanges two equal values. *)
Theorem reorder_ties_keep_order (u : uuid) (now : Z) (d : db) :
  (∀ vid dir d' o s,
     (∀ z v, vehicles d !! z = Some v → Vehicle.profile_id v = u →
             Vehicle.sort_order v = s) →
     reorder_vehicle_swap (Some u) now vid dir d = Ok (d', o) →
     ∀ z, (fun v => key_of (z, v)) <$> vehicles d' !! z
          = (fun v => key_of (z, v)) <$> vehicles d !! z) ∧
  (∀ vid mid dir d' o s,
     (∀ z m, mods d !! z = Some m → Some (Mod.vehicle_id m) = vid →
             Mod.sort_order m = s) →
     reorder_mod_swap (Some u) now vid mid dir d = Ok (d', o) →
     ∀ z, (fun m => key_of (z, m)) <$> mods d' !! z
          = (fun m => key_of (z, m)) <$> mods d !! z).
Proof.
  split.
  - intros vid dir d' o s Hties [->|Hswap]%vehicle_swap_result; [done|].
    destruct Hswap as (u' & x & a & y & b & [= <-] & _ & Hxy & Hx & Hua & Hy
                       & Hub & _ & _ & _ & Hlookup).
    pose proof (Hties x a Hx Hua) as Hsa.
    pose proof (Hties y b Hy Hub) as Hsb.
    intros z. rewrite Hlookup.
    destruct (decide (z = x)) as [->|?].
    { rewrite bool_decide_eq_true_2, Hx by done. cbn. unfold key_of. cbn.
      congruence. }
    rewrite (bool_decide_eq_false_2 (z = x)) by done.
    destruct (decide (z = y)) as [->|?].
    { rewrite bool_decide_eq_true_2, Hy by done. cbn. unfold key_of. cbn.
      congruence. }
    by rewrite bool_decide_eq_false_2.
  - intros vid mid dir d' o s Hties [->|Hswap]%mod_swap_result; [done|].
    destruct Hswap as (u' & pv & x & a & y & b & [= <-] & -> & _ & Hxy & _
                       & Hx & Hva & Hy & Hvb & _ & _ & _ & Hlookup).
    pose proof (Hties x a Hx (f_equal Some Hva)) as Hsa.
    pose proof (Hties y b Hy (f_equal Some Hvb)) as Hsb.
    intros z. rewrite Hlookup.
    destruct (decide (z = x)) as [->|?].
    { rewrite bool_decide_eq_true_2, Hx by done. cbn. unfold key_of. cbn.
      congruence. }
    rewrite (bool_decide_eq_false_2 (z = x)) by done.
    destruct (decide (z = y)) as [->|?].
    { rewrite bool_decide_eq_true_2, Hy by done. cbn. unfold key_of. cbn.
      congruence. }
    by rewrite bool_decide_eq_false_2.
Qed.

(** Two vehicles of profile 1, both with [sort_order] 0: moving the later
    one up answers [moved] and changes no sort key. *)
Lemma reorder_ties_keep_order_witness :
  let d :=
    {| profiles := {[ 1%N := Sample.profile (Some "alice") ]};
       vehicles := {[ 10%N := Sample.vehicle 1%N true 0 2;
                      11%N := Sample.vehicle 1%N true 0 3 ]};
       mods := ∅;
       images := ∅ |} in
  ∃ d',
    reorder_vehicle_swap (Some 1%N) 9 (Some 11%N) (Some "up") d = Ok (d', moved) ∧
    ∀ z, (fun v => key_of (z, v)) <$> vehicles d' !! z
         = (fun v => key_of (z, v)) <$> vehicles d !! z.
Proof.
  intros d.
  destruct (reorder_vehicle_swap (Some 1%N) 9 (Some 11%N) (Some "up") d)
    as [[d' o]|e] eqn:Hcall; [|vm_compute in Hcall; discriminate].
  assert (o = moved) as ->.
  { pose proof Hcall as Hc. vm_compute in Hc. by injection Hc as _ <-. }
  exists d'. split; [done|].
  apply (proj1 (reorder_ties_keep_order 1%N 9 d)
           (Some 11%N) (Some "up") d' moved 0); [|done].
  intros z v Hz _. revert z v Hz. apply map_Forall_insert_2; [done|].
  by apply map_Forall_singleton.
Defined.

End ReorderScopeFacts.

(** ** Usernames *)

Module UsernamesFacts.
Import Schema Storage Usernames ServerAction.

Lemma replace_runs_chars in_run s :
  string_forall is_username_char (replace_runs in_run s) = true.
Proof.
  revert in_run. induction s as [|c s IH]; intros in_run; [done|].
  cbn [replace_runs]. destruct (is_username_char c) eqn:Hc.
  - cbn. by rewrite Hc, IH.
  - destruct in_run; [apply IH|]. cbn. apply IH.
Qed.

Lemma squeeze_underscores_chars p in_run s :
  string_forall p s = true →
  string_forall p (squeeze_underscores in_run s) = true.
Proof.
  revert in_run. induction s as [|c s IH]; intros in_run; [done|].
  cbn. rewrite andb_true_iff. intros [Hc Hs].
  case_bool_decide; [destruct in_run|]; cbn; rewrite ?Hc; by apply IH.
Qed.

Lemma ltrim_char_chars p ch s :
  string_forall p s = true → string_forall p (ltrim_char ch s) = true.
Proof.
  induction s as [|c s IH]; [done|]. cbn [ltrim_char].
  case_bool_decide; [|done]. cbn. rewrite andb_true_iff. intros [_ Hs]. auto.
Qed.

Lemma rtrim_char_chars p ch s :
  string_forall p s = true → string_forall p (rtrim_char ch s) = true.
Proof.
  induction s as [|c s IH]; [done|]. cbn [rtrim_char string_forall].
  rewrite andb_true_iff. intros [Hc Hs]. specialize (IH Hs).
  destruct (rtrim_char ch s) as [|c' t].
  - case_bool_decide; [done|]. cbn. by rewrite Hc.
  - change (p c && string_forall p (String c' t) = true). by rewrite Hc, IH.
Qed.

Lemma string_drop_chars p n s :
  string_forall p s = true → string_forall p (string_drop n s) = true.
Proof.
  revert n. induction s as [|c s IH]; intros [|n]; try done.
  cbn. rewrite andb_true_iff. intros [_ Hs]. auto.
Qed.

Lemma string_repeat_chars p ch n :
  p ch = true → string_forall p (string_repeat ch n) = true.
Proof. intros Hch. induction n as [|n IH]; [done|]. cbn. by rewrite Hch. Qed.

Lemma length_left s n :
  String.length (left s n) = Nat.min n (String.length s).
Proof.
  unfold left. revert n. induction s as [|c s IH]; intros [|n]; try done.
  cbn. by rewrite IH.
Qed.

Lemma length_string_drop n s :
  String.length (string_drop n s) = (String.length s - n)%nat.
Proof.
  revert n. induction s as [|c s IH]; intros [|n]; try done. cbn. apply IH.
Qed.

Lemma length_string_repeat ch n : String.length (string_repeat ch n) = n.
Proof. induction n as [|n IH]; [done|]. cbn. by rewrite IH. Qed.

Lemma filter_chars (p q : ascii → bool) s :
  string_forall p s = true →
  string_forall p (StoragePolicies.string_filter q s) = true.
Proof.
  induction s as [|c s IH]; [done|]. cbn. rewrite andb_true_iff.
  intros [Hc Hs]. destruct (q c); [cbn; rewrite Hc|]; auto.
Qed.

Lemma filter_drops (p q : ascii → bool) s :
  string_forall (fun c => p c || negb (q c)) s = true →
  string_forall p (StoragePolicies.string_filter q s) = true.
Proof.
  induction s as [|c s IH]; [done|]. cbn. rewrite andb_true_iff.
  intros [Hc Hs]. destruct (q c) eqn:Hq; [|auto].
  cbn. rewrite orb_false_r in Hc. rewrite Hc. auto.
Qed.

(** The eight characters after the underscore of a name with suffix. *)
Lemma suffix_shape (p_user_id : option uuid) :
  let v_suffix :=
    right (remove_dashes (default "" (uuid_text <$> p_user_id))) 8 in
  let v_suffix :=
    if (String.length v_suffix <? 8)%nat then lpad v_suffix 8 "0"
    else v_suffix in
  string_forall is_username_char v_suffix = true ∧ String.length v_suffix = 8%nat.
Proof.
  set (digits := remove_dashes (default "" (uuid_text <$> p_user_id))).
  assert (string_forall is_username_char digits = true) as Hdigits.
  { unfold digits, remove_dashes. apply filter_drops.
    destruct p_user_id as [u|]; [|done]. cbn [fmap option_fmap option_map default].
    eapply ServerActionFacts.string_forall_impl;
      [|apply StoragePoliciesFacts.uuid_text_chars].
    intros c. destruct c as [[] [] [] [] [] [] [] []]; vm_compute; congruence. }
  intros v_suffix. fold digits in v_suffix.
  assert (string_forall is_username_char v_suffix = true) as Hsuffix
    by (by apply string_drop_chars).
  assert (String.length v_suffix ≤ 8)%nat as Hlen.
  { unfold v_suffix, right. rewrite length_string_drop. lia. }
  cbv zeta. destruct (String.length v_suffix <? 8)%nat eqn:Hshort.
  - apply Nat.ltb_lt in Hshort. unfold lpad.
    rewrite (proj2 (Nat.ltb_lt _ _) Hshort).
    rewrite ServerActionFacts.string_forall_app,
      ServerActionFacts.length_append, length_string_repeat.
    rewrite string_repeat_chars by done. split; [done|lia].
  - apply Nat.ltb_ge in Hshort. split; [done|lia].
Qed.

Section lower.
Variable lower : string → string.

(** The base of a derived name: between 3 characters and as many as the
    local part gives, all of them of [a-z0-9_]. *)
Lemma base_shape (p_email : option string) :
  let v_base :=
    btrim "_" (squeeze_underscores false
                 (replace_runs false (before_at (lower (default "" p_email))))) in
  let v_base := if (String.length v_base <? 3)%nat then "user" else v_base in
  string_forall is_username_char v_base = true ∧ (3 ≤ String.length v_base)%nat.
Proof.
  intros v_base. cbv zeta.
  destruct (String.length v_base <? 3)%nat eqn:Hshort.
  - split; [done|]. cbn. lia.
  - apply Nat.ltb_ge in Hshort. split; [|done].
    unfold v_base, btrim.
    apply rtrim_char_chars, ltrim_char_chars, squeeze_underscores_chars.
    apply replace_runs_chars.
Qed.

Lemma derive_username_from_email_shape (p_email : option string)
    (p_user_id : option uuid) (p_with_suffix : option bool) :
  isValidUsername
    (derive_username_from_email lower p_email p_user_id p_with_suffix) = true.
Proof.
  unfold derive_username_from_email. cbv zeta.
  destruct (base_shape p_email) as [Hbase Hlen]. cbv zeta in Hbase, Hlen.
  destruct (suffix_shape p_user_id) as [Hsuffix Hlen8].
  cbv zeta in Hsuffix, Hlen8.
  set (v_base := if (String.length _ <? 3)%nat then "user" else _) in *.
  set (v_suffix := if (String.length _ <? 8)%nat then _ else _) in *.
  unfold isValidUsername.
  destruct (default false p_with_suffix) eqn:Hwith.
  - rewrite !ServerActionFacts.string_forall_app,
      !ServerActionFacts.length_append, length_left, Hlen8.
    unfold left. rewrite StoragePoliciesFacts.string_forall_substring by done.
    rewrite Hsuffix. cbn [string_forall andb String.length].
    change (is_username_char "_") with true. cbn [andb].
    rewrite andb_true_iff, !Nat.leb_le. lia.
  - rewrite length_left. unfold left.
    rewrite StoragePoliciesFacts.string_forall_substring by done.
    cbn [andb]. rewrite andb_true_iff, !Nat.leb_le. lia.
Qed.

(** X23.  Every username the database derives from an e-mail address is
    one the application accepts.  Whatever the address (none, empty, without
    [@], in any script), whatever the user id and with or without the
    suffix, [derive_username_from_email] returns 3 to 30 characters of
    [a-z0-9_], the names that [isValidUsername] lets through, and
    [normalizeUsername] leaves the name as it is; with the suffix the name
    is at least 12 characters long. *)
Theorem derive_username_from_email_valid (p_email : option string)
    (p_user_id : option uuid) (p_with_suffix : option bool) :
  let username :=
    derive_username_from_email lower p_email p_user_id p_with_suffix in
  isValidUsername username = true ∧
  normalizeUsername username = username ∧
  (p_with_suffix = Some true → (12 ≤ String.length username)%nat).
Proof.
  intros username.
  pose proof (derive_username_from_email_shape p_email p_user_id p_with_suffix)
    as Hvalid.
  fold username in Hvalid. split; [done|]. split.
  - unfold isValidUsername in Hvalid.
    apply andb_true_iff in Hvalid as [Hvalid _].
    apply andb_true_iff in Hvalid as [Hchars _].
    assert (string_forall RateLimiter.is_key_char username = true) as Hkey.
    { revert Hchars. apply ServerActionFacts.string_forall_impl. intros c.
      destruct c as [[] [] [] [] [] [] [] []]; vm_compute; congruence. }
    unfold normalizeUsername.
    rewrite ServerActionFacts.js_trim_key_chars by done.
    by apply ServerActionFacts.toLowerCase_key_chars.
  - intros ->. unfold username, derive_username_from_email.
    cbv zeta. change (default false (Some true)) with true. cbv iota.
    destruct (base_shape p_email) as [_ Hlen].
    destruct (suffix_shape p_user_id) as [_ Hlen8].
    cbv zeta in Hlen, Hlen8.
    rewrite !ServerActionFacts.length_append, length_left, Hlen8.
    cbn [String.length]. lia.
Qed.

Lemma ltrim_char_head ch c s :
  c ≠ ch → ltrim_char ch (String c s) = String c s.
Proof. intros Hc. cbn. by rewrite bool_decide_eq_false_2. Qed.

Lemma rtrim_char_keeps ch s :
  string_forall (fun c => negb (bool_decide (c = ch))) s = true →
  rtrim_char ch s = s.
Proof.
  induction s as [|c s IH]; [done|]. cbn [string_forall rtrim_char].
  rewrite andb_true_iff, negb_true_iff, bool_decide_eq_false.
  intros [Hc Hs]. rewrite (IH Hs). destruct s; [|done].
  by rewrite bool_decide_eq_false_2.
Qed.

(** A valid username passes the two checks of [profiles], the database
    lowering no character of [a-z0-9_]. *)
Lemma valid_username_checks name :
  (∀ s, isValidUsername s = true → lower s = s) →
  isValidUsername name = true →
  let p := {| Profile.username := Some name;
              Profile.avatar_image_path := None |} in
  profiles_username_not_blank p && profiles_username_lowercase lower p = true.
Proof.
  intros Hlower Hvalid p. apply andb_true_iff. split.
  - unfold profiles_username_not_blank, p. cbn [Profile.username].
    apply negb_true_iff, bool_decide_eq_false.
    unfold isValidUsername in Hvalid.
    apply andb_true_iff in Hvalid as [Hvalid _].
    apply andb_true_iff in Hvalid as [Hchars Hlen].
    assert (string_forall (fun c => negb (bool_decide (c = " "%char))) name
            = true) as Hnospace.
    { revert Hchars. apply ServerActionFacts.string_forall_impl. intros c.
      destruct c as [[] [] [] [] [] [] [] []]; vm_compute; congruence. }
    unfold btrim. destruct name as [|c name]; [done|].
    pose proof Hnospace as Hhead. cbn [string_forall] in Hhead.
    apply andb_true_iff in Hhead as [Hc _].
    apply negb_true_iff, bool_decide_eq_false in Hc.
    rewrite ltrim_char_head by done. by rewrite rtrim_char_keeps.
  - unfold profiles_username_lowercase, p. cbn [Profile.username].
    apply bool_decide_eq_true. by rewrite Hlower.
Qed.

(** X24.  Signing up never fails over a username.  Where the database
    lowers no character of [a-z0-9_], the trigger [handle_new_user]
    always returns: it leaves a profile that is there as it is, and else
    adds a profile for the new user under the name derived from the
    e-mail address if no profile holds it, under the name with the suffix
    if only that one is free, and without a username if both are taken.
    No other row of any table changes. *)
Theorem handle_new_user_never_fails (new_email : option string)
    (new_id : uuid) (d : db) :
  (∀ s, isValidUsername s = true → lower s = s) →
  let v_username :=
    derive_username_from_email lower new_email (Some new_id) (Some false) in
  let v_fallback_username :=
    derive_username_from_email lower new_email (Some new_id) (Some true) in
  ∃ d',
    handle_new_user lower new_email new_id d = inr d' ∧
    vehicles d' = vehicles d ∧ mods d' = mods d ∧ images d' = images d ∧
    (∀ other, other ≠ new_id → profiles d' !! other = profiles d !! other) ∧
    match profiles d !! new_id with
    | Some p => d' = d
    | None =>
        ∃ username,
          profiles d' !! new_id
          = Some {| Profile.username := username;
                    Profile.avatar_image_path := None |} ∧
          match username with
          | Some name =>
              username_taken lower d name = false ∧
              (name = v_username ∨
               name = v_fallback_username ∧
               username_taken lower d v_username = true)
          | None =>
              username_taken lower d v_username = true ∧
              username_taken lower d v_fallback_username = true
          end
    end.
Proof.
  intros Hlower v_username v_fallback_username.
  pose proof (derive_username_from_email_shape new_email (Some new_id)) as Hvalid.
  pose proof (valid_username_checks v_username Hlower
                (Hvalid (Some false))) as Hchecks1.
  pose proof (valid_username_checks v_fallback_username Hlower
                (Hvalid (Some true))) as Hchecks2.
  cbv zeta in Hchecks1, Hchecks2.
  unfold handle_new_user. fold v_username v_fallback_username.
  unfold insert_profile_do_nothing. rewrite Hchecks1, Hchecks2.
  cbn [negb from_option profiles_username_not_blank
       profiles_username_lowercase Profile.username andb].
  destruct (profiles d !! new_id) as [p|] eqn:Hp.
  { rewrite bool_decide_eq_true_2 by eauto. by exists d. }
  rewrite bool_decide_eq_false_2 by (by intros [? ?]).
  destruct (username_taken lower d v_username) eqn:Hfirst.
  2:{ eexists. split; [done|]. cbn. do 3 (split; [done|]).
      split; [by intros other Hne; rewrite lookup_insert_ne|].
      exists (Some v_username). rewrite lookup_insert_eq. auto. }
  destruct (username_taken lower d v_fallback_username) eqn:Hsecond.
  2:{ eexists. split; [done|]. cbn. do 3 (split; [done|]).
      split; [by intros other Hne; rewrite lookup_insert_ne|].
      exists (Some v_fallback_username). rewrite lookup_insert_eq. auto. }
  eexists. split; [done|]. cbn. do 3 (split; [done|]).
  split; [by intros other Hne; rewrite lookup_insert_ne|].
  exists None. by rewrite lookup_insert_eq.
Qed.

End lower.

Lemma toLowerCase_valid s :
  isValidUsername s = true → RateLimiter.toLowerCase s = s.
Proof.
  unfold isValidUsername. intros [[Hchars _]%andb_true_iff _]%andb_true_iff.
  apply ServerActionFacts.toLowerCase_key_chars. revert Hchars.
  apply ServerActionFacts.string_forall_impl. intros c.
  destruct c as [[] [] [] [] [] [] [] []]; vm_compute; congruence.
Qed.

(** A third user signs up to the sample garage with the address
    [Alice@example.com]: [alice] is taken, and the profile gets the name
    with the suffix. *)
Lemma handle_new_user_never_fails_witness :
  ∃ d',
    handle_new_user RateLimiter.toLowerCase (Some "Alice@example.com") 3%N
      Sample.garage = inr d' ∧
    vehicles d' = vehicles Sample.garage ∧
    profiles d' !! 3%N = Some (Sample.profile (Some "alice_00000003")).
Proof.
  destruct (handle_new_user_never_fails RateLimiter.toLowerCase
              (Some "Alice@example.com") 3%N Sample.garage toLowerCase_valid)
    as (d' & Hrun & Hv & _).
  exists d'. split; [done|]. split; [done|].
  vm_compute in Hrun. by injection Hrun as <-.
Defined.

End UsernamesFacts.
